(** * TinkerGraph Python bindings: handle lifecycle and dual-state object model

    A shallow embedding of [tinkergraphs/exceptions.py], [tinkergraphs/bindings.py]
    and [tinkergraphs/graph.py].  Python objects live in an explicit store (the
    [World]); methods are state-and-exception passing functions over it; the
    native shared library is an interface ([NativeFunctionTable]) whose calls
    are recorded in a trace. *)

From Stdlib Require Import Ascii String.
From stdpp Require Import gmap strings pretty list fin_maps.

Local Open Scope Z_scope.
Local Open Scope string_scope.

(** ** Python values that can be passed as labels, ids and property values *)

(** [None], [bool], [int] and [str]; floats, sequences and mappings are left
    out. *)

Inductive value :=
  | VNone
  | VBool (b : bool)
  | VInt (z : Z)
  | VStr (s : string).

#[global] Instance value_eq_dec : EqDecision value.
Proof. solve_decision. Defined.

(** Python's [==] on these values: [bool] is a subclass of [int], so
    [True == 1]; values of unrelated types are unequal. *)
Definition py_eq (x y : value) : bool :=
  match x, y with
  | VNone, VNone => true
  | VBool a, VBool b => bool_decide (a = b)
  | VBool a, VInt z | VInt z, VBool a => bool_decide (Z.b2z a = z)
  | VInt a, VInt b => bool_decide (a = b)
  | VStr a, VStr b => bool_decide (a = b)
  | _, _ => false
  end.

(** [str(x)] *)
Definition py_str (x : value) : string :=
  match x with
  | VNone => "None"
  | VBool true => "True"
  | VBool false => "False"
  | VInt z => pretty z
  | VStr s => s
  end.

(** [type(x).__name__] *)
Definition type_name (x : value) : string :=
  match x with
  | VNone => "NoneType"
  | VBool _ => "bool"
  | VInt _ => "int"
  | VStr _ => "str"
  end.

(** [repr(x)]; the escaping of quotes and control characters that [repr]
    performs inside strings is not modelled (it only shows in messages). *)
Definition py_repr (x : value) : string :=
  match x with
  | VStr s => "'" ++ s ++ "'"
  | _ => py_str x
  end.

(** [f"{x}"] for an [Optional[str]] *)
Definition fmt_opt (x : option string) : string :=
  match x with Some s => s | None => "None" end.

Fixpoint join (sep : string) (l : list string) : string :=
  match l with
  | [] => ""
  | [x] => x
  | x :: r => x ++ sep ++ join sep r
  end.

(** [repr] of a [dict] with string keys *)
Definition py_repr_dict (d : gmap string value) : string :=
  "{" ++ join ", " ((λ kv, py_repr (VStr kv.1) ++ ": " ++ py_repr kv.2) <$> map_to_list d) ++ "}".

(** ** exceptions.py *)

Inductive ExcClass :=
  | TinkerGraphError
  | TinkerGraphNativeError
  | TinkerGraphLibraryError
  | TinkerGraphVertexError
  | TinkerGraphEdgeError
  | TinkerGraphMemoryError
  | TinkerGraphValidationError
  | TinkerGraphConfigurationError
  | ValueError            (* builtin: raised by [len()] on a negative [__len__] *)
  | UnicodeDecodeError    (* builtin: raised by [bytes.decode] *)
  | UnicodeEncodeError    (* builtin: raised by [str.encode] *)
  | DanglingReference.    (* not a Python exception: a strong reference of the
                             store does not resolve; a Python reference always
                             keeps its object alive *)

#[global] Instance ExcClass_eq_dec : EqDecision ExcClass.
Proof. solve_decision. Defined.

(** The direct base class inside the modelled hierarchy ([None]: the base
    is the builtin [Exception]). *)
Definition base_class (c : ExcClass) : option ExcClass :=
  match c with
  | TinkerGraphError => None
  | TinkerGraphNativeError | TinkerGraphLibraryError | TinkerGraphVertexError
  | TinkerGraphEdgeError | TinkerGraphMemoryError | TinkerGraphValidationError
  | TinkerGraphConfigurationError => Some TinkerGraphError
  | ValueError => None
  | UnicodeDecodeError | UnicodeEncodeError => Some ValueError
  | DanglingReference => None
  end.

(** [issubclass(c, K)]: what an [except K] clause catches. *)
Definition issubclass (c K : ExcClass) : bool :=
  bool_decide (c = K) || bool_decide (base_class c = Some K).

Record Exc := mkExc { exc_class : ExcClass; exc_message : string }.

#[global] Instance Exc_eq_dec : EqDecision Exc.
Proof. solve_decision. Defined.

Inductive Res (A : Type) :=
  | Ok (a : A)
  | Raise (e : Exc).
Arguments Ok {A} a.
Arguments Raise {A} e.

(** ** The native function table (ctypes boundary) *)

(** One constructor per entry point configured in
    [TinkerGraphNativeLibrary._configure_functions], with the marshalled
    arguments.  A [char*] argument that may be [NULL] is an [option]; the
    parallel key/value arrays are [None] when the broker passes [None]. *)
Inductive NativeCall :=
  | tinkergraph_create
  | tinkergraph_destroy (graph : Z)
  | tinkergraph_add_vertex (graph : Z) (id : option string)
  | tinkergraph_add_vertex_with_properties
      (graph : Z) (id : option string) (keys values : option (list string)) (count : Z)
  | tinkergraph_add_edge (graph : Z) (label : string) (out_vertex in_vertex : Z)
  | tinkergraph_add_edge_with_properties
      (graph : Z) (label : string) (out_vertex in_vertex : Z)
      (keys values : option (list string)) (count : Z)
  | tinkergraph_vertex_count (graph : Z)
  | tinkergraph_edge_count (graph : Z)
  | tinkergraph_vertex_id (vertex : Z) (buffer_size : nat)
  | tinkergraph_edge_label (edge : Z) (buffer_size : nat)
  | tinkergraph_destroy_vertex (vertex : Z)
  | tinkergraph_destroy_edge (edge : Z)
  | tinkergraph_get_error_message (buffer_size : nat).

#[global] Instance NativeCall_eq_dec : EqDecision NativeCall.
Proof. solve_decision. Defined.

(** The native library is external: a state [NS] and a transition per call,
    giving the integer or pointer returned (a null pointer is [0]; ignored for
    [void] functions) and the bytes the call wrote into the caller's buffer
    (empty for calls without a buffer). *)
Class NativeFunctionTable (NS : Type) :=
  native_call : NativeCall → NS → (Z * string) * NS.

(** ** ctypes string buffers and UTF-8 *)

(** The first [n] bytes of [s]. *)
Fixpoint take_bytes (n : nat) (s : string) : string :=
  match n, s with
  | S n', String c r => String c (take_bytes n' r)
  | _, _ => ""
  end.

(** The bytes before the first NUL. *)
Fixpoint until_nul (s : string) : string :=
  match s with
  | String c r => if bool_decide (c = Ascii.zero) then "" else String c (until_nul r)
  | EmptyString => ""
  end.

(** [buffer.value] of a [create_string_buffer(buffer_size)] (all NUL) into
    which the native side wrote [written] from its start: the bytes before the
    first NUL, at most [buffer_size] of them. *)
Definition buffer_value (buffer_size : nat) (written : string) : string :=
  until_nul (take_bytes buffer_size written).

Definition byte_codes (s : string) : list N :=
  (λ c, Ascii.N_of_ascii c) <$> String.list_ascii_of_string s.

Definition is_cont (b : N) : bool := ((128 <=? b) && (b <=? 191))%N.

(** Well-formed UTF-8 (the byte ranges of the Unicode standard, as Python's
    strict decoder accepts them: no overlong forms, no surrogates, nothing
    above U+10FFFF). *)
Fixpoint utf8_valid (bs : list N) : bool :=
  match bs with
  | [] => true
  | b :: r =>
    if (b <? 128)%N then utf8_valid r else
    match r with
    | [] => false
    | c1 :: r1 =>
      if ((194 <=? b) && (b <=? 223))%N then is_cont c1 && utf8_valid r1 else
      match r1 with
      | [] => false
      | c2 :: r2 =>
        if ((224 <=? b) && (b <=? 239))%N then
          (if (b =? 224)%N then (160 <=? c1) && (c1 <=? 191)
           else if (b =? 237)%N then (128 <=? c1) && (c1 <=? 159)
           else is_cont c1)%N
          && is_cont c2 && utf8_valid r2
        else
        match r2 with
        | [] => false
        | c3 :: r3 =>
          if ((240 <=? b) && (b <=? 244))%N then
            (if (b =? 240)%N then (144 <=? c1) && (c1 <=? 191)
             else if (b =? 244)%N then (128 <=? c1) && (c1 <=? 143)
             else is_cont c1)%N
            && is_cont c2 && is_cont c3 && utf8_valid r3
          else false
        end
      end
    end
  end.

(** A Python [str] is represented by the bytes of its code points in UTF-8,
    a lone surrogate (which a [str] may hold) by the three bytes of its own
    code point: U+D800 is [237; 160; 128].  A [str] with a surrogate is the
    only kind that is not well-formed UTF-8, and the only kind that
    [s.encode('utf-8')] refuses.  [b.decode('utf-8')] and [s.encode('utf-8')]
    keep the bytes and check well-formedness; the position that Python
    reports in the message is left out.  A byte sequence that stands for no
    [str] at all is treated like one with a surrogate. *)
Definition decode_utf8 (b : string) : Res string :=
  if utf8_valid (byte_codes b) then Ok b
  else Raise (mkExc UnicodeDecodeError "'utf-8' codec can't decode bytes").

(** What [encode('utf-8')] raises. *)
Definition encode_error : Exc :=
  mkExc UnicodeEncodeError
    "'utf-8' codec can't encode characters: surrogates not allowed".

Definition encode_utf8 (s : string) : Res string :=
  if utf8_valid (byte_codes s) then Ok s else Raise encode_error.

(** [s.encode('utf-8')] succeeds. *)
Definition encodable (s : string) : bool := utf8_valid (byte_codes s).

(** The [str] ["\ud800"], one lone surrogate. *)
Definition lone_surrogate : string :=
  String (Ascii.ascii_of_nat 237)
    (String (Ascii.ascii_of_nat 160) (String (Ascii.ascii_of_nat 128) "")).

(** ** The store of Python objects *)

(** Object identities.  A [TinkerGraph] that has been reclaimed is absent from
    [graphs], which is what a dead [weakref.ref] observes. *)
Definition ref := nat.

(** [class Vertex]: [_graph_ref], [_ptr], [id], [label], [properties],
    [_disposed]. *)
Record Vertex := mkVertex {
  vertex_graph_ref : ref;
  vertex_ptr : Z;
  vertex_id : string;
  vertex_label : string;
  vertex_properties : gmap string value;
  vertex_disposed : bool
}.

(** [class Edge]: [_graph_ref], [_ptr], [id], [label], [out_vertex],
    [in_vertex], [properties], [_disposed]. *)
Record Edge := mkEdge {
  edge_graph_ref : ref;
  edge_ptr : Z;
  edge_id : string;
  edge_label : string;
  edge_out_vertex : ref;
  edge_in_vertex : ref;
  edge_properties : gmap string value;
  edge_disposed : bool
}.

(** [class TinkerGraph]: [_native] (the [_ptr] of its [NativeGraphHandle]),
    [_vertices], [_edges], [_vertex_id_counter], [_closed].  The registries
    are dicts keyed by native pointer; their iteration order (insertion order
    in Python) is abstracted to that of [map_to_list]. *)
Record TinkerGraph := mkGraph {
  graph_native : Z;
  graph_vertices : gmap Z ref;
  graph_edges : gmap Z ref;
  graph_vertex_id_counter : nat;
  graph_closed : bool
}.

Record World {NS : Type} := mkWorld {
  graphs : gmap ref TinkerGraph;
  vertex_objs : gmap ref Vertex;
  edge_objs : gmap ref Edge;
  next_ref : ref;
  native : NS;
  trace : list NativeCall
}.
Arguments World NS : clear implicits.
Arguments mkWorld {NS}.

(** An argument of [add_edge] that is expected to be a [Vertex]. *)
Inductive pyobj :=
  | AVertex (r : ref)
  | AOther (x : value).

(** State and exception passing: a raised exception keeps the store as the
    code left it. *)
Definition StateExc (NS A : Type) : Type := World NS → Res A * World NS.

Definition ret {NS A} (a : A) : StateExc NS A := λ w, (Ok a, w).

Definition bind {NS A B} (m : StateExc NS A) (k : A → StateExc NS B) : StateExc NS B :=
  λ w, match m w with
       | (Ok a, w') => k a w'
       | (Raise e, w') => (Raise e, w')
       end.

Definition raise {NS A} (c : ExcClass) (msg : string) : StateExc NS A :=
  λ w, (Raise (mkExc c msg), w).

Definition get_world {NS} : StateExc NS (World NS) := λ w, (Ok w, w).

Definition lift_res {NS A} (r : Res A) : StateExc NS A := λ w, (r, w).

Notation "x <- c1 ;; c2" := (bind c1 (λ x, c2))
  (at level 100, c1 at next level, right associativity).
Notation "c1 ;; c2" := (bind c1 (λ _, c2))
  (at level 100, right associativity).

Section Model.

Context {NS : Type} `{!NativeFunctionTable NS}.

Local Abbreviation M := (StateExc NS).

(** [try: m  except: handler] with a bare [except]. *)
Definition try_except {A} (m : M A) (handler : M A) : M A :=
  λ w, match m w with
       | (Ok a, w') => (Ok a, w')
       | (Raise _, w') => handler w'
       end.

(** [try: m  except K as e: handler e] *)
Definition try_except_as {A} (K : ExcClass) (m : M A) (handler : Exc → M A) : M A :=
  λ w, match m w with
       | (Ok a, w') => (Ok a, w')
       | (Raise e, w') =>
           if issubclass (exc_class e) K then handler e w' else (Raise e, w')
       end.

(** [for x in l: f x] *)
Fixpoint for_each {A} (l : list A) (f : A → M unit) : M unit :=
  match l with
  | [] => ret tt
  | x :: r => f x ;; for_each r f
  end.

(** [[x for x in l if p x]] *)
Fixpoint comprehension_if {A} (l : list A) (p : A → M bool) : M (list A) :=
  match l with
  | [] => ret []
  | x :: r =>
      b <- p x ;;
      r' <- comprehension_if r p ;;
      ret (if b then x :: r' else r')
  end.

(** Following a strong reference. *)
Definition get_graph (g : ref) : M TinkerGraph :=
  λ w, match graphs w !! g with
       | Some G => (Ok G, w)
       | None => (Raise (mkExc DanglingReference "TinkerGraph"), w)
       end.

Definition get_vertex (v : ref) : M Vertex :=
  λ w, match vertex_objs w !! v with
       | Some V => (Ok V, w)
       | None => (Raise (mkExc DanglingReference "Vertex"), w)
       end.

Definition get_edge (e : ref) : M Edge :=
  λ w, match edge_objs w !! e with
       | Some E => (Ok E, w)
       | None => (Raise (mkExc DanglingReference "Edge"), w)
       end.

Definition put_graph (g : ref) (G : TinkerGraph) : M unit :=
  λ w, (Ok tt, mkWorld (<[g := G]> (graphs w)) (vertex_objs w) (edge_objs w)
                       (next_ref w) (native w) (trace w)).

Definition put_vertex (v : ref) (V : Vertex) : M unit :=
  λ w, (Ok tt, mkWorld (graphs w) (<[v := V]> (vertex_objs w)) (edge_objs w)
                       (next_ref w) (native w) (trace w)).

Definition put_edge (e : ref) (E : Edge) : M unit :=
  λ w, (Ok tt, mkWorld (graphs w) (vertex_objs w) (<[e := E]> (edge_objs w))
                       (next_ref w) (native w) (trace w)).

(** The identity of a newly constructed object. *)
Definition new_ref : M ref :=
  λ w, (Ok (next_ref w), mkWorld (graphs w) (vertex_objs w) (edge_objs w)
                                 (S (next_ref w)) (native w) (trace w)).

(** A call through [self._lib._lib]: the only access to the native state. *)
Definition invoke (c : NativeCall) : M (Z * string) :=
  λ w, let '(r, n') := native_call c (native w) in
       (Ok r, mkWorld (graphs w) (vertex_objs w) (edge_objs w)
                      (next_ref w) n' (trace w ++ [c])).

(** ** exceptions.py: convenience functions *)

Definition raise_native_error {A} (operation : string) (details : string) : M A :=
  raise TinkerGraphNativeError
    ("Native operation '" ++ operation ++ "' failed"
     ++ (if bool_decide (details = "") then "" else ": " ++ details)).

Definition raise_validation_error {A}
    (parameter expected_type : string) (actual_value : value) : M A :=
  raise TinkerGraphValidationError
    ("Invalid parameter '" ++ parameter ++ "': expected " ++ expected_type
     ++ (match actual_value with
         | VNone => ""
         | x => ", got " ++ type_name x ++ " '" ++ py_str x ++ "'"
         end)).

(** ** bindings.py: [NativeGraphHandle], by the [_ptr] of the handle *)

(** The id that reaches the native side,
    [vertex_id.encode('utf-8') if vertex_id else None], once encoded: the
    empty string is falsy. *)
Definition id_bytes (vertex_id : option string) : option string :=
  match vertex_id with
  | Some s => if bool_decide (s = "") then None else Some s
  | None => None
  end.

(** The parallel C arrays built from a property dict, once its keys and
    values are encoded. *)
Definition property_keys (properties : gmap string value) : option (list string) :=
  if bool_decide (properties = ∅) then None
  else Some ((map_to_list properties).*1).

Definition property_values (properties : gmap string value) : option (list string) :=
  if bool_decide (properties = ∅) then None
  else Some (py_str <$> (map_to_list properties).*2).

Definition property_count (properties : gmap string value) : Z :=
  if bool_decide (properties = ∅) then 0
  else Z.of_nat (size properties).

Definition NativeGraphHandle_init : M Z :=
  r <- invoke tinkergraph_create ;;
  if bool_decide (r.1 = 0)
  then raise_native_error "create_graph" "Native graph creation returned null"
  else ret r.1.

(** [s.encode('utf-8')] as a step of a method, and the list comprehension
    [[x.encode('utf-8') for x in l]]. *)
Definition encode (s : string) : M string := lift_res (encode_utf8 s).

Fixpoint encode_list (l : list string) : M (list string) :=
  match l with
  | [] => ret []
  | x :: r => y <- encode x ;; r' <- encode_list r ;; ret (y :: r')
  end.

(** [id_bytes = vertex_id.encode('utf-8') if vertex_id else None] *)
Definition encode_id (vertex_id : option string) : M (option string) :=
  match vertex_id with
  | Some s => if bool_decide (s = "") then ret None
              else b <- encode s ;; ret (Some b)
  | None => ret None
  end.

(** [keys = [k.encode('utf-8') for k in properties.keys()]] and
    [values = [str(v).encode('utf-8') for v in properties.values()]], both
    under [if properties:]. *)
Definition encode_keys (properties : gmap string value) : M (option (list string)) :=
  if bool_decide (properties = ∅) then ret None
  else ks <- encode_list ((map_to_list properties).*1) ;; ret (Some ks).

Definition encode_values (properties : gmap string value) : M (option (list string)) :=
  if bool_decide (properties = ∅) then ret None
  else vs <- encode_list (py_str <$> (map_to_list properties).*2) ;; ret (Some vs).

Definition NativeGraphHandle_add_vertex (self_ptr : Z) (vertex_id : option string) : M Z :=
  id_b <- encode_id vertex_id ;;
  r <- invoke (tinkergraph_add_vertex self_ptr id_b) ;;
  if bool_decide (r.1 = 0)
  then raise_native_error "add_vertex"
         ("Failed to add vertex with id '" ++ fmt_opt vertex_id ++ "'")
  else ret r.1.

Definition NativeGraphHandle_add_vertex_with_properties
    (self_ptr : Z) (vertex_id : option string) (properties : gmap string value) : M Z :=
  id_b <- encode_id vertex_id ;;
  keys <- encode_keys properties ;;
  values <- encode_values properties ;;
  r <- invoke (tinkergraph_add_vertex_with_properties self_ptr id_b keys values
                 (property_count properties)) ;;
  if bool_decide (r.1 = 0)
  then raise_native_error "add_vertex_with_properties"
         ("Failed to add vertex with id '" ++ fmt_opt vertex_id
          ++ "' and properties " ++ py_repr_dict properties)
  else ret r.1.

Definition NativeGraphHandle_add_edge
    (self_ptr : Z) (label : string) (out_vertex_ptr in_vertex_ptr : Z) : M Z :=
  label_b <- encode label ;;
  r <- invoke (tinkergraph_add_edge self_ptr label_b out_vertex_ptr in_vertex_ptr) ;;
  if bool_decide (r.1 = 0)
  then raise_native_error "add_edge" ("Failed to add edge with label '" ++ label ++ "'")
  else ret r.1.

Definition NativeGraphHandle_add_edge_with_properties
    (self_ptr : Z) (label : string) (out_vertex_ptr in_vertex_ptr : Z)
    (properties : gmap string value) : M Z :=
  label_b <- encode label ;;
  keys <- encode_keys properties ;;
  values <- encode_values properties ;;
  r <- invoke (tinkergraph_add_edge_with_properties self_ptr label_b
                 out_vertex_ptr in_vertex_ptr keys values
                 (property_count properties)) ;;
  if bool_decide (r.1 = 0)
  then raise_native_error "add_edge_with_properties"
         ("Failed to add edge with label '" ++ label
          ++ "' and properties " ++ py_repr_dict properties)
  else ret r.1.

Definition NativeGraphHandle_vertex_count (self_ptr : Z) : M Z :=
  r <- invoke (tinkergraph_vertex_count self_ptr) ;; ret r.1.

Definition NativeGraphHandle_edge_count (self_ptr : Z) : M Z :=
  r <- invoke (tinkergraph_edge_count self_ptr) ;; ret r.1.

(** [buffer.value.decode('utf-8') if buffer.value else dflt] *)
Definition decode_buffer (buffer_size : nat) (written dflt : string) : M string :=
  if bool_decide (buffer_value buffer_size written = "") then ret dflt
  else lift_res (decode_utf8 (buffer_value buffer_size written)).

Definition NativeGraphHandle_get_vertex_id (vertex_ptr : Z) (buffer_size : nat) : M string :=
  r <- invoke (tinkergraph_vertex_id vertex_ptr buffer_size) ;;
  if bool_decide (r.1 < 0)
  then raise_native_error "get_vertex_id" "Failed to retrieve vertex ID"
  else decode_buffer buffer_size r.2 "".

Definition NativeGraphHandle_get_edge_label (edge_ptr : Z) (buffer_size : nat) : M string :=
  r <- invoke (tinkergraph_edge_label edge_ptr buffer_size) ;;
  if bool_decide (r.1 < 0)
  then raise_native_error "get_edge_label" "Failed to retrieve edge label"
  else decode_buffer buffer_size r.2 "".

Definition NativeGraphHandle_destroy_vertex (vertex_ptr : Z) : M unit :=
  if bool_decide (vertex_ptr = 0) then ret tt
  else invoke (tinkergraph_destroy_vertex vertex_ptr) ;; ret tt.

Definition NativeGraphHandle_destroy_edge (edge_ptr : Z) : M unit :=
  if bool_decide (edge_ptr = 0) then ret tt
  else invoke (tinkergraph_destroy_edge edge_ptr) ;; ret tt.

Definition NativeGraphHandle_get_last_error (buffer_size : nat) : M string :=
  r <- invoke (tinkergraph_get_error_message buffer_size) ;;
  if bool_decide (r.1 < 0)
  then ret "Failed to retrieve error message"
  else decode_buffer buffer_size r.2 "No error message available".

(** ** graph.py *)

(** [d.values()] of a registry. *)
Definition values (d : gmap Z ref) : list ref := (map_to_list d).*2.

Definition set_vertices (G : TinkerGraph) (d : gmap Z ref) : TinkerGraph :=
  mkGraph (graph_native G) d (graph_edges G) (graph_vertex_id_counter G) (graph_closed G).

Definition set_edges (G : TinkerGraph) (d : gmap Z ref) : TinkerGraph :=
  mkGraph (graph_native G) (graph_vertices G) d (graph_vertex_id_counter G) (graph_closed G).

Definition set_properties (V : Vertex) (d : gmap string value) : Vertex :=
  mkVertex (vertex_graph_ref V) (vertex_ptr V) (vertex_id V) (vertex_label V) d
           (vertex_disposed V).

Definition dispose_vertex (V : Vertex) : Vertex :=
  mkVertex (vertex_graph_ref V) (vertex_ptr V) (vertex_id V) (vertex_label V)
           (vertex_properties V) true.

Definition dispose_edge (E : Edge) : Edge :=
  mkEdge (edge_graph_ref E) (edge_ptr E) (edge_id E) (edge_label E)
         (edge_out_vertex E) (edge_in_vertex E) (edge_properties E) true.

(** [TinkerGraph.__init__] *)
Definition TinkerGraph_init : M ref :=
  native_ptr <- try_except_as TinkerGraphNativeError NativeGraphHandle_init
                  (λ e, raise TinkerGraphError
                          ("Failed to create TinkerGraph: " ++ exc_message e)) ;;
  self <- new_ref ;;
  put_graph self (mkGraph native_ptr ∅ ∅ 0 false) ;;
  ret self.

Definition closed_error : Exc := mkExc TinkerGraphError "Graph has been closed".

Definition TinkerGraph__check_not_closed (self : ref) : M unit :=
  G <- get_graph self ;;
  if graph_closed G then lift_res (Raise closed_error) else ret tt.

(** The [vertex_count] property. *)
Definition TinkerGraph_vertex_count (self : ref) : M Z :=
  TinkerGraph__check_not_closed self ;;
  G <- get_graph self ;;
  NativeGraphHandle_vertex_count (graph_native G).

(** The [edge_count] property. *)
Definition TinkerGraph_edge_count (self : ref) : M Z :=
  TinkerGraph__check_not_closed self ;;
  G <- get_graph self ;;
  NativeGraphHandle_edge_count (graph_native G).

Definition TinkerGraph___len__ (self : ref) : M Z :=
  TinkerGraph_vertex_count self.

Definition TinkerGraph___str__ (self : ref) : M string :=
  nv <- TinkerGraph_vertex_count self ;;
  ne <- TinkerGraph_edge_count self ;;
  ret ("TinkerGraph(vertices=" ++ pretty nv ++ ", edges=" ++ pretty ne ++ ")").

(** The builtin [len(graph)]: [__len__] must not be negative. *)
Definition py_len (self : ref) : M Z :=
  n <- TinkerGraph___len__ self ;;
  if bool_decide (n < 0) then raise ValueError "__len__() should return >= 0"
  else ret n.

(** The truth value of an [Optional[TinkerGraph]], as in [if graph] and
    [if not graph]: [None] is false, and a [TinkerGraph], which defines
    [__len__] and no [__bool__], is true when its length is not zero. *)
Definition py_bool (graph : option ref) : M bool :=
  match graph with
  | None => ret false
  | Some g => n <- py_len g ;; ret (negb (bool_decide (n = 0)))
  end.

(** *** class Vertex *)

(** [self._graph_ref()]: the graph, or [None] once it has been reclaimed. *)
Definition Vertex__graph (self : ref) : M (option ref) :=
  V <- get_vertex self ;;
  w <- get_world ;;
  ret (match graphs w !! vertex_graph_ref V with
       | Some _ => Some (vertex_graph_ref V)
       | None => None
       end).

Definition Vertex__cleanup (self : ref) : M unit :=
  V <- get_vertex self ;;
  if negb (vertex_disposed V) && negb (bool_decide (vertex_ptr V = 0)) then
    graph <- Vertex__graph self ;;
    t <- py_bool graph ;;          (* [graph and hasattr(graph, '_native')] *)
    (if t then try_except (NativeGraphHandle_destroy_vertex (vertex_ptr V)) (ret tt)
     else ret tt) ;;
    V' <- get_vertex self ;;
    put_vertex self (dispose_vertex V')
  else ret tt.

(** The loop of [_matches_properties] over [filters.items()]. *)
Definition matches_properties (properties filters : gmap string value) : bool :=
  forallb (λ kv, match properties !! kv.1 with
                 | None => false
                 | Some y => py_eq y kv.2
                 end)
          (map_to_list filters).

Definition Vertex__matches_properties (self : ref) (filters : gmap string value) : M bool :=
  V <- get_vertex self ;;
  ret (matches_properties (vertex_properties V) filters).

(** The overlay's keys are strings, so a key of another type is absent. *)
Definition Vertex_get_property (self : ref) (key : value) (dflt : value) : M value :=
  V <- get_vertex self ;;
  ret (match key with
       | VStr k => default dflt (vertex_properties V !! k)
       | _ => dflt
       end).

Definition Vertex_set_property (self : ref) (key : value) (val : value) : M unit :=
  match key with
  | VStr k =>
      V <- get_vertex self ;;
      put_vertex self (set_properties V (<[k := val]> (vertex_properties V)))
  | x => raise_validation_error "key" "str" x
  end.

Definition Vertex_remove_property (self : ref) (key : value) : M value :=
  V <- get_vertex self ;;
  match key with
  | VStr k =>
      put_vertex self (set_properties V (delete k (vertex_properties V))) ;;
      ret (default VNone (vertex_properties V !! k))
  | _ => ret VNone
  end.

(** [Vertex.__eq__(self, other)] for an [other] that is a [Vertex]. *)
Definition Vertex___eq__ (self other : ref) : M bool :=
  A <- get_vertex self ;;
  B <- get_vertex other ;;
  if bool_decide (vertex_id A = vertex_id B) then
    ga <- Vertex__graph self ;;
    gb <- Vertex__graph other ;;
    ret (bool_decide (ga = gb))
  else ret false.

(** [[e for e in edges if e.label in labels]] when [labels] is not empty *)
Definition filter_labels (labels : list value) (edges : list ref) : M (list ref) :=
  match labels with
  | [] => ret edges
  | _ => comprehension_if edges
           (λ e, E <- get_edge e ;; ret (existsb (py_eq (VStr (edge_label E))) labels))
  end.

Definition Vertex_out_edges (self : ref) (labels : list value) : M (list ref) :=
  graph <- Vertex__graph self ;;
  t <- py_bool graph ;;
  match graph with
  | Some g =>
      if t then
        G <- get_graph g ;;
        edges <- comprehension_if (values (graph_edges G))
                   (λ e, E <- get_edge e ;; Vertex___eq__ (edge_out_vertex E) self) ;;
        filter_labels labels edges
      else ret []
  | None => ret []
  end.

Definition Vertex_in_edges (self : ref) (labels : list value) : M (list ref) :=
  graph <- Vertex__graph self ;;
  t <- py_bool graph ;;
  match graph with
  | Some g =>
      if t then
        G <- get_graph g ;;
        edges <- comprehension_if (values (graph_edges G))
                   (λ e, E <- get_edge e ;; Vertex___eq__ (edge_in_vertex E) self) ;;
        filter_labels labels edges
      else ret []
  | None => ret []
  end.

Definition Vertex_both_edges (self : ref) (labels : list value) : M (list ref) :=
  o <- Vertex_out_edges self labels ;;
  i <- Vertex_in_edges self labels ;;
  ret ((o ++ i)%list).

(** [[f e for e in l]] *)
Fixpoint comprehension_map {A B} (l : list A) (f : A → M B) : M (list B) :=
  match l with
  | [] => ret []
  | x :: r => y <- f x ;; r' <- comprehension_map r f ;; ret (y :: r')
  end.

Definition Vertex_out_vertices (self : ref) (labels : list value) : M (list ref) :=
  es <- Vertex_out_edges self labels ;;
  comprehension_map es (λ e, E <- get_edge e ;; ret (edge_in_vertex E)).

Definition Vertex_in_vertices (self : ref) (labels : list value) : M (list ref) :=
  es <- Vertex_in_edges self labels ;;
  comprehension_map es (λ e, E <- get_edge e ;; ret (edge_out_vertex E)).

Definition Vertex_both_vertices (self : ref) (labels : list value) : M (list ref) :=
  o <- Vertex_out_vertices self labels ;;
  i <- Vertex_in_vertices self labels ;;
  ret ((o ++ i)%list).

(** *** class Edge *)

Definition Edge__graph (self : ref) : M (option ref) :=
  E <- get_edge self ;;
  w <- get_world ;;
  ret (match graphs w !! edge_graph_ref E with
       | Some _ => Some (edge_graph_ref E)
       | None => None
       end).

Definition Edge__cleanup (self : ref) : M unit :=
  E <- get_edge self ;;
  if negb (edge_disposed E) && negb (bool_decide (edge_ptr E = 0)) then
    graph <- Edge__graph self ;;
    t <- py_bool graph ;;
    (if t then try_except (NativeGraphHandle_destroy_edge (edge_ptr E)) (ret tt)
     else ret tt) ;;
    E' <- get_edge self ;;
    put_edge self (dispose_edge E')
  else ret tt.

Definition Edge__matches_properties (self : ref) (filters : gmap string value) : M bool :=
  E <- get_edge self ;;
  ret (matches_properties (edge_properties E) filters).

Definition Edge_other_vertex (self : ref) (vertex : ref) : M ref :=
  E <- get_edge self ;;
  a <- Vertex___eq__ vertex (edge_out_vertex E) ;;
  if a then ret (edge_in_vertex E) else
  b <- Vertex___eq__ vertex (edge_in_vertex E) ;;
  if b then ret (edge_out_vertex E)
  else raise TinkerGraphValidationError "Vertex is not connected to this edge".

Definition set_edge_properties (E : Edge) (d : gmap string value) : Edge :=
  mkEdge (edge_graph_ref E) (edge_ptr E) (edge_id E) (edge_label E)
         (edge_out_vertex E) (edge_in_vertex E) d (edge_disposed E).

Definition Edge_get_property (self : ref) (key : value) (dflt : value) : M value :=
  E <- get_edge self ;;
  ret (match key with
       | VStr k => default dflt (edge_properties E !! k)
       | _ => dflt
       end).

Definition Edge_set_property (self : ref) (key : value) (val : value) : M unit :=
  match key with
  | VStr k =>
      E <- get_edge self ;;
      put_edge self (set_edge_properties E (<[k := val]> (edge_properties E)))
  | x => raise_validation_error "key" "str" x
  end.

Definition Edge_remove_property (self : ref) (key : value) : M value :=
  E <- get_edge self ;;
  match key with
  | VStr k =>
      put_edge self (set_edge_properties E (delete k (edge_properties E))) ;;
      ret (default VNone (edge_properties E !! k))
  | _ => ret VNone
  end.

(** *** class TinkerGraph *)

Definition TinkerGraph_close (self : ref) : M unit :=
  G <- get_graph self ;;
  if negb (graph_closed G) then
    for_each (values (graph_vertices G)) Vertex__cleanup ;;
    for_each (values (graph_edges G)) Edge__cleanup ;;
    G' <- get_graph self ;;
    put_graph self (mkGraph (graph_native G') ∅ ∅ (graph_vertex_id_counter G') true)
  else ret tt.

(** [label] and [vertex_id] are arbitrary Python values until validated;
    [properties] are the remaining keyword arguments. *)
Definition TinkerGraph_add_vertex
    (self : ref) (label vertex_id : value) (properties : gmap string value) : M ref :=
  TinkerGraph__check_not_closed self ;;
  (match label with
   | VNone | VStr _ => ret tt
   | x => raise_validation_error "label" "str or None" x
   end) ;;
  (match vertex_id with
   | VNone | VStr _ => ret tt
   | x => raise_validation_error "vertex_id" "str or None" x
   end) ;;
  let label := match label with VStr s => s | _ => "vertex" end in
  let vertex_id := match vertex_id with VStr s => Some s | _ => None end in
  let all_properties :=
    if bool_decide (label = "vertex") then properties
    else <["label" := VStr label]> properties in
  try_except_as TinkerGraphNativeError
    (G <- get_graph self ;;
     vertex_ptr <- (if bool_decide (all_properties = ∅)
                    then NativeGraphHandle_add_vertex (graph_native G) vertex_id
                    else NativeGraphHandle_add_vertex_with_properties
                           (graph_native G) vertex_id all_properties) ;;
     vertex_id <- (match vertex_id with
                   | Some s => ret s
                   | None =>
                       try_except (NativeGraphHandle_get_vertex_id vertex_ptr 256)
                         (G <- get_graph self ;;
                          put_graph self
                            (mkGraph (graph_native G) (graph_vertices G) (graph_edges G)
                                     (S (graph_vertex_id_counter G)) (graph_closed G)) ;;
                          ret (pretty (graph_vertex_id_counter G)))
                   end) ;;
     vertex <- new_ref ;;
     put_vertex vertex (mkVertex self vertex_ptr vertex_id label properties false) ;;
     G <- get_graph self ;;
     put_graph self (set_vertices G (<[vertex_ptr := vertex]> (graph_vertices G))) ;;
     ret vertex)
    (λ e, raise TinkerGraphVertexError ("Failed to add vertex: " ++ exc_message e)).

Definition TinkerGraph_add_edge
    (self : ref) (label : value) (out_vertex in_vertex : pyobj)
    (edge_id : option string) (properties : gmap string value) : M ref :=
  TinkerGraph__check_not_closed self ;;
  label <- (match label with
            | VStr s => ret s
            | x => raise_validation_error "label" "str" x
            end) ;;
  out_vertex <- (match out_vertex with
                 | AVertex r => ret r
                 | AOther x => raise_validation_error "out_vertex" "Vertex" x
                 end) ;;
  in_vertex <- (match in_vertex with
                | AVertex r => ret r
                | AOther x => raise_validation_error "in_vertex" "Vertex" x
                end) ;;
  go <- Vertex__graph out_vertex ;;
  gi <- Vertex__graph in_vertex ;;
  if negb (bool_decide (go = Some self)) || negb (bool_decide (gi = Some self))
  then raise TinkerGraphValidationError "Vertices must belong to the same graph"
  else
  try_except_as TinkerGraphNativeError
    (G <- get_graph self ;;
     O <- get_vertex out_vertex ;;
     I <- get_vertex in_vertex ;;
     edge_ptr <- (if bool_decide (properties = ∅)
                  then NativeGraphHandle_add_edge (graph_native G) label
                         (vertex_ptr O) (vertex_ptr I)
                  else NativeGraphHandle_add_edge_with_properties (graph_native G) label
                         (vertex_ptr O) (vertex_ptr I) properties) ;;
     let edge_id := match edge_id with
                    | Some s => s
                    | None => vertex_id O ++ "-" ++ label ++ "->" ++ vertex_id I
                    end in
     edge <- new_ref ;;
     put_edge edge (mkEdge self edge_ptr edge_id label out_vertex in_vertex properties false) ;;
     G <- get_graph self ;;
     put_graph self (set_edges G (<[edge_ptr := edge]> (graph_edges G))) ;;
     ret edge)
    (λ e, raise TinkerGraphEdgeError ("Failed to add edge: " ++ exc_message e)).

Definition TinkerGraph_vertices (self : ref) (properties : gmap string value) : M (list ref) :=
  TinkerGraph__check_not_closed self ;;
  G <- get_graph self ;;
  let vertices := values (graph_vertices G) in
  if bool_decide (properties = ∅) then ret vertices
  else comprehension_if vertices (λ v, Vertex__matches_properties v properties).

Definition TinkerGraph_edges (self : ref) (properties : gmap string value) : M (list ref) :=
  TinkerGraph__check_not_closed self ;;
  G <- get_graph self ;;
  let edges := values (graph_edges G) in
  if bool_decide (properties = ∅) then ret edges
  else comprehension_if edges (λ e, Edge__matches_properties e properties).

Definition TinkerGraph_remove_edge (self : ref) (edge : ref) : M unit :=
  TinkerGraph__check_not_closed self ;;
  E <- get_edge edge ;;
  G <- get_graph self ;;
  if bool_decide (is_Some (graph_edges G !! edge_ptr E)) then
    Edge__cleanup edge ;;
    G' <- get_graph self ;;
    put_graph self (set_edges G' (delete (edge_ptr E) (graph_edges G')))
  else ret tt.

Definition TinkerGraph_remove_vertex (self : ref) (vertex : ref) : M unit :=
  TinkerGraph__check_not_closed self ;;
  V <- get_vertex vertex ;;
  G <- get_graph self ;;
  if bool_decide (is_Some (graph_vertices G !! vertex_ptr V)) then
    edges_to_remove <-
      comprehension_if (values (graph_edges G))
        (λ e, E <- get_edge e ;;
              o <- Vertex___eq__ (edge_out_vertex E) vertex ;;
              if o then ret true else Vertex___eq__ (edge_in_vertex E) vertex) ;;
    for_each edges_to_remove (TinkerGraph_remove_edge self) ;;
    Vertex__cleanup vertex ;;
    G' <- get_graph self ;;
    put_graph self (set_vertices G' (delete (vertex_ptr V) (graph_vertices G')))
  else ret tt.

Definition TinkerGraph_clear (self : ref) : M unit :=
  TinkerGraph__check_not_closed self ;;
  G <- get_graph self ;;
  for_each (values (graph_edges G)) (TinkerGraph_remove_edge self) ;;
  G' <- get_graph self ;;
  for_each (values (graph_vertices G')) (TinkerGraph_remove_vertex self).

End Model.

(** ** A native library that follows the spec's contract *)

(** Modelled from the spec: the Native Function Table is an external
    collaborator (the compiled Kotlin/Native library; none of its code is among
    the Python sources).  Following sections 3, 4.1, 4.2 and 6 of the spec:
    creation returns a fresh non-null handle; a destroyed handle is no longer
    live; the counts are the numbers of live vertices and edges of a graph (the
    authoritative counts that the registries must stay equal to); a string
    retrieval writes up to [buffer_size] bytes and returns the actual length,
    or a negative number on failure.  Property batches are accepted and not
    kept, since no entry point reads them back. *)
Record SpecNative := mkSpecNative {
  sn_next : Z;                          (* the next handle to hand out *)
  sn_graphs : gset Z;                   (* live graph handles *)
  sn_vertices : gmap Z (Z * string);    (* live vertex handle -> (graph, id) *)
  sn_edges : gmap Z (Z * string);       (* live edge handle -> (graph, label) *)
  sn_last_error : string
}.

(** The number of live elements of graph [g]. *)
Definition count_in (g : Z) (m : gmap Z (Z * string)) : Z :=
  Z.of_nat (size (filter (λ kv, kv.2.1 = g) m)).

Definition sn_fail (msg : string) (s : SpecNative) : SpecNative :=
  mkSpecNative (sn_next s) (sn_graphs s) (sn_vertices s) (sn_edges s) msg.

Definition sn_new_vertex (g : Z) (id : option string) (s : SpecNative) : (Z * string) * SpecNative :=
  if bool_decide (g ∈ sn_graphs s) then
    ((sn_next s, ""),
     mkSpecNative (sn_next s + 1) (sn_graphs s)
       (<[sn_next s := (g, default (pretty (sn_next s)) id)]> (sn_vertices s))
       (sn_edges s) (sn_last_error s))
  else ((0, ""), sn_fail "no such graph" s).

Definition sn_vertex_of (g v : Z) (s : SpecNative) : bool :=
  match sn_vertices s !! v with
  | Some x => bool_decide (x.1 = g)
  | None => false
  end.

Definition sn_new_edge (g : Z) (label : string) (o i : Z) (s : SpecNative) : (Z * string) * SpecNative :=
  if bool_decide (g ∈ sn_graphs s) && sn_vertex_of g o s && sn_vertex_of g i s then
    ((sn_next s, ""),
     mkSpecNative (sn_next s + 1) (sn_graphs s) (sn_vertices s)
       (<[sn_next s := (g, label)]> (sn_edges s)) (sn_last_error s))
  else ((0, ""), sn_fail "no such graph or vertex" s).

(** The fixed-buffer convention for returning a string. *)
Definition sn_string (buffer_size : nat) (x : option string) : Z * string :=
  match x with
  | Some s => (Z.of_nat (String.length s), take_bytes buffer_size s)
  | None => (-1, "")
  end.

Definition spec_native_call (c : NativeCall) (s : SpecNative) : (Z * string) * SpecNative :=
  match c with
  | tinkergraph_create =>
      ((sn_next s, ""),
       mkSpecNative (sn_next s + 1) ({[sn_next s]} ∪ sn_graphs s)
         (sn_vertices s) (sn_edges s) (sn_last_error s))
  | tinkergraph_destroy g =>
      ((0, ""),
       mkSpecNative (sn_next s) (sn_graphs s ∖ {[g]})
         (sn_vertices s) (sn_edges s) (sn_last_error s))
  | tinkergraph_add_vertex g id => sn_new_vertex g id s
  | tinkergraph_add_vertex_with_properties g id _ _ _ => sn_new_vertex g id s
  | tinkergraph_add_edge g label o i => sn_new_edge g label o i s
  | tinkergraph_add_edge_with_properties g label o i _ _ _ => sn_new_edge g label o i s
  | tinkergraph_vertex_count g => ((count_in g (sn_vertices s), ""), s)
  | tinkergraph_edge_count g => ((count_in g (sn_edges s), ""), s)
  | tinkergraph_vertex_id v n => (sn_string n (snd <$> sn_vertices s !! v), s)
  | tinkergraph_edge_label e n => (sn_string n (snd <$> sn_edges s !! e), s)
  | tinkergraph_destroy_vertex v =>
      ((0, ""),
       mkSpecNative (sn_next s) (sn_graphs s) (delete v (sn_vertices s))
         (sn_edges s) (sn_last_error s))
  | tinkergraph_destroy_edge e =>
      ((0, ""),
       mkSpecNative (sn_next s) (sn_graphs s) (sn_vertices s)
         (delete e (sn_edges s)) (sn_last_error s))
  | tinkergraph_get_error_message n => (sn_string n (Some (sn_last_error s)), s)
  end.

#[global] Instance spec_native : NativeFunctionTable SpecNative := spec_native_call.

(** ** Stores to run the code on *)

(** The process before any graph exists. *)
Definition initial_world : World SpecNative :=
  mkWorld ∅ ∅ ∅ 0%nat (mkSpecNative 1 ∅ ∅ ∅ "") [].

(** Running a method and keeping the store. *)
Definition exec {NS A} (m : StateExc NS A) (w : World NS) : World NS := (m w).2.
Definition result {NS A} (m : StateExc NS A) (w : World NS) : Res A := (m w).1.

(** Scenario A of the spec: two persons and one [knows] edge. *)
Definition scenario_A : World SpecNative :=
  exec (g <- TinkerGraph_init ;;
        a <- TinkerGraph_add_vertex g (VStr "person") (VStr "alice")
               {["name" := VStr "Alice"]} ;;
        b <- TinkerGraph_add_vertex g (VStr "person") (VStr "bob") ∅ ;;
        TinkerGraph_add_edge g (VStr "knows") (AVertex a) (AVertex b) None
          {["since" := VInt 2018]})
       initial_world.

(** ** Notions used in the statements *)

(** The store after native call [c]. *)
Definition called {NS} `{!NativeFunctionTable NS} (c : NativeCall) (w : World NS) :
    World NS :=
  mkWorld (graphs w) (vertex_objs w) (edge_objs w) (next_ref w)
          (native_call c (native w)).2 (trace w ++ [c]).

(** The operations that assert the open state first. *)
Inductive GraphOp :=
  | Op_add_vertex (label vertex_id : value) (properties : gmap string value)
  | Op_add_edge (label : value) (out_vertex in_vertex : pyobj)
                (edge_id : option string) (properties : gmap string value)
  | Op_vertices (properties : gmap string value)
  | Op_edges (properties : gmap string value)
  | Op_vertex_count
  | Op_edge_count
  | Op_remove_vertex (vertex : ref)
  | Op_remove_edge (edge : ref)
  | Op_clear.

(** What the caller observes of a call: the exception raised, if any, and the
    store afterwards. *)
Definition outcome {NS A} (m : StateExc NS A) (w : World NS) : option Exc * World NS :=
  match m w with
  | (Ok _, w') => (None, w')
  | (Raise e, w') => (Some e, w')
  end.

Definition run_op {NS} `{!NativeFunctionTable NS}
    (self : ref) (op : GraphOp) (w : World NS) : option Exc * World NS :=
  match op with
  | Op_add_vertex l i p => outcome (TinkerGraph_add_vertex self l i p) w
  | Op_add_edge l o i e p => outcome (TinkerGraph_add_edge self l o i e p) w
  | Op_vertices p => outcome (TinkerGraph_vertices self p) w
  | Op_edges p => outcome (TinkerGraph_edges self p) w
  | Op_vertex_count => outcome (TinkerGraph_vertex_count self) w
  | Op_edge_count => outcome (TinkerGraph_edge_count self) w
  | Op_remove_vertex v => outcome (TinkerGraph_remove_vertex self v) w
  | Op_remove_edge e => outcome (TinkerGraph_remove_edge self e) w
  | Op_clear => outcome (TinkerGraph_clear self) w
  end.

(** A leaf kind of the taxonomy: a class derived from the root
    [TinkerGraphError], which an [except] clause can tell from the others. *)
Definition leaf_kind (c : ExcClass) : Prop := base_class c = Some TinkerGraphError.

(** A graph that was opened and closed, holding one disposed vertex. *)
Definition closed_graph_world : World SpecNative :=
  exec (g <- TinkerGraph_init ;;
        TinkerGraph_add_vertex g (VStr "person") VNone {["name" := VStr "Alice"]} ;;
        TinkerGraph_close g)
       initial_world.

(** Two graphs with one vertex each: graph [0] holds vertex [1], graph [2]
    holds vertex [3]. *)
Definition two_graphs : World SpecNative :=
  exec (g1 <- TinkerGraph_init ;;
        TinkerGraph_add_vertex g1 (VStr "person") VNone {["name" := VStr "Alice"]} ;;
        g2 <- TinkerGraph_init ;;
        TinkerGraph_add_vertex g2 (VStr "person") VNone {["name" := VStr "Bob"]})
       initial_world.

(** One graph, [0], with the vertices [1] and [2] and no edge. *)
Definition two_vertices : World SpecNative :=
  exec (g <- TinkerGraph_init ;;
        TinkerGraph_add_vertex g (VStr "person") (VStr "alice") ∅ ;;
        TinkerGraph_add_vertex g (VStr "person") (VStr "bob") ∅)
       initial_world.

(** The graph and the two vertex wrappers of [two_vertices]. *)
Definition two_vertices_G : TinkerGraph :=
  Eval vm_compute in default (mkGraph 0 ∅ ∅ 0 false) (graphs two_vertices !! 0%nat).
Definition two_vertices_A : Vertex :=
  Eval vm_compute in default (mkVertex 0%nat 0 "" "" ∅ false) (vertex_objs two_vertices !! 1%nat).
Definition two_vertices_B : Vertex :=
  Eval vm_compute in default (mkVertex 0%nat 0 "" "" ∅ false) (vertex_objs two_vertices !! 2%nat).

(** Scenario A after its graph object has been reclaimed: the wrappers stay
    in the store, the graph does not. *)
Definition reclaimed_world : World SpecNative :=
  let w := exec (TinkerGraph_close 0%nat) scenario_A in
  mkWorld (delete 0%nat (graphs w)) (vertex_objs w) (edge_objs w)
          (next_ref w) (native w) (trace w).

Definition reclaimed_alice : Vertex :=
  Eval vm_compute in
    default (mkVertex 0%nat 0 "" "" ∅ false) (vertex_objs reclaimed_world !! 1%nat).

(** What a string retrieval returns from the buffer when the native call did
    not signal failure: [buffer.value.decode('utf-8') if buffer.value else dflt]. *)
Definition from_buffer (buffer_size : nat) (written dflt : string) : Res string :=
  if bool_decide (buffer_value buffer_size written = "") then Ok dflt
  else decode_utf8 (buffer_value buffer_size written).

(** The overlay [props] maps every key of the filter set [F] to a value equal
    (Python [==]) to the filter's value. *)
Definition overlay_matches (props F : gmap string value) : Prop :=
  ∀ k x, F !! k = Some x → ∃ y, props !! k = Some y ∧ py_eq y x = true.

(** Whether the wrapper behind [r] passes the filter set [F]. *)
Definition vertex_matches {NS} (w : World NS) (F : gmap string value) (r : ref) : bool :=
  match vertex_objs w !! r with
  | Some V => matches_properties (vertex_properties V) F
  | None => false
  end.

Definition scenario_A_G : TinkerGraph :=
  Eval vm_compute in default (mkGraph 0 ∅ ∅ 0 false) (graphs scenario_A !! 0%nat).

(** An [Optional[str]] argument as a Python value. *)
Definition opt_value (o : option string) : value :=
  match o with Some s => VStr s | None => VNone end.

(** The property set that [add_vertex] forwards to the native call. *)
Definition all_properties (label : string) (properties : gmap string value) :
    gmap string value :=
  if bool_decide (label = "vertex") then properties
  else <["label" := VStr label]> properties.

(** Every string that the bindings encode for a native call can be encoded:
    the id unless it is falsy, the property keys, and [str] of the values. *)
Definition id_encodable (vertex_id : option string) : bool :=
  match id_bytes vertex_id with
  | Some s => encodable s
  | None => true
  end.

Definition properties_encodable (properties : gmap string value) : bool :=
  forallb encodable ((map_to_list properties).*1)
  && forallb encodable (py_str <$> (map_to_list properties).*2).

Definition add_vertex_encodable (label : string) (vertex_id : option string)
    (properties : gmap string value) : bool :=
  id_encodable vertex_id && properties_encodable (all_properties label properties).

Definition add_edge_encodable (label : string) (properties : gmap string value) : bool :=
  encodable label && properties_encodable properties.

(** The native call that [add_vertex] makes first. *)
Definition add_vertex_call (G : TinkerGraph) (label : string) (vertex_id : option string)
    (properties : gmap string value) : NativeCall :=
  let all := all_properties label properties in
  if bool_decide (all = ∅)
  then tinkergraph_add_vertex (graph_native G) (id_bytes vertex_id)
  else tinkergraph_add_vertex_with_properties (graph_native G) (id_bytes vertex_id)
         (property_keys all) (property_values all) (property_count all).

(** The step of [add_vertex] that settles the id: the caller's, else the
    native one, else the counter's. *)
Definition settle_id {NS} `{!NativeFunctionTable NS}
    (self : ref) (vertex_ptr : Z) (vertex_id : option string) : StateExc NS string :=
  match vertex_id with
  | Some s => ret s
  | None =>
      try_except (NativeGraphHandle_get_vertex_id vertex_ptr 256)
        (G <- get_graph self ;;
         put_graph self
           (mkGraph (graph_native G) (graph_vertices G) (graph_edges G)
                    (S (graph_vertex_id_counter G)) (graph_closed G)) ;;
         ret (pretty (graph_vertex_id_counter G)))
  end.

(** The store with the native state [n] and the calls [cs] appended to the
    trace. *)
Definition after_calls (n : SpecNative) (cs : list NativeCall) (w : World SpecNative) :
    World SpecNative :=
  mkWorld (graphs w) (vertex_objs w) (edge_objs w) (next_ref w) n (trace w ++ cs).

Definition sn_without_edge (p : Z) (s : SpecNative) : SpecNative :=
  mkSpecNative (sn_next s) (sn_graphs s) (sn_vertices s) (delete p (sn_edges s))
               (sn_last_error s).

Definition sn_without_vertex (p : Z) (s : SpecNative) : SpecNative :=
  mkSpecNative (sn_next s) (sn_graphs s) (delete p (sn_vertices s)) (sn_edges s)
               (sn_last_error s).


(** The registry invariant of the data model for the graph [g] (record [G]):
    the graph is open; every registered wrapper is the live, undisposed wrapper
    of its key, belongs to [g], and its handle has not been destroyed
    natively; the endpoints of a registered edge are vertex wrappers. *)
Record registry_ok (w : World SpecNative) (g : ref) (G : TinkerGraph) : Prop := {
  ok_graph : graphs w !! g = Some G;
  ok_open : graph_closed G = false;
  ok_vertices : ∀ p r, graph_vertices G !! p = Some r →
    ∃ V id, vertex_objs w !! r = Some V ∧ vertex_ptr V = p ∧ p ≠ 0
            ∧ vertex_disposed V = false ∧ vertex_graph_ref V = g
            ∧ sn_vertices (native w) !! p = Some (graph_native G, id);
  ok_edges : ∀ p r, graph_edges G !! p = Some r →
    ∃ E l, edge_objs w !! r = Some E ∧ edge_ptr E = p ∧ p ≠ 0
           ∧ edge_disposed E = false ∧ edge_graph_ref E = g
           ∧ sn_edges (native w) !! p = Some (graph_native G, l)
           ∧ is_Some (vertex_objs w !! edge_out_vertex E)
           ∧ is_Some (vertex_objs w !! edge_in_vertex E)
}.

(** [_graph()] of a wrapper, read off the store. *)
Definition graph_of {NS} (w : World NS) (graph_ref : ref) : option ref :=
  match graphs w !! graph_ref with
  | Some _ => Some graph_ref
  | None => None
  end.

(** [a == b] for two vertex wrappers ([Vertex.__eq__]): same id and same
    graph. *)
Definition vertex_eqb {NS} (w : World NS) (a b : ref) : bool :=
  match vertex_objs w !! a, vertex_objs w !! b with
  | Some A, Some B =>
      bool_decide (vertex_id A = vertex_id B)
      && bool_decide (graph_of w (vertex_graph_ref A) = graph_of w (vertex_graph_ref B))
  | _, _ => false
  end.

(** The edge [e] is incident to the vertex [v] in the sense of the code
    ([e.out_vertex == vertex or e.in_vertex == vertex]): its out-endpoint or
    its in-endpoint compares equal to [v] by [Vertex.__eq__], same id and same
    graph.  The endpoint need not be the object [v] itself.  An edge from [v]
    to [v] is one incident edge. *)
Definition incident {NS} (w : World NS) (v : ref) (e : ref) : bool :=
  match edge_objs w !! e with
  | Some E => vertex_eqb w (edge_out_vertex E) v || vertex_eqb w (edge_in_vertex E) v
  | None => false
  end.

(** The registered edges incident to [v]. *)
Definition incident_edges {NS} (w : World NS) (G : TinkerGraph) (v : ref) : list ref :=
  List.filter (incident w v) (values (graph_edges G)).






(** Graph [0] with one vertex, [1], whose id is a two-byte character. *)
Definition accent_world : World SpecNative :=
  exec (g <- TinkerGraph_init ;; TinkerGraph_add_vertex g VNone (VStr "é") ∅)
       initial_world.

(** The graph a wrapper points to is absent (reclaimed) or open. *)
Definition cleanup_safe (w : World SpecNative) (graph_ref : ref) : Prop :=
  ∀ G, graphs w !! graph_ref = Some G → graph_closed G = false.

(** [w'] has the graphs of [w] and the wrappers of [w], each still pointing to
    its graph. *)
Definition same_shape (w w' : World SpecNative) : Prop :=
  graphs w' = graphs w
  ∧ (∀ r V, vertex_objs w !! r = Some V →
            ∃ V', vertex_objs w' !! r = Some V'
                  ∧ vertex_graph_ref V' = vertex_graph_ref V)
  ∧ (∀ r E, edge_objs w !! r = Some E →
            ∃ E', edge_objs w' !! r = Some E'
                  ∧ edge_graph_ref E' = edge_graph_ref E).

(** ** The invariant of the whole store *)

(** What every graph of the store satisfies: a registered wrapper is live,
    belongs to the graph and is keyed by its handle, which the native side
    holds for this graph; a closed graph has empty registries. *)
Definition graph_ok (w : World SpecNative) (g : ref) (G : TinkerGraph) : Prop :=
  (∀ p r, graph_vertices G !! p = Some r →
      ∃ V id, vertex_objs w !! r = Some V ∧ vertex_ptr V = p
              ∧ vertex_disposed V = false ∧ vertex_graph_ref V = g
              ∧ sn_vertices (native w) !! p = Some (graph_native G, id))
  ∧ (∀ p r, graph_edges G !! p = Some r →
      ∃ E l, edge_objs w !! r = Some E ∧ edge_ptr E = p
             ∧ edge_disposed E = false ∧ edge_graph_ref E = g
             ∧ sn_edges (native w) !! p = Some (graph_native G, l))
  ∧ (graph_closed G = true → graph_vertices G = ∅ ∧ graph_edges G = ∅).

Record world_ok (w : World SpecNative) : Prop := {
  wo_graphs : ∀ g G, graphs w !! g = Some G → graph_ok w g G;
  wo_next : 0 < sn_next (native w);
  wo_vertex : ∀ r V, vertex_objs w !! r = Some V →
      0 < vertex_ptr V < sn_next (native w);
  wo_edge : ∀ r E, edge_objs w !! r = Some E →
      0 < edge_ptr E < sn_next (native w)
      ∧ is_Some (vertex_objs w !! edge_out_vertex E)
      ∧ is_Some (vertex_objs w !! edge_in_vertex E);
  wo_vertex_inj : ∀ r1 r2 V1 V2,
      vertex_objs w !! r1 = Some V1 → vertex_objs w !! r2 = Some V2 →
      vertex_ptr V1 = vertex_ptr V2 → r1 = r2;
  wo_edge_inj : ∀ r1 r2 E1 E2,
      edge_objs w !! r1 = Some E1 → edge_objs w !! r2 = Some E2 →
      edge_ptr E1 = edge_ptr E2 → r1 = r2;
  wo_fresh_v : ∀ r, is_Some (vertex_objs w !! r) → (r < next_ref w)%nat;
  wo_fresh_e : ∀ r, is_Some (edge_objs w !! r) → (r < next_ref w)%nat;
  wo_fresh_g : ∀ r, is_Some (graphs w !! r) → (r < next_ref w)%nat
}.

(** What a step on the edges of [g] leaves alone: the vertex wrappers, and in
    the graph [g] the vertex registry and the open state. *)
Definition vertices_kept (g : ref) (w w' : World SpecNative) : Prop :=
  vertex_objs w' = vertex_objs w
  ∧ ∀ G, graphs w !! g = Some G →
         ∃ G', graphs w' !! g = Some G'
               ∧ graph_vertices G' = graph_vertices G
               ∧ graph_closed G' = graph_closed G.

(** The store with the graph [g] marked closed and its registries emptied:
    what [close] leaves of it. *)
Definition closed_graph (G : TinkerGraph) : TinkerGraph :=
  mkGraph (graph_native G) ∅ ∅ (graph_vertex_id_counter G) true.

Definition close_mark (g : ref) (G : TinkerGraph) (w : World SpecNative) :
    World SpecNative :=
  mkWorld (<[g := closed_graph G]> (graphs w)) (vertex_objs w) (edge_objs w)
          (next_ref w) (native w) (trace w).

(** ** The stores that the public operations produce *)

(** A method that only reads: whatever it returns or raises, the store
    afterwards is the store before with native calls appended to the trace. *)
Definition observes {A} (m : StateExc SpecNative A) : Prop :=
  ∀ w, ∃ cs, exec m w = after_calls (native w) cs w.

(** The stores that a program reaches from the empty process by constructing
    graphs and calling the public methods, with any arguments and whether a
    call returns or raises. *)
Inductive reachable : World SpecNative → Prop :=
  | reach_initial : reachable initial_world
  | reach_init w : reachable w → reachable (exec TinkerGraph_init w)
  | reach_add_vertex w g label vertex_id properties :
      reachable w → reachable (exec (TinkerGraph_add_vertex g label vertex_id properties) w)
  | reach_add_edge w g label o i edge_id properties :
      reachable w → reachable (exec (TinkerGraph_add_edge g label o i edge_id properties) w)
  | reach_remove_vertex w g v :
      reachable w → reachable (exec (TinkerGraph_remove_vertex g v) w)
  | reach_remove_edge w g e :
      reachable w → reachable (exec (TinkerGraph_remove_edge g e) w)
  | reach_clear w g : reachable w → reachable (exec (TinkerGraph_clear g) w)
  | reach_close w g : reachable w → reachable (exec (TinkerGraph_close g) w)
  | reach_vertex_set_property w v key val :
      reachable w → reachable (exec (Vertex_set_property v key val) w)
  | reach_vertex_remove_property w v key :
      reachable w → reachable (exec (Vertex_remove_property v key) w)
  | reach_edge_set_property w e key val :
      reachable w → reachable (exec (Edge_set_property e key val) w)
  | reach_edge_remove_property w e key :
      reachable w → reachable (exec (Edge_remove_property e key) w)
  | reach_observe {A} (m : StateExc SpecNative A) w :
      observes m → reachable w → reachable (exec m w).

(** ** graph.py: the remaining methods *)

Section MoreModel.

Context {NS : Type} `{!NativeFunctionTable NS}.

Local Abbreviation M := (StateExc NS).

(** [for x in l: if p(x): return x], then [return None] *)
Fixpoint first_match {A} (l : list A) (p : A → M bool) : M (option A) :=
  match l with
  | [] => ret None
  | x :: r => b <- p x ;; if b then ret (Some x) else first_match r p
  end.

(** [TinkerGraph.get_vertex]; the argument is any Python value, compared with
    the ids (always strings) by [==]. *)
Definition TinkerGraph_get_vertex (self : ref) (wanted_id : value) : M (option ref) :=
  TinkerGraph__check_not_closed self ;;
  G <- get_graph self ;;
  first_match (values (graph_vertices G))
    (λ v, V <- get_vertex v ;; ret (py_eq (VStr (vertex_id V)) wanted_id)).

Definition TinkerGraph___enter__ (self : ref) : M ref := ret self.

Definition TinkerGraph___exit__ (self : ref) : M unit := TinkerGraph_close self.

(** [Edge.__eq__(self, other)] for an [other] that is an [Edge]. *)
Definition Edge___eq__ (self other : ref) : M bool :=
  A <- get_edge self ;;
  B <- get_edge other ;;
  if bool_decide (edge_id A = edge_id B) then
    ga <- Edge__graph self ;;
    gb <- Edge__graph other ;;
    ret (bool_decide (ga = gb))
  else ret false.

Section Hash.

(** Python's [hash] on strings. *)
Variable str_hash : string → Z.

Definition Vertex___hash__ (self : ref) : M Z :=
  V <- get_vertex self ;; ret (str_hash (vertex_id V)).

Definition Edge___hash__ (self : ref) : M Z :=
  E <- get_edge self ;; ret (str_hash (edge_id E)).

End Hash.

End MoreModel.

(** Whether the edge wrapper behind [r] passes the filter set [F]. *)
Definition edge_matches {NS} (w : World NS) (F : gmap string value) (r : ref) : bool :=
  match edge_objs w !! r with
  | Some E => matches_properties (edge_properties E) F
  | None => false
  end.

(** [a == b] for two edge wrappers ([Edge.__eq__]): same id and same graph. *)
Definition edge_eqb {NS} (w : World NS) (a b : ref) : bool :=
  match edge_objs w !! a, edge_objs w !! b with
  | Some A, Some B =>
      bool_decide (edge_id A = edge_id B)
      && bool_decide (graph_of w (edge_graph_ref A) = graph_of w (edge_graph_ref B))
  | _, _ => false
  end.

(** The native call that [add_edge] makes. *)
Definition add_edge_call (G : TinkerGraph) (label : string) (out_ptr in_ptr : Z)
    (properties : gmap string value) : NativeCall :=
  if bool_decide (properties = ∅)
  then tinkergraph_add_edge (graph_native G) label out_ptr in_ptr
  else tinkergraph_add_edge_with_properties (graph_native G) label out_ptr in_ptr
         (property_keys properties) (property_values properties)
         (property_count properties).

(** The id of a new edge: the caller's, else
    [f"{out_vertex.id}-{label}->{in_vertex.id}"]. *)
Definition new_edge_id (edge_id : option string) (O I : Vertex) (label : string) : string :=
  match edge_id with
  | Some s => s
  | None => vertex_id O ++ "-" ++ label ++ "->" ++ vertex_id I
  end.

(** The message of the [TinkerGraphNativeError] that the broker raises when
    the native add-edge call returns null. *)
Definition add_edge_native_message (label : string) (properties : gmap string value) :
    string :=
  if bool_decide (properties = ∅)
  then "Native operation 'add_edge' failed: Failed to add edge with label '"
       ++ label ++ "'"
  else "Native operation 'add_edge_with_properties' failed: Failed to add edge with label '"
       ++ label ++ "' and properties " ++ py_repr_dict properties.





Definition scenario_A_alice : Vertex :=
  Eval vm_compute in
    default (mkVertex 0%nat 0 "" "" ∅ false) (vertex_objs scenario_A !! 1%nat).

(** ** What the operations leave alone *)

(** A method all of whose runs, returning or raising, relate the store before
    to the store after by [R]. *)
Definition keeps {NS A} (R : World NS → World NS → Prop) (m : StateExc NS A) : Prop :=
  ∀ w, R w (exec m w).

(** The Python objects are the same: only the native state and the trace may
    differ. *)
Definition objects_same {NS} (w w' : World NS) : Prop :=
  graphs w' = graphs w ∧ vertex_objs w' = vertex_objs w
  ∧ edge_objs w' = edge_objs w ∧ next_ref w' = next_ref w.

(** Every object of [w] is in [w'] with its identity: a vertex wrapper with
    its handle, id, label and graph; an edge wrapper with its handle, id,
    label, endpoints and graph; a graph with its native handle, and closed if
    it was closed. *)
Definition identities_kept {NS} (w w' : World NS) : Prop :=
  (∀ v V, vertex_objs w !! v = Some V →
          ∃ V', vertex_objs w' !! v = Some V'
                ∧ vertex_ptr V' = vertex_ptr V ∧ vertex_id V' = vertex_id V
                ∧ vertex_label V' = vertex_label V
                ∧ vertex_graph_ref V' = vertex_graph_ref V)
  ∧ (∀ e E, edge_objs w !! e = Some E →
            ∃ E', edge_objs w' !! e = Some E'
                  ∧ edge_ptr E' = edge_ptr E ∧ edge_id E' = edge_id E
                  ∧ edge_label E' = edge_label E
                  ∧ edge_out_vertex E' = edge_out_vertex E
                  ∧ edge_in_vertex E' = edge_in_vertex E
                  ∧ edge_graph_ref E' = edge_graph_ref E)
  ∧ (∀ g G, graphs w !! g = Some G →
            ∃ G', graphs w' !! g = Some G' ∧ graph_native G' = graph_native G
                  ∧ (graph_closed G = true → graph_closed G' = true)).

(** The graphs of [w] are in [w'] with their open state and their vertex
    registry, the wrappers with their handles. *)
Definition vertex_registries_kept {NS} (w w' : World NS) : Prop :=
  (∀ g G, graphs w !! g = Some G →
          ∃ G', graphs w' !! g = Some G' ∧ graph_closed G' = graph_closed G
                ∧ graph_vertices G' = graph_vertices G)
  ∧ (∀ v V, vertex_objs w !! v = Some V →
            ∃ V', vertex_objs w' !! v = Some V' ∧ vertex_ptr V' = vertex_ptr V)
  ∧ (∀ e E, edge_objs w !! e = Some E →
            ∃ E', edge_objs w' !! e = Some E' ∧ edge_ptr E' = edge_ptr E).

(** No object of the store is at or beyond the next identity. *)
Definition fresh_ok {NS} (w : World NS) : Prop :=
  (∀ r, is_Some (graphs w !! r) → (r < next_ref w)%nat)
  ∧ (∀ r, is_Some (vertex_objs w !! r) → (r < next_ref w)%nat)
  ∧ (∀ r, is_Some (edge_objs w !! r) → (r < next_ref w)%nat).

(** The public methods that only read, with their arguments. *)
Inductive Query :=
  | Q_vertex_count (g : ref)
  | Q_edge_count (g : ref)
  | Q_len (g : ref)
  | Q_str (g : ref)
  | Q_vertices (g : ref) (filters : gmap string value)
  | Q_edges (g : ref) (filters : gmap string value)
  | Q_get_vertex (g : ref) (wanted_id : value)
  | Q_vertex_get_property (v : ref) (key dflt : value)
  | Q_edge_get_property (e : ref) (key dflt : value)
  | Q_out_edges (v : ref) (labels : list value)
  | Q_in_edges (v : ref) (labels : list value)
  | Q_both_edges (v : ref) (labels : list value)
  | Q_out_vertices (v : ref) (labels : list value)
  | Q_in_vertices (v : ref) (labels : list value)
  | Q_both_vertices (v : ref) (labels : list value)
  | Q_other_vertex (e v : ref)
  | Q_vertex_eq (a b : ref)
  | Q_edge_eq (a b : ref).

(** The store after a query, whether it returned or raised. *)
Definition after_query {NS} `{!NativeFunctionTable NS} (q : Query) (w : World NS) :
    World NS :=
  match q with
  | Q_vertex_count g => exec (TinkerGraph_vertex_count g) w
  | Q_edge_count g => exec (TinkerGraph_edge_count g) w
  | Q_len g => exec (py_len g) w
  | Q_str g => exec (TinkerGraph___str__ g) w
  | Q_vertices g F => exec (TinkerGraph_vertices g F) w
  | Q_edges g F => exec (TinkerGraph_edges g F) w
  | Q_get_vertex g x => exec (TinkerGraph_get_vertex g x) w
  | Q_vertex_get_property v k d => exec (Vertex_get_property v k d) w
  | Q_edge_get_property e k d => exec (Edge_get_property e k d) w
  | Q_out_edges v l => exec (Vertex_out_edges v l) w
  | Q_in_edges v l => exec (Vertex_in_edges v l) w
  | Q_both_edges v l => exec (Vertex_both_edges v l) w
  | Q_out_vertices v l => exec (Vertex_out_vertices v l) w
  | Q_in_vertices v l => exec (Vertex_in_vertices v l) w
  | Q_both_vertices v l => exec (Vertex_both_vertices v l) w
  | Q_other_vertex e v => exec (Edge_other_vertex e v) w
  | Q_vertex_eq a b => exec (Vertex___eq__ a b) w
  | Q_edge_eq a b => exec (Edge___eq__ a b) w
  end.

(** In a store without dangling identities, the objects keep their
    identity and the store stays without dangling identities. *)
Definition grows {NS} (w w' : World NS) : Prop :=
  fresh_ok w → fresh_ok w' ∧ identities_kept w w'.

(** The public methods that write, with their arguments. *)
Inductive Mutation :=
  | M_init
  | M_add_vertex (g : ref) (label vertex_id : value) (properties : gmap string value)
  | M_add_edge (g : ref) (label : value) (out_vertex in_vertex : pyobj)
               (edge_id : option string) (properties : gmap string value)
  | M_remove_vertex (g v : ref)
  | M_remove_edge (g e : ref)
  | M_clear (g : ref)
  | M_close (g : ref)
  | M_vertex_set_property (v : ref) (key val : value)
  | M_vertex_remove_property (v : ref) (key : value)
  | M_edge_set_property (e : ref) (key val : value)
  | M_edge_remove_property (e : ref) (key : value).

(** The store after a writing method, whether it returned or raised. *)
Definition after_mutation {NS} `{!NativeFunctionTable NS} (m : Mutation) (w : World NS) :
    World NS :=
  match m with
  | M_init => exec TinkerGraph_init w
  | M_add_vertex g l i p => exec (TinkerGraph_add_vertex g l i p) w
  | M_add_edge g l o i e p => exec (TinkerGraph_add_edge g l o i e p) w
  | M_remove_vertex g v => exec (TinkerGraph_remove_vertex g v) w
  | M_remove_edge g e => exec (TinkerGraph_remove_edge g e) w
  | M_clear g => exec (TinkerGraph_clear g) w
  | M_close g => exec (TinkerGraph_close g) w
  | M_vertex_set_property v k x => exec (Vertex_set_property v k x) w
  | M_vertex_remove_property v k => exec (Vertex_remove_property v k) w
  | M_edge_set_property e k x => exec (Edge_set_property e k x) w
  | M_edge_remove_property e k => exec (Edge_remove_property e k) w
  end.

(** * Properties *)

(** ** Scenarios A and B of the spec *)

Example scenario_A_counts :
  result (TinkerGraph_vertex_count 0%nat) scenario_A = Ok 2
  ∧ result (TinkerGraph_edge_count 0%nat) scenario_A = Ok 1
  ∧ result (Vertex_out_edges 1%nat []) scenario_A = Ok [3%nat]
  ∧ result (Edge_other_vertex 3%nat 1%nat) scenario_A = Ok 2%nat.
Proof. vm_compute. auto. Qed.

Example scenario_B_counts :
  let w := exec (TinkerGraph_remove_vertex 0%nat 1%nat) scenario_A in
  result (TinkerGraph_vertex_count 0%nat) w = Ok 1
  ∧ result (TinkerGraph_edge_count 0%nat) w = Ok 0.
Proof. vm_compute. auto. Qed.

(** ** Reasoning about state-and-exception passing code *)

Section Steps.

Context {NS : Type} `{!NativeFunctionTable NS}.

Local Abbreviation M := (StateExc NS).

Lemma bind_ok {A B} (m : M A) (k : A → M B) w a w' :
  m w = (Ok a, w') → bind m k w = k a w'.
Proof. unfold bind. by intros ->. Qed.

Lemma bind_raise {A B} (m : M A) (k : A → M B) w e w' :
  m w = (Raise e, w') → bind m k w = (Raise e, w').
Proof. unfold bind. by intros ->. Qed.

Lemma bind_inv_ok {A B} (m : M A) (k : A → M B) w b w2 :
  bind m k w = (Ok b, w2) → ∃ a w1, m w = (Ok a, w1) ∧ k a w1 = (Ok b, w2).
Proof.
  unfold bind. destruct (m w) as [[a|e] w1]; [eauto | discriminate].
Qed.

Lemma get_graph_ok (w : World NS) g G :
  graphs w !! g = Some G → get_graph g w = (Ok G, w).
Proof. unfold get_graph. by intros ->. Qed.

Lemma get_vertex_ok (w : World NS) v V :
  vertex_objs w !! v = Some V → get_vertex v w = (Ok V, w).
Proof. unfold get_vertex. by intros ->. Qed.

Lemma get_edge_ok (w : World NS) e E :
  edge_objs w !! e = Some E → get_edge e w = (Ok E, w).
Proof. unfold get_edge. by intros ->. Qed.

Lemma invoke_eq c w : invoke c w = (Ok (native_call c (native w)).1, called c w).
Proof. unfold invoke, called. by destruct (native_call c (native w)). Qed.

(** A broker call that turns a null pointer into a native error. *)
Lemma null_checked_call c msg w :
  (r <- invoke c ;;
   if bool_decide (r.1 = 0) then raise TinkerGraphNativeError msg else ret r.1) w
  = (if bool_decide ((native_call c (native w)).1.1 = 0)
     then Raise (mkExc TinkerGraphNativeError msg)
     else Ok (native_call c (native w)).1.1,
     called c w).
Proof.
  rewrite (bind_ok _ _ _ _ _ (invoke_eq _ _)).
  by destruct (bool_decide _).
Qed.

(** [encode] and the comprehensions over it: they return their argument, or
    raise and leave the store alone. *)
Lemma encode_ok s (w : World NS) : encodable s = true → encode s w = (Ok s, w).
Proof. unfold encode, lift_res, encode_utf8, encodable. by intros ->. Qed.

Lemma encode_fail s (w : World NS) :
  encodable s = false → encode s w = (Raise encode_error, w).
Proof. unfold encode, lift_res, encode_utf8, encodable. by intros ->. Qed.

Lemma encode_list_ok l (w : World NS) :
  forallb encodable l = true → encode_list l w = (Ok l, w).
Proof.
  induction l as [| x l IH]; simpl; [done |].
  intros [Hx Hl]%andb_prop.
  rewrite (bind_ok _ _ _ _ _ (encode_ok _ _ Hx)).
  by rewrite (bind_ok _ _ _ _ _ (IH Hl)).
Qed.

Lemma encode_list_fail l (w : World NS) :
  forallb encodable l = false → encode_list l w = (Raise encode_error, w).
Proof.
  induction l as [| x l IH]; simpl; [done |].
  destruct (encodable x) eqn:Hx; simpl; intros Hl.
  - rewrite (bind_ok _ _ _ _ _ (encode_ok _ _ Hx)).
    by rewrite (bind_raise _ _ _ _ _ (IH Hl)).
  - by rewrite (bind_raise _ _ _ _ _ (encode_fail _ _ Hx)).
Qed.

Lemma encode_id_ok vid (w : World NS) :
  id_encodable vid = true → encode_id vid w = (Ok (id_bytes vid), w).
Proof.
  unfold id_encodable, encode_id, id_bytes.
  destruct vid as [s |]; [| done]. destruct (bool_decide (s = "")); [done |].
  intros Hs. by rewrite (bind_ok _ _ _ _ _ (encode_ok _ _ Hs)).
Qed.

Lemma encode_id_fail vid (w : World NS) :
  id_encodable vid = false → encode_id vid w = (Raise encode_error, w).
Proof.
  unfold id_encodable, encode_id, id_bytes.
  destruct vid as [s |]; [| done]. destruct (bool_decide (s = "")); [done |].
  intros Hs. by rewrite (bind_raise _ _ _ _ _ (encode_fail _ _ Hs)).
Qed.

Lemma encode_keys_ok props (w : World NS) :
  forallb encodable ((map_to_list props).*1) = true →
  encode_keys props w = (Ok (property_keys props), w).
Proof.
  unfold encode_keys, property_keys. destruct (bool_decide (props = ∅)); [done |].
  intros H. by rewrite (bind_ok _ _ _ _ _ (encode_list_ok _ _ H)).
Qed.

Lemma encode_values_ok props (w : World NS) :
  forallb encodable (py_str <$> (map_to_list props).*2) = true →
  encode_values props w = (Ok (property_values props), w).
Proof.
  unfold encode_values, property_values. destruct (bool_decide (props = ∅)); [done |].
  intros H. by rewrite (bind_ok _ _ _ _ _ (encode_list_ok _ _ H)).
Qed.

(** The two arrays of a property dict: both are built, or the first string
    that cannot be encoded raises. *)
Lemma encode_properties {A} props (k : option (list string) → option (list string) → M A)
    (w : World NS) :
  (keys <- encode_keys props ;; values <- encode_values props ;; k keys values) w
  = if properties_encodable props
    then k (property_keys props) (property_values props) w
    else (Raise encode_error, w).
Proof.
  unfold properties_encodable.
  destruct (forallb encodable (map_to_list props).*1) eqn:Hk; simpl.
  - rewrite (bind_ok _ _ _ _ _ (encode_keys_ok _ _ Hk)).
    destruct (forallb encodable (py_str <$> (map_to_list props).*2)) eqn:Hv.
    + by rewrite (bind_ok _ _ _ _ _ (encode_values_ok _ _ Hv)).
    + apply bind_raise. unfold encode_values.
      destruct (bool_decide (props = ∅)) eqn:He.
      * apply bool_decide_eq_true in He. subst props.
        by rewrite map_to_list_empty in Hv.
      * by rewrite (bind_raise _ _ _ _ _ (encode_list_fail _ _ Hv)).
  - apply bind_raise. unfold encode_keys.
    destruct (bool_decide (props = ∅)) eqn:He.
    + apply bool_decide_eq_true in He. subst props.
      by rewrite map_to_list_empty in Hk.
    + by rewrite (bind_raise _ _ _ _ _ (encode_list_fail _ _ Hk)).
Qed.

(** The four calls of the bindings that encode their arguments: once every
    string encodes they are the native call on the encoded arguments, else
    [UnicodeEncodeError] before any native call. *)
Lemma NativeGraphHandle_add_vertex_eq p vid (w : World NS) :
  NativeGraphHandle_add_vertex p vid w
  = if id_encodable vid
    then (r <- invoke (tinkergraph_add_vertex p (id_bytes vid)) ;;
          if bool_decide (r.1 = 0)
          then raise_native_error "add_vertex"
                 ("Failed to add vertex with id '" ++ fmt_opt vid ++ "'")
          else ret r.1) w
    else (Raise encode_error, w).
Proof.
  unfold NativeGraphHandle_add_vertex. destruct (id_encodable vid) eqn:Hid.
  - by rewrite (bind_ok _ _ _ _ _ (encode_id_ok _ _ Hid)).
  - by rewrite (bind_raise _ _ _ _ _ (encode_id_fail _ _ Hid)).
Qed.

Lemma NativeGraphHandle_add_vertex_with_properties_eq p vid props (w : World NS) :
  NativeGraphHandle_add_vertex_with_properties p vid props w
  = if id_encodable vid && properties_encodable props
    then (r <- invoke (tinkergraph_add_vertex_with_properties p (id_bytes vid)
                         (property_keys props) (property_values props)
                         (property_count props)) ;;
          if bool_decide (r.1 = 0)
          then raise_native_error "add_vertex_with_properties"
                 ("Failed to add vertex with id '" ++ fmt_opt vid
                  ++ "' and properties " ++ py_repr_dict props)
          else ret r.1) w
    else (Raise encode_error, w).
Proof.
  unfold NativeGraphHandle_add_vertex_with_properties.
  destruct (id_encodable vid) eqn:Hid; simpl.
  - rewrite (bind_ok _ _ _ _ _ (encode_id_ok _ _ Hid)).
    by rewrite encode_properties.
  - by rewrite (bind_raise _ _ _ _ _ (encode_id_fail _ _ Hid)).
Qed.

Lemma NativeGraphHandle_add_edge_eq p label o i (w : World NS) :
  NativeGraphHandle_add_edge p label o i w
  = if encodable label
    then (r <- invoke (tinkergraph_add_edge p label o i) ;;
          if bool_decide (r.1 = 0)
          then raise_native_error "add_edge"
                 ("Failed to add edge with label '" ++ label ++ "'")
          else ret r.1) w
    else (Raise encode_error, w).
Proof.
  unfold NativeGraphHandle_add_edge. destruct (encodable label) eqn:Hl.
  - by rewrite (bind_ok _ _ _ _ _ (encode_ok _ _ Hl)).
  - by rewrite (bind_raise _ _ _ _ _ (encode_fail _ _ Hl)).
Qed.

Lemma NativeGraphHandle_add_edge_with_properties_eq p label o i props (w : World NS) :
  NativeGraphHandle_add_edge_with_properties p label o i props w
  = if encodable label && properties_encodable props
    then (r <- invoke (tinkergraph_add_edge_with_properties p label o i
                         (property_keys props) (property_values props)
                         (property_count props)) ;;
          if bool_decide (r.1 = 0)
          then raise_native_error "add_edge_with_properties"
                 ("Failed to add edge with label '" ++ label
                  ++ "' and properties " ++ py_repr_dict props)
          else ret r.1) w
    else (Raise encode_error, w).
Proof.
  unfold NativeGraphHandle_add_edge_with_properties.
  destruct (encodable label) eqn:Hl; simpl.
  - rewrite (bind_ok _ _ _ _ _ (encode_ok _ _ Hl)).
    by rewrite encode_properties.
  - by rewrite (bind_raise _ _ _ _ _ (encode_fail _ _ Hl)).
Qed.

Lemma check_open (w : World NS) g G :
  graphs w !! g = Some G → graph_closed G = false →
  TinkerGraph__check_not_closed g w = (Ok tt, w).
Proof.
  intros HG Hc. unfold TinkerGraph__check_not_closed.
  rewrite (bind_ok _ _ _ _ _ (get_graph_ok _ _ _ HG)). by rewrite Hc.
Qed.

Lemma check_closed (w : World NS) g G :
  graphs w !! g = Some G → graph_closed G = true →
  TinkerGraph__check_not_closed g w = (Raise closed_error, w).
Proof.
  intros HG Hc. unfold TinkerGraph__check_not_closed.
  rewrite (bind_ok _ _ _ _ _ (get_graph_ok _ _ _ HG)). by rewrite Hc.
Qed.

End Steps.

(** ** The closed-state guard *)

Section Closed.

Context {NS : Type} `{!NativeFunctionTable NS}.

(** C2 (as amended): on a closed graph each of [add_vertex], [add_edge],
    [vertices], [edges], [vertex_count], [edge_count], [remove_vertex],
    [remove_edge] and [clear] raises the root [TinkerGraphError] with the
    message "Graph has been closed" and leaves the store and the native trace
    untouched; being of the root class, the error is caught by no handler
    that would not also catch every leaf kind. *)
Theorem closed_graph_raises_root_error (w : World NS) g G op :
  graphs w !! g = Some G → graph_closed G = true →
  run_op g op w = (Some closed_error, w)
  ∧ exc_class closed_error = TinkerGraphError
  ∧ ∀ K c, issubclass (exc_class closed_error) K = true →
           leaf_kind c → issubclass c K = true.
Proof.
  intros HG Hc. split.
  - pose proof (check_closed w g G HG Hc) as Hk.
    destruct op; unfold run_op, outcome;
      [ unfold TinkerGraph_add_vertex | unfold TinkerGraph_add_edge
      | unfold TinkerGraph_vertices | unfold TinkerGraph_edges
      | unfold TinkerGraph_vertex_count | unfold TinkerGraph_edge_count
      | unfold TinkerGraph_remove_vertex | unfold TinkerGraph_remove_edge
      | unfold TinkerGraph_clear ];
      by rewrite (bind_raise _ _ _ _ _ Hk).
  - split; [done |]. intros K c HK Hleaf. unfold leaf_kind in Hleaf.
    unfold issubclass in *. simpl in HK.
    rewrite orb_false_r in HK. apply bool_decide_eq_true in HK. subst K.
    rewrite Hleaf. rewrite (bool_decide_eq_true_2 (Some _ = Some _)); [|done].
    by rewrite orb_true_r.
Qed.

(** C10: on a closed graph [len(G)] and [str(G)] raise the closed-graph error
    instead of returning: [__len__] and [__str__] read [vertex_count], which
    asserts the open state first. *)
Theorem len_and_str_raise_when_closed (w : World NS) g G :
  graphs w !! g = Some G → graph_closed G = true →
  TinkerGraph___len__ g w = (Raise closed_error, w)
  ∧ py_len g w = (Raise closed_error, w)
  ∧ TinkerGraph___str__ g w = (Raise closed_error, w).
Proof.
  intros HG Hc.
  assert (Hvc : TinkerGraph_vertex_count g w = (Raise closed_error, w)).
  { unfold TinkerGraph_vertex_count.
    by rewrite (bind_raise _ _ _ _ _ (check_closed w g G HG Hc)). }
  split; [exact Hvc |]. split.
  - unfold py_len, TinkerGraph___len__. by rewrite (bind_raise _ _ _ _ _ Hvc).
  - unfold TinkerGraph___str__. by rewrite (bind_raise _ _ _ _ _ Hvc).
Qed.

End Closed.

Lemma closed_graph_raises_root_error_witness :
  run_op 0%nat (Op_add_vertex (VStr "person") VNone {["name" := VStr "Bob"]})
         closed_graph_world
  = (Some closed_error, closed_graph_world)
  ∧ exc_class closed_error = TinkerGraphError
  ∧ ∀ K c, issubclass (exc_class closed_error) K = true →
           leaf_kind c → issubclass c K = true.
Proof.
  apply (closed_graph_raises_root_error closed_graph_world 0%nat
           (mkGraph 1 ∅ ∅ 0 true)); vm_compute; reflexivity.
Defined.

(** C2 as stated fails: the error raised on a closed graph is not of a leaf
    kind of its own; its class is the root of the hierarchy. *)
Lemma closed_error_is_not_a_leaf_kind :
  ¬ ∃ e, (run_op 0%nat (Op_add_vertex VNone VNone ∅) closed_graph_world).1 = Some e
         ∧ leaf_kind (exc_class e).
Proof.
  intros [e [He Hleaf]]. vm_compute in He. injection He as <-. discriminate Hleaf.
Qed.

Lemma len_and_str_raise_when_closed_witness :
  TinkerGraph___len__ 0%nat closed_graph_world = (Raise closed_error, closed_graph_world)
  ∧ py_len 0%nat closed_graph_world = (Raise closed_error, closed_graph_world)
  ∧ TinkerGraph___str__ 0%nat closed_graph_world = (Raise closed_error, closed_graph_world).
Proof.
  apply (len_and_str_raise_when_closed closed_graph_world 0%nat
           (mkGraph 1 ∅ ∅ 0 true)); vm_compute; reflexivity.
Defined.

(** ** Idempotent close *)

Section Close.

Context {NS : Type} `{!NativeFunctionTable NS}.

(** C6: once [close()] has returned, a second [close()] returns without
    raising and changes nothing: the store after closing twice is the store
    after closing once, in which the graph is closed and both registries are
    empty.  (A graph is only ever marked closed by [close], which empties the
    registries; this is the premise on graphs that are closed already.) *)
Theorem close_twice_is_close_once (w w1 : World NS) g :
  (∀ G, graphs w !! g = Some G → graph_closed G = true →
        graph_vertices G = ∅ ∧ graph_edges G = ∅) →
  TinkerGraph_close g w = (Ok tt, w1) →
  TinkerGraph_close g w1 = (Ok tt, w1)
  ∧ ∃ G1, graphs w1 !! g = Some G1 ∧ graph_closed G1 = true
          ∧ graph_vertices G1 = ∅ ∧ graph_edges G1 = ∅.
Proof.
  intros Hinv H.
  unfold TinkerGraph_close in H.
  apply bind_inv_ok in H as (G & w0 & HG & H).
  unfold get_graph in HG.
  destruct (graphs w !! g) as [G0|] eqn:Hg; [|discriminate].
  injection HG as -> ->.
  destruct (graph_closed G) eqn:Hc; simpl in H.
  - injection H as <-. split.
    + unfold TinkerGraph_close.
      rewrite (bind_ok _ _ _ _ _ (get_graph_ok _ _ _ Hg)). by rewrite Hc.
    + exists G. destruct (Hinv G eq_refl Hc). done.
  - apply bind_inv_ok in H as (? & wa & _ & H).
    apply bind_inv_ok in H as (? & wb & _ & H).
    apply bind_inv_ok in H as (G' & wc & _ & H).
    unfold put_graph in H. injection H as <-.
    set (G1 := mkGraph (graph_native G') ∅ ∅ (graph_vertex_id_counter G') true).
    assert (Hl : graphs (mkWorld (<[g:=G1]> (graphs wc)) (vertex_objs wc) (edge_objs wc)
                           (next_ref wc) (native wc) (trace wc)) !! g = Some G1)
      by apply lookup_insert_eq.
    split.
    + unfold TinkerGraph_close.
      by rewrite (bind_ok _ _ _ _ _ (get_graph_ok _ _ _ Hl)).
    + by exists G1.
Qed.

End Close.

Lemma close_twice_is_close_once_witness :
  let w1 := exec (TinkerGraph_close 0%nat) scenario_A in
  TinkerGraph_close 0%nat w1 = (Ok tt, w1)
  ∧ ∃ G1, graphs w1 !! 0%nat = Some G1 ∧ graph_closed G1 = true
          ∧ graph_vertices G1 = ∅ ∧ graph_edges G1 = ∅.
Proof.
  apply (close_twice_is_close_once scenario_A).
  - intros G HG Hc. vm_compute in HG. injection HG as <-. discriminate Hc.
  - vm_compute. reflexivity.
Defined.

(** ** Validation in [add_edge] *)

Section AddEdge.

Context {NS : Type} `{!NativeFunctionTable NS}.

Lemma Vertex__graph_alive (w : World NS) v V G :
  vertex_objs w !! v = Some V → graphs w !! vertex_graph_ref V = Some G →
  Vertex__graph v w = (Ok (Some (vertex_graph_ref V)), w).
Proof.
  intros HV HG. unfold Vertex__graph.
  rewrite (bind_ok _ _ _ _ _ (get_vertex_ok _ _ _ HV)).
  unfold bind, get_world, ret. by rewrite HG.
Qed.

Lemma Vertex__graph_result (w : World NS) v V :
  vertex_objs w !! v = Some V →
  ∃ o, Vertex__graph v w = (Ok o, w) ∧ (o = None ∨ o = Some (vertex_graph_ref V)).
Proof.
  intros HV. unfold Vertex__graph.
  rewrite (bind_ok _ _ _ _ _ (get_vertex_ok _ _ _ HV)).
  unfold bind, get_world, ret.
  destruct (graphs w !! vertex_graph_ref V); eauto.
Qed.

(** C4: on a graph [G1] (open, as every operation of a graph requires),
    [add_edge] with an out-vertex created by [G1] and an in-vertex created by
    another graph raises [TinkerGraphValidationError] and leaves the store,
    the native state and the trace of native calls as they were: no native
    call is made. *)
Theorem cross_context_edge_rejected
    (w : World NS) g1 g2 G1 a b A B label edge_id props :
  graphs w !! g1 = Some G1 → graph_closed G1 = false →
  vertex_objs w !! a = Some A → vertex_graph_ref A = g1 →
  vertex_objs w !! b = Some B → vertex_graph_ref B = g2 →
  g1 ≠ g2 →
  ∃ e, TinkerGraph_add_edge g1 label (AVertex a) (AVertex b) edge_id props w
       = (Raise e, w)
       ∧ exc_class e = TinkerGraphValidationError.
Proof.
  intros HG Hopen HA HgA HB HgB Hne.
  unfold TinkerGraph_add_edge.
  rewrite (bind_ok _ _ _ _ _ (check_open _ _ _ HG Hopen)).
  destruct label as [| bl | z | s];
    try (eexists; split; [reflexivity | reflexivity]).
  rewrite (bind_ok _ _ _ _ _ (eq_refl : ret s w = (Ok s, w))).
  rewrite (bind_ok _ _ _ _ _ (eq_refl : ret a w = (Ok a, w))).
  rewrite (bind_ok _ _ _ _ _ (eq_refl : ret b w = (Ok b, w))).
  assert (HgA' : graphs w !! vertex_graph_ref A = Some G1) by (by rewrite HgA).
  rewrite (bind_ok _ _ _ _ _ (Vertex__graph_alive _ _ _ _ HA HgA')).
  destruct (Vertex__graph_result w b B HB) as (o & Ho & Hcase).
  rewrite (bind_ok _ _ _ _ _ Ho).
  assert (Hgi : bool_decide (o = Some g1) = false).
  { apply bool_decide_eq_false. destruct Hcase as [-> | ->]; congruence. }
  rewrite Hgi, orb_true_r. eexists. split; reflexivity.
Qed.

Lemma properties_encodable_empty : properties_encodable ∅ = true.
Proof. unfold properties_encodable. by rewrite map_to_list_empty. Qed.

(** The broker call of [add_edge]: the arguments are encoded, then the native
    call is made and its handle checked. *)
Lemma add_edge_native_step (w : World NS) G L o i props :
  let c := add_edge_call G L o i props in
  let ptr := (native_call c (native w)).1.1 in
  (if bool_decide (props = ∅)
   then NativeGraphHandle_add_edge (graph_native G) L o i
   else NativeGraphHandle_add_edge_with_properties (graph_native G) L o i props) w
  = if add_edge_encodable L props
    then (if bool_decide (ptr = 0)
          then Raise (mkExc TinkerGraphNativeError (add_edge_native_message L props))
          else Ok ptr, called c w)
    else (Raise encode_error, w).
Proof.
  intros c ptr. subst ptr c.
  unfold add_edge_call, add_edge_native_message, add_edge_encodable.
  destruct (bool_decide (props = ∅)) eqn:Hp.
  - apply bool_decide_eq_true in Hp. subst props.
    rewrite NativeGraphHandle_add_edge_eq, properties_encodable_empty, andb_true_r.
    destruct (encodable L); [| reflexivity].
    unfold raise_native_error. rewrite null_checked_call. reflexivity.
  - rewrite NativeGraphHandle_add_edge_with_properties_eq.
    destruct (encodable L && properties_encodable props); [| reflexivity].
    unfold raise_native_error. rewrite null_checked_call. reflexivity.
Qed.

(** [add_edge] with a string label and two vertices of the open graph [g],
    step by step: the arguments are encoded, the native call is made, and its
    handle decides between the new wrapper and [TinkerGraphEdgeError]. *)
Lemma add_edge_run (w : World NS) g G a b A B L edge_id props :
  graphs w !! g = Some G → graph_closed G = false →
  vertex_objs w !! a = Some A → vertex_graph_ref A = g →
  vertex_objs w !! b = Some B → vertex_graph_ref B = g →
  let c := add_edge_call G L (vertex_ptr A) (vertex_ptr B) props in
  let ptr := (native_call c (native w)).1.1 in
  TinkerGraph_add_edge g (VStr L) (AVertex a) (AVertex b) edge_id props w
  = if add_edge_encodable L props
    then
      if bool_decide (ptr = 0)
      then (Raise (mkExc TinkerGraphEdgeError
                     ("Failed to add edge: " ++ add_edge_native_message L props)),
            called c w)
      else (Ok (next_ref w),
            mkWorld (<[g := set_edges G (<[ptr := next_ref w]> (graph_edges G))]> (graphs w))
                    (vertex_objs w)
                    (<[next_ref w := mkEdge g ptr (new_edge_id edge_id A B L) L a b props
                                            false]> (edge_objs w))
                    (S (next_ref w)) (native_call c (native w)).2 (trace w ++ [c]))
    else (Raise encode_error, w).
Proof.
  intros HG Hopen HA HgA HB HgB c ptr.
  assert (HgA' : graphs w !! vertex_graph_ref A = Some G) by (by rewrite HgA).
  assert (HgB' : graphs w !! vertex_graph_ref B = Some G) by (by rewrite HgB).
  unfold TinkerGraph_add_edge.
  rewrite (bind_ok _ _ _ _ _ (check_open _ _ _ HG Hopen)).
  rewrite (bind_ok _ _ _ _ _ (eq_refl : ret L w = (Ok L, w))).
  rewrite (bind_ok _ _ _ _ _ (eq_refl : ret a w = (Ok a, w))).
  rewrite (bind_ok _ _ _ _ _ (eq_refl : ret b w = (Ok b, w))).
  rewrite (bind_ok _ _ _ _ _ (Vertex__graph_alive _ _ _ _ HA HgA')).
  rewrite (bind_ok _ _ _ _ _ (Vertex__graph_alive _ _ _ _ HB HgB')).
  rewrite HgA, HgB. rewrite !bool_decide_eq_true_2 by done.
  simpl. unfold try_except_as.
  rewrite (bind_ok _ _ _ _ _ (get_graph_ok _ _ _ HG)).
  rewrite (bind_ok _ _ _ _ _ (get_vertex_ok _ _ _ HA)).
  rewrite (bind_ok _ _ _ _ _ (get_vertex_ok _ _ _ HB)).
  unfold bind at 1. rewrite add_edge_native_step. fold c. fold ptr.
  destruct (add_edge_encodable L props); [| reflexivity].
  destruct (bool_decide (ptr = 0)); simpl; [reflexivity |].
  unfold bind, new_ref, put_edge, get_graph, put_graph, ret; simpl.
  rewrite HG. reflexivity.
Qed.


End AddEdge.

Lemma cross_context_edge_rejected_witness :
  ∃ e, TinkerGraph_add_edge 0%nat (VStr "knows") (AVertex 1%nat) (AVertex 3%nat)
         None ∅ two_graphs
       = (Raise e, two_graphs)
       ∧ exc_class e = TinkerGraphValidationError.
Proof.
  eapply (cross_context_edge_rejected two_graphs 0%nat 2%nat _ 1%nat 3%nat);
    [vm_compute; reflexivity | reflexivity | vm_compute; reflexivity | reflexivity
    | vm_compute; reflexivity | reflexivity | lia].
Defined.



(** A label that holds a lone surrogate is a string and passes the
    validation; encoding it raises [UnicodeEncodeError], which [add_edge] does
    not catch, before any native call. *)
Example unencodable_edge_label_raises :
  let m := TinkerGraph_add_edge 0%nat (VStr lone_surrogate) (AVertex 1%nat) (AVertex 2%nat)
             None ∅ in
  byte_codes lone_surrogate = [237; 160; 128]%N
  ∧ add_edge_encodable lone_surrogate ∅ = false
  ∧ m two_vertices = (Raise encode_error, two_vertices).
Proof. vm_compute. auto. Qed.

(** An endpoint that is not a [Vertex] is rejected by the validation, whatever
    the label. *)
Example non_vertex_endpoint_is_rejected :
  let m := TinkerGraph_add_edge 0%nat (VStr "knows") (AVertex 1%nat)
             (AOther (VStr "not_a_vertex")) None ∅ in
  exc_class <$> (match result m two_vertices with Raise e => Some e | Ok _ => None end)
  = Some TinkerGraphValidationError
  ∧ exec m two_vertices = two_vertices.
Proof. vm_compute. auto. Qed.

(** ** A wrapper that outlives its graph *)

Section Reclaimed.

Context {NS : Type} `{!NativeFunctionTable NS}.

Lemma Vertex__graph_reclaimed (w : World NS) v V :
  vertex_objs w !! v = Some V → graphs w !! vertex_graph_ref V = None →
  Vertex__graph v w = (Ok None, w).
Proof.
  intros HV HG. unfold Vertex__graph.
  rewrite (bind_ok _ _ _ _ _ (get_vertex_ok _ _ _ HV)).
  unfold bind, get_world, ret. by rewrite HG.
Qed.

(** C7: for a vertex wrapper whose graph has been reclaimed (its weak
    reference resolves to [None]), the six adjacency queries return the empty
    list without raising and without touching the store, and the property
    accessors keep working on the overlay: [get_property] reads it,
    [set_property] writes it so that a following read returns the value, and
    [remove_property] returns the previous value (or [None]) and removes the
    key. *)
Theorem reclaimed_graph_degrades_gracefully (w : World NS) v V labels k dflt val :
  vertex_objs w !! v = Some V → graphs w !! vertex_graph_ref V = None →
  (Vertex_out_edges v labels w = (Ok [], w)
   ∧ Vertex_in_edges v labels w = (Ok [], w)
   ∧ Vertex_both_edges v labels w = (Ok [], w)
   ∧ Vertex_out_vertices v labels w = (Ok [], w)
   ∧ Vertex_in_vertices v labels w = (Ok [], w)
   ∧ Vertex_both_vertices v labels w = (Ok [], w))
  ∧ Vertex_get_property v (VStr k) dflt w
    = (Ok (default dflt (vertex_properties V !! k)), w)
  ∧ (∃ w', Vertex_set_property v (VStr k) val w = (Ok tt, w')
           ∧ Vertex_get_property v (VStr k) dflt w' = (Ok val, w'))
  ∧ (∃ w', Vertex_remove_property v (VStr k) w
           = (Ok (default VNone (vertex_properties V !! k)), w')
           ∧ Vertex_get_property v (VStr k) dflt w' = (Ok dflt, w')).
Proof.
  intros HV HG.
  pose proof (Vertex__graph_reclaimed w v V HV HG) as Hg.
  assert (Ho : Vertex_out_edges v labels w = (Ok [], w)).
  { unfold Vertex_out_edges. by rewrite (bind_ok _ _ _ _ _ Hg). }
  assert (Hi : Vertex_in_edges v labels w = (Ok [], w)).
  { unfold Vertex_in_edges. by rewrite (bind_ok _ _ _ _ _ Hg). }
  assert (Hov : Vertex_out_vertices v labels w = (Ok [], w)).
  { unfold Vertex_out_vertices. by rewrite (bind_ok _ _ _ _ _ Ho). }
  assert (Hiv : Vertex_in_vertices v labels w = (Ok [], w)).
  { unfold Vertex_in_vertices. by rewrite (bind_ok _ _ _ _ _ Hi). }
  split; [repeat split; try done |].
  - unfold Vertex_both_edges.
    rewrite (bind_ok _ _ _ _ _ Ho). by rewrite (bind_ok _ _ _ _ _ Hi).
  - unfold Vertex_both_vertices.
    rewrite (bind_ok _ _ _ _ _ Hov). by rewrite (bind_ok _ _ _ _ _ Hiv).
  - split; [| split].
    + unfold Vertex_get_property.
      by rewrite (bind_ok _ _ _ _ _ (get_vertex_ok _ _ _ HV)).
    + eexists. split.
      * unfold Vertex_set_property.
        rewrite (bind_ok _ _ _ _ _ (get_vertex_ok _ _ _ HV)). reflexivity.
      * unfold Vertex_get_property, bind, get_vertex, ret. simpl.
        rewrite lookup_insert_eq. simpl. by rewrite lookup_insert_eq.
    + eexists. split.
      * unfold Vertex_remove_property.
        rewrite (bind_ok _ _ _ _ _ (get_vertex_ok _ _ _ HV)). reflexivity.
      * unfold Vertex_get_property, bind, get_vertex, ret. simpl.
        rewrite lookup_insert_eq. simpl. by rewrite lookup_delete_eq.
Qed.

(** [set_property] rejects a key that is not a string, whatever the state of
    the graph. *)
Lemma set_property_rejects_non_string (w : World NS) v key val :
  (∀ k, key ≠ VStr k) →
  ∃ e, Vertex_set_property v key val w = (Raise e, w)
       ∧ exc_class e = TinkerGraphValidationError.
Proof.
  intros Hk. destruct key; try (eexists; split; reflexivity).
  by destruct (Hk s).
Qed.

End Reclaimed.

Lemma reclaimed_graph_degrades_gracefully_witness :
  Vertex_out_edges 1%nat [] reclaimed_world = (Ok [], reclaimed_world)
  ∧ Vertex_both_vertices 1%nat [VStr "knows"] reclaimed_world = (Ok [], reclaimed_world)
  ∧ Vertex_get_property 1%nat (VStr "name") VNone reclaimed_world
    = (Ok (VStr "Alice"), reclaimed_world).
Proof.
  assert (HV : vertex_objs reclaimed_world !! 1%nat = Some reclaimed_alice)
    by (vm_compute; reflexivity).
  assert (HG : graphs reclaimed_world !! vertex_graph_ref reclaimed_alice = None)
    by (vm_compute; reflexivity).
  split; [| split].
  - exact (proj1 (proj1 (reclaimed_graph_degrades_gracefully reclaimed_world 1%nat
                           reclaimed_alice [] "name" VNone VNone HV HG))).
  - exact (proj2 (proj2 (proj2 (proj2 (proj2 (proj1
             (reclaimed_graph_degrades_gracefully reclaimed_world 1%nat
                reclaimed_alice [VStr "knows"] "name" VNone VNone HV HG))))))).
  - exact (proj1 (proj2 (reclaimed_graph_degrades_gracefully reclaimed_world 1%nat
                           reclaimed_alice [] "name" VNone VNone HV HG))).
Defined.

(** ** Fixed-size buffers in the broker *)

Lemma take_bytes_length n s : (String.length (take_bytes n s) ≤ n)%nat.
Proof.
  revert s. induction n as [|n IH]; intros [|c s]; simpl; try lia.
  specialize (IH s). lia.
Qed.

Lemma until_nul_length s : (String.length (until_nul s) ≤ String.length s)%nat.
Proof.
  induction s as [|c s IH]; simpl; [lia |].
  destruct (bool_decide (c = Ascii.zero)); simpl; lia.
Qed.

Lemma buffer_value_length n s : (String.length (buffer_value n s) ≤ n)%nat.
Proof.
  unfold buffer_value.
  pose proof (until_nul_length (take_bytes n s)).
  pose proof (take_bytes_length n s). lia.
Qed.

Section Buffers.

Context {NS : Type} `{!NativeFunctionTable NS}.

Lemma decode_buffer_eq n written dflt (w : World NS) :
  decode_buffer n written dflt w = (from_buffer n written dflt, w).
Proof.
  unfold decode_buffer, from_buffer. by destruct (bool_decide _).
Qed.

(** C3 (as amended): when the native call of a string retrieval (vertex id,
    edge label, last error) returns a length that meets or exceeds the buffer
    size, the broker makes no second native call and raises no error for the
    length: the outcome is read off the buffer alone.  It is the operation's
    default text when the buffer is empty; otherwise it is what the buffer
    holds up to the first NUL, at most [buffer_size] bytes and so possibly a
    truncated string, decoded as UTF-8; and when those bytes are not
    well-formed UTF-8 (a character cut in two) the decoding raises
    [UnicodeDecodeError], the only exception on this path. *)
Theorem string_retrieval_ignores_returned_length (w : World NS) ptr buffer_size :
  let cv := tinkergraph_vertex_id ptr buffer_size in
  let ce := tinkergraph_edge_label ptr buffer_size in
  let cm := tinkergraph_get_error_message buffer_size in
  let ret_of c := (native_call c (native w)).1 in
  ((Z.of_nat buffer_size ≤ (ret_of cv).1)%Z →
   NativeGraphHandle_get_vertex_id ptr buffer_size w
   = (from_buffer buffer_size (ret_of cv).2 "", called cv w)
   ∧ trace (called cv w) = (trace w ++ [cv])%list)
  ∧ ((Z.of_nat buffer_size ≤ (ret_of ce).1)%Z →
     NativeGraphHandle_get_edge_label ptr buffer_size w
     = (from_buffer buffer_size (ret_of ce).2 "", called ce w)
     ∧ trace (called ce w) = (trace w ++ [ce])%list)
  ∧ ((Z.of_nat buffer_size ≤ (ret_of cm).1)%Z →
     NativeGraphHandle_get_last_error buffer_size w
     = (from_buffer buffer_size (ret_of cm).2 "No error message available",
        called cm w)
     ∧ trace (called cm w) = (trace w ++ [cm])%list)
  ∧ (∀ written dflt s,
       from_buffer buffer_size written dflt = Ok s →
       (buffer_value buffer_size written = "" ∧ s = dflt)
       ∨ (s = buffer_value buffer_size written
          ∧ (String.length s ≤ buffer_size)%nat
          ∧ utf8_valid (byte_codes s) = true))
  ∧ (∀ written dflt e,
       from_buffer buffer_size written dflt = Raise e →
       exc_class e = UnicodeDecodeError
       ∧ utf8_valid (byte_codes (buffer_value buffer_size written)) = false).
Proof.
  intros cv ce cm ret_of. subst cv ce cm ret_of. simpl.
  split; [| split; [| split; [| split]]].
  - intros Hlen. split; [| done].
    unfold NativeGraphHandle_get_vertex_id.
    rewrite (bind_ok _ _ _ _ _ (invoke_eq _ _)).
    rewrite bool_decide_eq_false_2 by lia. apply decode_buffer_eq.
  - intros Hlen. split; [| done].
    unfold NativeGraphHandle_get_edge_label.
    rewrite (bind_ok _ _ _ _ _ (invoke_eq _ _)).
    rewrite bool_decide_eq_false_2 by lia. apply decode_buffer_eq.
  - intros Hlen. split; [| done].
    unfold NativeGraphHandle_get_last_error.
    rewrite (bind_ok _ _ _ _ _ (invoke_eq _ _)).
    rewrite bool_decide_eq_false_2 by lia. apply decode_buffer_eq.
  - intros written dflt s. unfold from_buffer, decode_utf8.
    destruct (bool_decide _) eqn:He.
    { apply bool_decide_eq_true in He. intros [= <-]. by left. }
    destruct (utf8_valid _) eqn:Hv; [| discriminate].
    intros [= <-]. right. split; [done |]. split; [apply buffer_value_length | done].
  - intros written dflt e. unfold from_buffer, decode_utf8.
    destruct (bool_decide _); [discriminate |].
    destruct (utf8_valid _) eqn:Hv; [discriminate |].
    intros [= <-]. done.
Qed.

(** A negative returned length is the only failure the retrievals look at. *)
Lemma get_vertex_id_negative (w : World NS) ptr buffer_size :
  ((native_call (tinkergraph_vertex_id ptr buffer_size) (native w)).1.1 < 0)%Z →
  ∃ e, NativeGraphHandle_get_vertex_id ptr buffer_size w
       = (Raise e, called (tinkergraph_vertex_id ptr buffer_size) w)
       ∧ exc_class e = TinkerGraphNativeError.
Proof.
  intros Hneg. unfold NativeGraphHandle_get_vertex_id.
  rewrite (bind_ok _ _ _ _ _ (invoke_eq _ _)).
  rewrite bool_decide_eq_true_2 by done. eexists. split; reflexivity.
Qed.

End Buffers.

Lemma string_retrieval_ignores_returned_length_witness :
  let cv := tinkergraph_vertex_id 2 3 in
  NativeGraphHandle_get_vertex_id 2 3 scenario_A
  = (from_buffer 3 (native_call cv (native scenario_A)).1.2 "", called cv scenario_A)
  ∧ trace (called cv scenario_A) = (trace scenario_A ++ [cv])%list.
Proof.
  apply (proj1 (string_retrieval_ignores_returned_length scenario_A 2 3)).
  vm_compute. discriminate.
Defined.

(** C3 as stated fails: vertex ["alice"] queried through a 3-byte buffer.
    The native call reports the length 5, which exceeds the buffer size; the
    broker makes no second call and raises nothing; it returns ["ali"]. *)
Lemma truncated_id_is_returned_silently :
  let cv := tinkergraph_vertex_id 2 3 in
  (native_call cv (native scenario_A)).1.1 = 5
  ∧ (NativeGraphHandle_get_vertex_id 2 3 scenario_A).1 = Ok "ali"
  ∧ trace (exec (NativeGraphHandle_get_vertex_id 2 3) scenario_A)
    = (trace scenario_A ++ [cv])%list
  ∧ (NativeGraphHandle_get_vertex_id 2 256 scenario_A).1 = Ok "alice".
Proof. vm_compute. auto. Qed.

(** A truncation can cut a character in two: the id ["é"] (two bytes) read
    through a one-byte buffer.  The native call reports the length 2; the
    broker makes no second call and the decoding of the single byte raises
    [UnicodeDecodeError]. *)
Example truncation_inside_a_character_raises :
  let cv := tinkergraph_vertex_id 2 1 in
  (native_call cv (native accent_world)).1.1 = 2
  ∧ exc_class <$> (match (NativeGraphHandle_get_vertex_id 2 1 accent_world).1 with
                   | Ok _ => None
                   | Raise e => Some e
                   end) = Some UnicodeDecodeError
  ∧ trace (exec (NativeGraphHandle_get_vertex_id 2 1) accent_world)
    = (trace accent_world ++ [cv])%list
  ∧ (NativeGraphHandle_get_vertex_id 2 256 accent_world).1 = Ok "é".
Proof. vm_compute. auto. Qed.

(** ** Filters *)

(** Equality with a string is equality of strings: a substring or a value of
    another type is not a match. *)
Lemma py_eq_str_exact y s : py_eq y (VStr s) = true ↔ y = VStr s.
Proof.
  destruct y; simpl; split; try discriminate.
  - intros H. apply bool_decide_eq_true in H. by subst.
  - intros [= ->]. by apply bool_decide_eq_true.
Qed.

Lemma matches_properties_spec props F :
  matches_properties props F = true ↔ overlay_matches props F.
Proof.
  unfold matches_properties, overlay_matches. rewrite forallb_forall. split.
  - intros H k x Hk.
    specialize (H (k, x)). simpl in H.
    destruct (props !! k) as [y|].
    + exists y. split; [done |]. apply H.
      apply list_elem_of_In. by apply elem_of_map_to_list.
    + discriminate H. apply list_elem_of_In. by apply elem_of_map_to_list.
  - intros H [k x] Hin. simpl.
    apply list_elem_of_In, elem_of_map_to_list in Hin.
    destruct (H k x Hin) as (y & -> & Hy). done.
Qed.

Lemma elem_of_values (d : gmap Z ref) r :
  r ∈ values d ↔ ∃ p, d !! p = Some r.
Proof.
  unfold values. rewrite list_elem_of_fmap. split.
  - intros ([p r'] & -> & Hin). exists p. by apply elem_of_map_to_list.
  - intros [p Hp]. exists (p, r). split; [done |]. by apply elem_of_map_to_list.
Qed.

Section Filters.

Context {NS : Type} `{!NativeFunctionTable NS}.

Lemma comprehension_if_pure {A} (l : list A) (p : A → StateExc NS bool) q w :
  (∀ x, x ∈ l → p x w = (Ok (q x), w)) →
  comprehension_if l p w = (Ok (List.filter q l), w).
Proof.
  induction l as [|x l IH]; intros Hp; [done |]. simpl.
  rewrite (bind_ok _ _ _ _ _ (Hp x (list_elem_of_here _ _))).
  rewrite (bind_ok _ _ _ _ _ (IH (λ y Hy, Hp y (list_elem_of_further _ _ _ Hy)))).
  unfold ret. by destruct (q x).
Qed.

Lemma filter_all_true {A} (q : A → bool) l :
  (∀ x, x ∈ l → q x = true) → List.filter q l = l.
Proof.
  induction l as [|x l IH]; intros H; [done |]. simpl.
  rewrite (H x (list_elem_of_here _ _)). f_equal.
  apply IH. intros y Hy. apply H. by apply list_elem_of_further.
Qed.

Lemma TinkerGraph_vertices_spec (w : World NS) g G F :
  graphs w !! g = Some G → graph_closed G = false →
  (∀ p r, graph_vertices G !! p = Some r → is_Some (vertex_objs w !! r)) →
  ∃ l, TinkerGraph_vertices g F w = (Ok l, w)
       ∧ l = List.filter (vertex_matches w F) (values (graph_vertices G))
       ∧ (∀ r, r ∈ l ↔
               (∃ p, graph_vertices G !! p = Some r)
               ∧ ∃ V, vertex_objs w !! r = Some V
                      ∧ overlay_matches (vertex_properties V) F)
       ∧ (F = ∅ → l = values (graph_vertices G))
       ∧ (∀ r V k s, r ∈ l → vertex_objs w !! r = Some V →
                     F !! k = Some (VStr s) →
                     vertex_properties V !! k = Some (VStr s)).
Proof.
  intros HG Hopen Hres.
  set (l := List.filter (vertex_matches w F) (values (graph_vertices G))).
  assert (Hmem : ∀ r, r ∈ l ↔
            (∃ p, graph_vertices G !! p = Some r)
            ∧ ∃ V, vertex_objs w !! r = Some V
                   ∧ overlay_matches (vertex_properties V) F).
  { intros r. subst l. rewrite list_elem_of_In, filter_In, <- list_elem_of_In.
    rewrite elem_of_values. unfold vertex_matches. split.
    - intros [Hp Hm]. split; [done |].
      destruct (vertex_objs w !! r) as [V|]; [| discriminate].
      exists V. split; [done |]. by apply matches_properties_spec.
    - intros [Hp (V & HV & Hm)]. split; [done |]. rewrite HV.
      by apply matches_properties_spec. }
  assert (Hall : F = ∅ → l = values (graph_vertices G)).
  { intros ->. subst l. apply filter_all_true. intros r Hr.
    apply elem_of_values in Hr as [p Hp].
    destruct (Hres p r Hp) as [V HV]. unfold vertex_matches. by rewrite HV. }
  exists l. split; [| split; [done | split; [done | split; [done |]]]].
  - unfold TinkerGraph_vertices.
    rewrite (bind_ok _ _ _ _ _ (check_open _ _ _ HG Hopen)).
    rewrite (bind_ok _ _ _ _ _ (get_graph_ok _ _ _ HG)).
    destruct (bool_decide (F = ∅)) eqn:HF.
    + apply bool_decide_eq_true in HF. by rewrite (Hall HF).
    + apply comprehension_if_pure. intros r Hr.
      apply elem_of_values in Hr as [p Hp].
      destruct (Hres p r Hp) as [V HV].
      unfold Vertex__matches_properties, vertex_matches.
      rewrite (bind_ok _ _ _ _ _ (get_vertex_ok _ _ _ HV)). by rewrite HV.
  - intros r V k s Hr HV Hk.
    apply Hmem in Hr as [_ (V' & HV' & Hm)].
    rewrite HV in HV'. injection HV' as <-.
    destruct (Hm k _ Hk) as (y & Hy & Heq).
    apply py_eq_str_exact in Heq. by subst y.
Qed.

(** C8: on an open graph, [vertices] with the filter set [F] returns the
    registered vertices whose overlay maps every key of [F] to a value equal
    to the one [F] gives, each registry entry once and nothing else; with the
    empty filter set it returns all registered vertices; where [F] asks for a
    string, the overlay holds exactly that string. *)
Theorem vertices_filter_exact (w : World NS) g G F :
  graphs w !! g = Some G → graph_closed G = false →
  (∀ p r, graph_vertices G !! p = Some r → is_Some (vertex_objs w !! r)) →
  ∃ l, TinkerGraph_vertices g F w = (Ok l, w)
       ∧ l = List.filter (vertex_matches w F) (values (graph_vertices G))
       ∧ (∀ r, r ∈ l ↔
               (∃ p, graph_vertices G !! p = Some r)
               ∧ ∃ V, vertex_objs w !! r = Some V
                      ∧ overlay_matches (vertex_properties V) F)
       ∧ (F = ∅ → l = values (graph_vertices G))
       ∧ (∀ r V k s, r ∈ l → vertex_objs w !! r = Some V →
                     F !! k = Some (VStr s) →
                     vertex_properties V !! k = Some (VStr s)).
Proof. apply TinkerGraph_vertices_spec. Qed.

End Filters.

Lemma scenario_A_graph : graphs scenario_A !! 0%nat = Some scenario_A_G.
Proof. vm_compute. reflexivity. Qed.

Lemma scenario_A_resolves p r :
  graph_vertices scenario_A_G !! p = Some r → is_Some (vertex_objs scenario_A !! r).
Proof.
  intros Hp.
  assert (Hin : r ∈ values (graph_vertices scenario_A_G))
    by (apply elem_of_values; eauto).
  vm_compute in Hin. apply list_elem_of_In in Hin. simpl in Hin.
  destruct Hin as [<- | [<- | []]]; vm_compute; eauto.
Qed.

Lemma vertices_filter_exact_witness :
  ∃ l, TinkerGraph_vertices 0%nat {["name" := VStr "Alice"]} scenario_A
       = (Ok l, scenario_A)
       ∧ l = [1%nat].
Proof.
  destruct (vertices_filter_exact scenario_A 0%nat scenario_A_G
              {["name" := VStr "Alice"]} scenario_A_graph eq_refl scenario_A_resolves)
    as (l & Hrun & Hl & _).
  exists l. split; [exact Hrun |]. rewrite Hl. vm_compute. reflexivity.
Defined.

(** ** The label of a vertex and its overlay *)

Section AddVertex.

Context {NS : Type} `{!NativeFunctionTable NS}.

Lemma settle_id_spec (w : World NS) g G ptr vid :
  graphs w !! g = Some G →
  ∃ s w2 G2 rest,
    settle_id g ptr vid w = (Ok s, w2)
    ∧ graphs w2 = <[g := G2]> (graphs w)
    ∧ graph_vertices G2 = graph_vertices G ∧ graph_edges G2 = graph_edges G
    ∧ graph_closed G2 = graph_closed G ∧ graph_native G2 = graph_native G
    ∧ vertex_objs w2 = vertex_objs w ∧ edge_objs w2 = edge_objs w
    ∧ next_ref w2 = next_ref w
    ∧ trace w2 = (trace w ++ rest)%list
    ∧ (native w2 = native w
       ∨ native w2 = (native_call (tinkergraph_vertex_id ptr 256) (native w)).2).
Proof.
  intros HG. destruct vid as [s|]; simpl.
  - exists s, w, G, []. rewrite insert_id by done. rewrite app_nil_r.
    repeat (split; [done |]). by left.
  - unfold try_except, NativeGraphHandle_get_vertex_id.
    rewrite (bind_ok _ _ _ _ _ (invoke_eq _ _)).
    set (c := tinkergraph_vertex_id ptr 256).
    assert (Hfallback :
      ∃ s w2 G2,
        (G <- get_graph g ;;
         put_graph g
           (mkGraph (graph_native G) (graph_vertices G) (graph_edges G)
                    (S (graph_vertex_id_counter G)) (graph_closed G)) ;;
         ret (pretty (graph_vertex_id_counter G))) (called c w) = (Ok s, w2)
        ∧ graphs w2 = <[g := G2]> (graphs w)
        ∧ graph_vertices G2 = graph_vertices G ∧ graph_edges G2 = graph_edges G
        ∧ graph_closed G2 = graph_closed G ∧ graph_native G2 = graph_native G
        ∧ vertex_objs w2 = vertex_objs w ∧ edge_objs w2 = edge_objs w
        ∧ next_ref w2 = next_ref w
        ∧ trace w2 = (trace w ++ [c])%list
        ∧ (native w2 = native w ∨ native w2 = (native_call c (native w)).2)).
    { assert (HG' : graphs (called c w) !! g = Some G) by done.
      rewrite (bind_ok _ _ _ _ _ (get_graph_ok _ _ _ HG')).
      eexists _, _, _. split; [reflexivity |]. simpl.
      repeat (split; [done |]). by right. }
    destruct Hfallback as (s & w2 & G2 & Hf & Hrest).
    destruct (bool_decide _).
    + simpl. rewrite Hf. exists s, w2, G2, [c]. done.
    + rewrite decode_buffer_eq.
      destruct (from_buffer _ _ _) as [s'|e].
      * exists s', (called c w), G, [c]. simpl. rewrite insert_id by done.
        repeat (split; [done |]). by right.
      * rewrite Hf. exists s, w2, G2, [c]. done.
Qed.

(** The broker call of [add_vertex]: the arguments are encoded, then the
    native call is made and its handle checked. *)
Lemma add_vertex_native_step (w : World NS) G L vid props :
  let c := add_vertex_call G L vid props in
  let ptr := (native_call c (native w)).1.1 in
  (if bool_decide (all_properties L props = ∅)
   then NativeGraphHandle_add_vertex (graph_native G) vid
   else NativeGraphHandle_add_vertex_with_properties (graph_native G) vid
          (all_properties L props)) w
  = if add_vertex_encodable L vid props
    then (if bool_decide (ptr = 0)
          then Raise (mkExc TinkerGraphNativeError
                        (if bool_decide (all_properties L props = ∅)
                         then "Native operation 'add_vertex' failed: "
                              ++ "Failed to add vertex with id '" ++ fmt_opt vid ++ "'"
                         else "Native operation 'add_vertex_with_properties' failed: "
                              ++ "Failed to add vertex with id '" ++ fmt_opt vid
                              ++ "' and properties "
                              ++ py_repr_dict (all_properties L props)))
          else Ok ptr, called c w)
    else (Raise encode_error, w).
Proof.
  intros c ptr. subst ptr c. unfold add_vertex_call, add_vertex_encodable.
  destruct (bool_decide (all_properties L props = ∅)) eqn:Hp.
  - apply bool_decide_eq_true in Hp. rewrite Hp.
    rewrite NativeGraphHandle_add_vertex_eq, properties_encodable_empty, andb_true_r.
    destruct (id_encodable vid); [| reflexivity].
    unfold raise_native_error. rewrite null_checked_call. reflexivity.
  - rewrite NativeGraphHandle_add_vertex_with_properties_eq.
    destruct (id_encodable vid && properties_encodable (all_properties L props));
      [| reflexivity].
    unfold raise_native_error. rewrite null_checked_call. reflexivity.
Qed.

(** [add_vertex] on an open graph with an argument that cannot be encoded:
    [UnicodeEncodeError] escapes, since [add_vertex] catches
    [TinkerGraphNativeError] only, and the store is as before. *)
Lemma add_vertex_unencodable (w : World NS) g G L vid props :
  graphs w !! g = Some G → graph_closed G = false →
  add_vertex_encodable L vid props = false →
  TinkerGraph_add_vertex g (VStr L) (opt_value vid) props w = (Raise encode_error, w).
Proof.
  intros HG Hopen Henc.
  unfold TinkerGraph_add_vertex.
  rewrite (bind_ok _ _ _ _ _ (check_open _ _ _ HG Hopen)).
  rewrite (bind_ok _ _ _ _ _ (eq_refl : ret tt w = (Ok tt, w))).
  rewrite (bind_ok
             (match opt_value vid with
              | VBool _ | VInt _ =>
                  raise_validation_error "vertex_id" "str or None" (opt_value vid)
              | _ => ret tt
              end) _ w tt w) by (by destruct vid).
  replace (match opt_value vid with VStr s => Some s | _ => None end)
    with vid by (by destruct vid).
  fold (all_properties L props).
  unfold try_except_as.
  rewrite (bind_ok _ _ _ _ _ (get_graph_ok _ _ _ HG)).
  unfold bind at 1. rewrite add_vertex_native_step, Henc. reflexivity.
Qed.

Lemma add_vertex_spec (w : World NS) g G L vid props :
  graphs w !! g = Some G → graph_closed G = false →
  add_vertex_encodable L vid props = true →
  let m := TinkerGraph_add_vertex g (VStr L) (opt_value vid) props in
  let c := add_vertex_call G L vid props in
  let r := next_ref w in
  let ptr := (native_call c (native w)).1.1 in
  (∃ e, m w = (Raise e, called c w) ∧ exc_class e = TinkerGraphVertexError ∧ ptr = 0)
  ∨ (∃ w' G' id rest,
       m w = (Ok r, w')
       ∧ graphs w' = <[g := G']> (graphs w)
       ∧ graph_vertices G' = <[ptr := r]> (graph_vertices G)
       ∧ graph_edges G' = graph_edges G
       ∧ graph_closed G' = false
       ∧ graph_native G' = graph_native G
       ∧ vertex_objs w' = <[r := mkVertex g ptr id L props false]> (vertex_objs w)
       ∧ edge_objs w' = edge_objs w
       ∧ trace w' = (trace w ++ c :: rest)%list
       ∧ ptr ≠ 0
       ∧ next_ref w' = S (next_ref w)
       ∧ (native w' = native (called c w)
          ∨ native w' = (native_call (tinkergraph_vertex_id ptr 256)
                           (native (called c w))).2)).
Proof.
  intros HG Hopen Henc m c r ptr. subst m.
  destruct (TinkerGraph_add_vertex g (VStr L) (opt_value vid) props w)
    as [res w'] eqn:Hm.
  unfold TinkerGraph_add_vertex in Hm.
  rewrite (bind_ok _ _ _ _ _ (check_open _ _ _ HG Hopen)) in Hm.
  rewrite (bind_ok _ _ _ _ _ (eq_refl : ret tt w = (Ok tt, w))) in Hm.
  rewrite (bind_ok
             (match opt_value vid with
              | VBool _ | VInt _ =>
                  raise_validation_error "vertex_id" "str or None" (opt_value vid)
              | _ => ret tt
              end) _ w tt w) in Hm by (by destruct vid).
  replace (match opt_value vid with VStr s => Some s | _ => None end)
    with vid in Hm by (by destruct vid).
  fold (all_properties L props) in Hm.
  unfold try_except_as in Hm.
  rewrite (bind_ok _ _ _ _ _ (get_graph_ok _ _ _ HG)) in Hm.
  assert (Hcall :
    (if bool_decide (all_properties L props = ∅)
     then NativeGraphHandle_add_vertex (graph_native G) vid
     else NativeGraphHandle_add_vertex_with_properties (graph_native G) vid
            (all_properties L props)) w
    = (if bool_decide (ptr = 0)
       then Raise (mkExc TinkerGraphNativeError
                     (if bool_decide (all_properties L props = ∅)
                      then "Native operation 'add_vertex' failed: "
                           ++ "Failed to add vertex with id '" ++ fmt_opt vid ++ "'"
                      else "Native operation 'add_vertex_with_properties' failed: "
                           ++ "Failed to add vertex with id '" ++ fmt_opt vid
                           ++ "' and properties "
                           ++ py_repr_dict (all_properties L props)))
       else Ok ptr, called c w)).
  { subst ptr c. by rewrite add_vertex_native_step, Henc. }
  unfold bind at 1 in Hm. rewrite Hcall in Hm.
  destruct (bool_decide (ptr = 0)) eqn:Hptr.
  - left. simpl in Hm. injection Hm as <- <-. apply bool_decide_eq_true in Hptr.
    eexists. split; [reflexivity |]. split; [reflexivity | exact Hptr].
  - right. apply bool_decide_eq_false in Hptr.
    fold (settle_id g ptr vid) in Hm.
    assert (HG1 : graphs (called c w) !! g = Some G) by done.
    destruct (settle_id_spec (called c w) g G ptr vid HG1)
      as (id & w2 & G2 & rest & Hid & Hgr & Hv2 & He2 & Hc2 & Hn2 & Hvo & Heo & Hnr & Htr
          & Hnat).
    rewrite (bind_ok _ _ _ _ _ Hid) in Hm.
    assert (HG2 : graphs w2 !! g = Some G2) by (rewrite Hgr; apply lookup_insert_eq).
    unfold bind, new_ref, put_vertex, get_graph, put_graph, ret in Hm. simpl in Hm.
    rewrite HG2 in Hm. simpl in Hm. injection Hm as <- <-.
    rewrite Hnr, Hgr, Hvo, Heo, Htr. simpl.
    eexists _, (set_vertices G2 (<[ptr := r]> (graph_vertices G2))), id, rest.
    split; [reflexivity |]. simpl.
    rewrite Hv2, He2, Hc2, Hn2, insert_insert_eq, <- app_assoc.
    repeat (split; [done |]). exact Hnat.
Qed.

End AddVertex.

Lemma overlay_matches_singleton props k s :
  overlay_matches props {[k := VStr s]} ↔ props !! k = Some (VStr s).
Proof.
  unfold overlay_matches. split.
  - intros H. destruct (H k (VStr s)) as (y & Hy & Heq).
    + apply lookup_singleton_eq.
    + apply py_eq_str_exact in Heq. by subst.
  - intros H k' x Hk. apply lookup_singleton_Some in Hk as [<- <-].
    exists (VStr s). split; [done |]. by apply py_eq_str_exact.
Qed.

Section Label.

Context {NS : Type} `{!NativeFunctionTable NS}.

(** C9: [add_vertex] on an open graph with a label [L] other than "vertex"
    puts the key "label" into the property set that it hands to the native
    add-vertex call.  If the id, the keys and the values can be encoded as
    UTF-8, that call is the first native call made, and its handle decides the
    outcome: a null handle gives [TinkerGraphVertexError]; any other handle
    makes [add_vertex] return a vertex whose label is [L] and whose overlay is
    exactly [props], with a "label" entry only if [props] had one, so that
    [vertices(label=L)] returns the new vertex only if [props] itself maps
    "label" to [L].  If something cannot be encoded, [UnicodeEncodeError] is
    raised before any native call and nothing is returned. *)
Theorem label_is_forwarded_not_mirrored (w : World NS) g G L vid props :
  graphs w !! g = Some G → graph_closed G = false → L ≠ "vertex" →
  (∀ p r, graph_vertices G !! p = Some r → is_Some (vertex_objs w !! r)) →
  let m := TinkerGraph_add_vertex g (VStr L) (opt_value vid) props in
  let forwarded := <["label" := VStr L]> props in
  let c := tinkergraph_add_vertex_with_properties (graph_native G) (id_bytes vid)
             (property_keys forwarded) (property_values forwarded)
             (property_count forwarded) in
  let ptr := (native_call c (native w)).1.1 in
  (∃ ks, property_keys forwarded = Some ks ∧ "label" ∈ ks)
  ∧ if add_vertex_encodable L vid props
    then
      (∃ rest, trace (exec m w) = (trace w ++ c :: rest)%list)
      ∧ (ptr = 0 →
         ∃ e, result m w = Raise e ∧ exc_class e = TinkerGraphVertexError)
      ∧ (ptr ≠ 0 →
         ∃ r V, result m w = Ok r
           ∧ vertex_objs (exec m w) !! r = Some V
           ∧ vertex_label V = L
           ∧ vertex_properties V = props
           ∧ (props !! "label" = None → vertex_properties V !! "label" = None)
           ∧ ∃ l, TinkerGraph_vertices g {["label" := VStr L]} (exec m w)
                  = (Ok l, exec m w)
                  ∧ (r ∈ l ↔ props !! "label" = Some (VStr L)))
    else ∃ e, m w = (Raise e, w) ∧ exc_class e = UnicodeEncodeError.
Proof.
  intros HG Hopen HL Hres m forwarded c ptr.
  assert (Hne : forwarded ≠ ∅) by apply insert_non_empty.
  assert (Hc : add_vertex_call G L vid props = c).
  { unfold add_vertex_call, all_properties.
    rewrite (bool_decide_eq_false_2 (L = "vertex")) by done.
    fold forwarded. by rewrite (bool_decide_eq_false_2 (forwarded = ∅)). }
  split.
  { unfold property_keys. rewrite bool_decide_eq_false_2 by done.
    eexists. split; [reflexivity |].
    apply list_elem_of_fmap. exists ("label", VStr L). split; [done |].
    apply elem_of_map_to_list. apply lookup_insert_eq. }
  destruct (add_vertex_encodable L vid props) eqn:Henc.
  2:{ exists encode_error. split; [| reflexivity].
      apply (add_vertex_unencodable w g G L vid props HG Hopen Henc). }
  pose proof (add_vertex_spec w g G L vid props HG Hopen Henc) as Hspec.
  simpl in Hspec. rewrite Hc in Hspec. fold m in Hspec. fold ptr in Hspec.
  split; [| split].
  - destruct Hspec as [(e & Hm & _) | (w' & G' & id & rest & Hm & Hrest)];
      unfold exec; rewrite Hm; simpl.
    + by exists [].
    + exists rest. apply Hrest.
  - intros Hz.
    destruct Hspec as [(e & Hm & He & _) | (w' & G' & id & rest & _ & _ & _ & _
                                            & _ & _ & _ & _ & _ & Hnz & _)];
      [| contradiction].
    unfold result. rewrite Hm. simpl. eauto.
  - intros Hnz.
    destruct Hspec as [(e & _ & _ & Hz) | (w' & G' & id & rest & Hm & Hrest)];
      [contradiction |].
    unfold exec, result; rewrite Hm; simpl.
    destruct Hrest as (Hgr & Hverts & _ & Hcl & _ & Hvo & _).
    set (r := next_ref w) in *.
    set (V := mkVertex g ptr id L props false) in *.
    assert (HV : vertex_objs w' !! r = Some V)
      by (rewrite Hvo; apply lookup_insert_eq).
    exists r, V. repeat (split; [done |]).
    assert (HG' : graphs w' !! g = Some G')
      by (rewrite Hgr; apply lookup_insert_eq).
    assert (Hres' : ∀ p r', graph_vertices G' !! p = Some r' →
                            is_Some (vertex_objs w' !! r')).
    { intros p r' Hp. rewrite Hvo. apply lookup_insert_is_Some'.
      rewrite Hverts in Hp. apply lookup_insert_Some in Hp as [[_ <-] | [_ Hp]].
      - by left.
      - right. by apply (Hres p). }
    destruct (TinkerGraph_vertices_spec w' g G' {["label" := VStr L]} HG' Hcl Hres')
      as (l & Hrun & _ & Hmem & _).
    exists l. split; [exact Hrun |].
    rewrite Hmem. split.
    + intros [_ (V' & HV' & Hm')]. rewrite HV in HV'. injection HV' as <-.
      by apply overlay_matches_singleton in Hm'.
    + intros Hp. split.
      * exists ptr. rewrite Hverts. apply lookup_insert_eq.
      * exists V. split; [done |]. by apply overlay_matches_singleton.
Qed.

End Label.

Lemma label_is_forwarded_not_mirrored_witness :
  let m := TinkerGraph_add_vertex 0%nat (VStr "person") (opt_value (Some "carol"))
             {["name" := VStr "Carol"]} in
  let forwarded := <["label" := VStr "person"]> {["name" := VStr "Carol"]} in
  let c := tinkergraph_add_vertex_with_properties (graph_native scenario_A_G)
             (id_bytes (Some "carol"))
             (property_keys forwarded) (property_values forwarded)
             (property_count forwarded) in
  (∃ ks, property_keys forwarded = Some ks ∧ "label" ∈ ks)
  ∧ (∃ rest, trace (exec m scenario_A) = (trace scenario_A ++ c :: rest)%list)
  ∧ ∃ r V, result m scenario_A = Ok r
      ∧ vertex_objs (exec m scenario_A) !! r = Some V
      ∧ vertex_label V = "person"
      ∧ vertex_properties V = {["name" := VStr "Carol"]}
      ∧ (({["name" := VStr "Carol"]} : gmap string value) !! "label" = None →
         vertex_properties V !! "label" = None)
      ∧ ∃ l, TinkerGraph_vertices 0%nat {["label" := VStr "person"]}
               (exec m scenario_A)
             = (Ok l, exec m scenario_A)
             ∧ (r ∈ l ↔ ({["name" := VStr "Carol"]} : gmap string value) !! "label"
                        = Some (VStr "person")).
Proof.
  intros m forwarded c.
  assert (Henc : add_vertex_encodable "person" (Some "carol") {["name" := VStr "Carol"]}
                 = true) by (vm_compute; reflexivity).
  pose proof (label_is_forwarded_not_mirrored scenario_A 0%nat scenario_A_G
                "person" (Some "carol") {["name" := VStr "Carol"]}
                scenario_A_graph eq_refl ltac:(discriminate) scenario_A_resolves) as H.
  cbv zeta in H. rewrite Henc in H.
  destruct H as (Hk & Ht & _ & Hok).
  split; [exact Hk |]. split; [exact Ht |].
  apply Hok. vm_compute. discriminate.
Defined.

(** A label that holds a lone surrogate never reaches the native side:
    encoding the value of the key "label" raises [UnicodeEncodeError]. *)
Example unencodable_vertex_label_raises :
  let m := TinkerGraph_add_vertex 0%nat (VStr lone_surrogate) VNone ∅ in
  add_vertex_encodable lone_surrogate None ∅ = false
  ∧ m scenario_A = (Raise encode_error, scenario_A).
Proof. vm_compute. auto. Qed.

(** The new vertex of the witness is not found by its label. *)
Example label_filter_misses_new_vertex :
  let m := TinkerGraph_add_vertex 0%nat (VStr "person") (VStr "carol")
             {["name" := VStr "Carol"]} in
  result m scenario_A = Ok 4%nat
  ∧ vertex_properties <$> vertex_objs (exec m scenario_A) !! 4%nat
    = Some {["name" := VStr "Carol"]}
  ∧ result (TinkerGraph_vertices 0%nat {["label" := VStr "person"]}) (exec m scenario_A)
    = Ok []
  ∧ result (TinkerGraph_vertices 0%nat {["name" := VStr "Carol"]}) (exec m scenario_A)
    = Ok [4%nat].
Proof. vm_compute. auto. Qed.

(** ** Cascading removal of a vertex *)

(** *** Counts of the native side *)



(** *** The store after the native calls of a cleanup *)

Lemma vertex_count_spec (w : World SpecNative) g G :
  graphs w !! g = Some G → graph_closed G = false →
  TinkerGraph_vertex_count g w
  = (Ok (count_in (graph_native G) (sn_vertices (native w))),
     after_calls (native w) [tinkergraph_vertex_count (graph_native G)] w).
Proof.
  intros HG Hopen. unfold TinkerGraph_vertex_count.
  rewrite (bind_ok _ _ _ _ _ (check_open _ _ _ HG Hopen)).
  rewrite (bind_ok _ _ _ _ _ (get_graph_ok _ _ _ HG)).
  unfold NativeGraphHandle_vertex_count.
  by rewrite (bind_ok _ _ _ _ _ (invoke_eq _ _)).
Qed.





(** *** Registries in step with the native side *)

Lemma Vertex__graph_eq {NS} (w : World NS) v V :
  vertex_objs w !! v = Some V →
  Vertex__graph v w = (Ok (graph_of w (vertex_graph_ref V)), w).
Proof.
  intros HV. unfold Vertex__graph.
  by rewrite (bind_ok _ _ _ _ _ (get_vertex_ok _ _ _ HV)).
Qed.

Lemma Vertex___eq___pure {NS} (w : World NS) a b :
  is_Some (vertex_objs w !! a) → is_Some (vertex_objs w !! b) →
  Vertex___eq__ a b w = (Ok (vertex_eqb w a b), w).
Proof.
  intros [A HA] [B HB]. unfold Vertex___eq__, vertex_eqb. rewrite HA, HB.
  rewrite (bind_ok _ _ _ _ _ (get_vertex_ok _ _ _ HA)).
  rewrite (bind_ok _ _ _ _ _ (get_vertex_ok _ _ _ HB)).
  destruct (bool_decide (vertex_id A = vertex_id B)); [| done].
  rewrite (bind_ok _ _ _ _ _ (Vertex__graph_eq _ _ _ HA)).
  by rewrite (bind_ok _ _ _ _ _ (Vertex__graph_eq _ _ _ HB)).
Qed.



Section Cascade.

Variable g : ref.


End Cascade.



(** The comprehension of [remove_vertex] selects the incident edges and
    leaves the store alone. *)
Lemma edges_to_remove_spec (w : World SpecNative) g G v :
  registry_ok w g G → is_Some (vertex_objs w !! v) →
  comprehension_if (values (graph_edges G))
    (λ e, E <- get_edge e ;;
          o <- Vertex___eq__ (edge_out_vertex E) v ;;
          if o then ret true else Vertex___eq__ (edge_in_vertex E) v) w
  = (Ok (incident_edges w G v), w).
Proof.
  intros Hok HV. apply comprehension_if_pure.
  intros e He. apply elem_of_values in He as [p Hp].
  destruct (ok_edges _ _ _ Hok p e Hp) as (E & l & HE & _ & _ & _ & _ & _ & Ho & Hi).
  rewrite (bind_ok _ _ _ _ _ (get_edge_ok _ _ _ HE)).
  rewrite (bind_ok _ _ _ _ _ (Vertex___eq___pure _ _ _ Ho HV)).
  unfold incident. rewrite HE.
  destruct (vertex_eqb w (edge_out_vertex E) v); [done |].
  by rewrite (Vertex___eq___pure _ _ _ Hi HV).
Qed.


(** With ids unique among the registered vertices (the data model's
    identity invariant) and both endpoints of the edge registered, an edge is
    incident to a registered vertex [v] exactly when one of its endpoints is
    the wrapper [v] itself. *)
Lemma incident_iff_endpoint (w : World SpecNative) g G v pv e E :
  registry_ok w g G →
  (∀ p1 r1 p2 r2 V1 V2,
     graph_vertices G !! p1 = Some r1 → graph_vertices G !! p2 = Some r2 →
     vertex_objs w !! r1 = Some V1 → vertex_objs w !! r2 = Some V2 →
     vertex_id V1 = vertex_id V2 → r1 = r2) →
  graph_vertices G !! pv = Some v →
  edge_objs w !! e = Some E →
  (∃ p, graph_vertices G !! p = Some (edge_out_vertex E)) →
  (∃ p, graph_vertices G !! p = Some (edge_in_vertex E)) →
  incident w v e = true ↔ edge_out_vertex E = v ∨ edge_in_vertex E = v.
Proof.
  intros Hok Huniq Hv HE [po Ho] [pi Hi].
  pose proof (ok_graph _ _ _ Hok) as HG.
  assert (Heq : ∀ p a, graph_vertices G !! p = Some a →
                       vertex_eqb w a v = true ↔ a = v).
  { intros p a Ha.
    destruct (ok_vertices _ _ _ Hok p a Ha) as (A & ? & HA & _ & _ & _ & HgA & _).
    destruct (ok_vertices _ _ _ Hok pv v Hv) as (V & ? & HV & _ & _ & _ & HgV & _).
    unfold vertex_eqb. rewrite HA, HV, HgA, HgV.
    rewrite (bool_decide_eq_true_2 (graph_of w g = graph_of w g)) by done.
    rewrite andb_true_r, bool_decide_eq_true. split.
    - intros Hid. by apply (Huniq p a pv v A V).
    - intros ->. rewrite HA in HV. by injection HV as <-. }
  unfold incident. rewrite HE, orb_true_iff.
  by rewrite (Heq po _ Ho), (Heq pi _ Hi).
Qed.

(** ** Cleanup paths return *)

Lemma same_shape_refl w : same_shape w w.
Proof. split; [done |]. split; eauto. Qed.

Lemma same_shape_trans w1 w2 w3 :
  same_shape w1 w2 → same_shape w2 w3 → same_shape w1 w3.
Proof.
  intros (Hg & Hv & He) (Hg' & Hv' & He'). split; [congruence |]. split.
  - intros r V HV. destruct (Hv r V HV) as (V' & HV' & Hr).
    destruct (Hv' r V' HV') as (V'' & HV'' & Hr'). exists V''. split; [done | congruence].
  - intros r E HE. destruct (He r E HE) as (E' & HE' & Hr).
    destruct (He' r E' HE') as (E'' & HE'' & Hr'). exists E''. split; [done | congruence].
Qed.

Lemma cleanup_safe_shape w w' r : same_shape w w' → cleanup_safe w r → cleanup_safe w' r.
Proof. intros (Hg & _) Hs G. rewrite Hg. apply Hs. Qed.

(** The truth value of a graph never raises here: the native count is a
    size. *)
Lemma py_bool_returns (w : World SpecNative) gr :
  cleanup_safe w gr →
  ∃ b cs, py_bool (graph_of w gr) w = (Ok b, after_calls (native w) cs w).
Proof.
  intros Hsafe. unfold graph_of.
  destruct (graphs w !! gr) as [G|] eqn:HG.
  - assert (Hlen : py_len gr w
                   = (Ok (count_in (graph_native G) (sn_vertices (native w))),
                      after_calls (native w) [tinkergraph_vertex_count (graph_native G)] w)).
    { unfold py_len, TinkerGraph___len__.
      rewrite (bind_ok _ _ _ _ _ (vertex_count_spec _ _ _ HG (Hsafe G HG))).
      rewrite bool_decide_eq_false_2; [done |]. unfold count_in. lia. }
    simpl. rewrite (bind_ok _ _ _ _ _ Hlen). eexists _, _. reflexivity.
  - exists false, []. simpl. unfold ret, after_calls. rewrite app_nil_r.
    by destruct w.
Qed.

Lemma Vertex__cleanup_returns (w : World SpecNative) v V :
  vertex_objs w !! v = Some V → cleanup_safe w (vertex_graph_ref V) →
  ∃ w', Vertex__cleanup v w = (Ok tt, w') ∧ same_shape w w'.
Proof.
  intros HV Hsafe. unfold Vertex__cleanup.
  rewrite (bind_ok _ _ _ _ _ (get_vertex_ok _ _ _ HV)).
  destruct (negb (vertex_disposed V) && negb (bool_decide (vertex_ptr V = 0))).
  2:{ exists w. split; [done | apply same_shape_refl]. }
  rewrite (bind_ok _ _ _ _ _ (Vertex__graph_eq _ _ _ HV)).
  destruct (py_bool_returns w _ Hsafe) as (b & cs & Hb).
  rewrite (bind_ok _ _ _ _ _ Hb).
  assert (Hshape : ∀ n cs',
            same_shape w
              (mkWorld (graphs w) (<[v := dispose_vertex V]> (vertex_objs w)) (edge_objs w)
                       (next_ref w) n cs')).
  { intros n cs'. split; [done |]. split; simpl; [| eauto].
    intros r V0 HV0. destruct (decide (v = r)) as [<- | Hne].
    - rewrite lookup_insert_eq. rewrite HV in HV0. injection HV0 as <-. eauto.
    - rewrite lookup_insert_ne by done. eauto. }
  destruct b.
  - unfold try_except, NativeGraphHandle_destroy_vertex.
    destruct (bool_decide (vertex_ptr V = 0));
      unfold bind, invoke, get_vertex, put_vertex, ret; simpl; rewrite HV;
      eexists; (split; [reflexivity | apply Hshape]).
  - unfold bind, get_vertex, put_vertex, ret; simpl; rewrite HV.
    eexists; (split; [reflexivity | apply Hshape]).
Qed.

Lemma Edge__cleanup_returns (w : World SpecNative) e E :
  edge_objs w !! e = Some E → cleanup_safe w (edge_graph_ref E) →
  ∃ w', Edge__cleanup e w = (Ok tt, w') ∧ same_shape w w'.
Proof.
  intros HE Hsafe. unfold Edge__cleanup.
  rewrite (bind_ok _ _ _ _ _ (get_edge_ok _ _ _ HE)).
  destruct (negb (edge_disposed E) && negb (bool_decide (edge_ptr E = 0))).
  2:{ exists w. split; [done | apply same_shape_refl]. }
  assert (Hgr : Edge__graph e w = (Ok (graph_of w (edge_graph_ref E)), w)).
  { unfold Edge__graph. by rewrite (bind_ok _ _ _ _ _ (get_edge_ok _ _ _ HE)). }
  rewrite (bind_ok _ _ _ _ _ Hgr).
  destruct (py_bool_returns w _ Hsafe) as (b & cs & Hb).
  rewrite (bind_ok _ _ _ _ _ Hb).
  assert (Hshape : ∀ n cs',
            same_shape w
              (mkWorld (graphs w) (vertex_objs w) (<[e := dispose_edge E]> (edge_objs w))
                       (next_ref w) n cs')).
  { intros n cs'. split; [done |]. split; simpl; [eauto |].
    intros r E0 HE0. destruct (decide (e = r)) as [<- | Hne].
    - rewrite lookup_insert_eq. rewrite HE in HE0. injection HE0 as <-. eauto.
    - rewrite lookup_insert_ne by done. eauto. }
  destruct b.
  - unfold try_except, NativeGraphHandle_destroy_edge.
    destruct (bool_decide (edge_ptr E = 0));
      unfold bind, invoke, get_edge, put_edge, ret; simpl; rewrite HE;
      eexists; (split; [reflexivity | apply Hshape]).
  - unfold bind, get_edge, put_edge, ret; simpl; rewrite HE.
    eexists; (split; [reflexivity | apply Hshape]).
Qed.

Lemma cleanup_vertices_returns (l : list ref) :
  ∀ w : World SpecNative,
    (∀ r, r ∈ l → ∃ V, vertex_objs w !! r = Some V
                       ∧ cleanup_safe w (vertex_graph_ref V)) →
    ∃ w', for_each l Vertex__cleanup w = (Ok tt, w') ∧ same_shape w w'.
Proof.
  induction l as [|v l IH]; intros w Hl.
  - exists w. split; [done | apply same_shape_refl].
  - destruct (Hl v (list_elem_of_here _ _)) as (V & HV & Hsafe).
    destruct (Vertex__cleanup_returns w v V HV Hsafe) as (w1 & Hrun & Hs1).
    destruct (IH w1) as (w' & Hloop & Hs').
    { intros r Hr. destruct (Hl r (list_elem_of_further _ _ _ Hr)) as (Vr & HVr & Hsr).
      destruct Hs1 as (Hg & Hv & _). destruct (Hv r Vr HVr) as (V' & HV' & Hgr).
      exists V'. split; [done |]. rewrite Hgr. intros G. rewrite Hg. apply Hsr. }
    exists w'. simpl. rewrite (bind_ok _ _ _ _ _ Hrun).
    split; [done |]. by eapply same_shape_trans.
Qed.

Lemma cleanup_edges_returns (l : list ref) :
  ∀ w : World SpecNative,
    (∀ r, r ∈ l → ∃ E, edge_objs w !! r = Some E
                       ∧ cleanup_safe w (edge_graph_ref E)) →
    ∃ w', for_each l Edge__cleanup w = (Ok tt, w') ∧ same_shape w w'.
Proof.
  induction l as [|e l IH]; intros w Hl.
  - exists w. split; [done | apply same_shape_refl].
  - destruct (Hl e (list_elem_of_here _ _)) as (E & HE & Hsafe).
    destruct (Edge__cleanup_returns w e E HE Hsafe) as (w1 & Hrun & Hs1).
    destruct (IH w1) as (w' & Hloop & Hs').
    { intros r Hr. destruct (Hl r (list_elem_of_further _ _ _ Hr)) as (Er & HEr & Hsr).
      destruct Hs1 as (Hg & _ & He). destruct (He r Er HEr) as (E' & HE' & Hgr).
      exists E'. split; [done |]. rewrite Hgr. intros G. rewrite Hg. apply Hsr. }
    exists w'. simpl. rewrite (bind_ok _ _ _ _ _ Hrun).
    split; [done |]. by eapply same_shape_trans.
Qed.

(** [close()] returns: for a graph whose registered wrappers belong to graphs
    that are open (the graph itself, while it is being closed) or reclaimed,
    the first [close()] raises nothing either. *)
Lemma close_returns (w : World SpecNative) g G :
  graphs w !! g = Some G →
  (∀ p r, graph_vertices G !! p = Some r →
          ∃ V, vertex_objs w !! r = Some V ∧ cleanup_safe w (vertex_graph_ref V)) →
  (∀ p r, graph_edges G !! p = Some r →
          ∃ E, edge_objs w !! r = Some E ∧ cleanup_safe w (edge_graph_ref E)) →
  ∃ w1, TinkerGraph_close g w = (Ok tt, w1).
Proof.
  intros HG Hvs Hes. unfold TinkerGraph_close.
  rewrite (bind_ok _ _ _ _ _ (get_graph_ok _ _ _ HG)).
  destruct (graph_closed G); simpl; [by exists w |].
  destruct (cleanup_vertices_returns (values (graph_vertices G)) w)
    as (w1 & Hrun1 & Hs1).
  { intros r Hr. apply elem_of_values in Hr as [p Hp]. by apply (Hvs p). }
  rewrite (bind_ok _ _ _ _ _ Hrun1).
  destruct (cleanup_edges_returns (values (graph_edges G)) w1)
    as (w2 & Hrun2 & Hs2).
  { intros r Hr. apply elem_of_values in Hr as [p Hp].
    destruct (Hes p r Hp) as (E & HE & Hsafe).
    destruct Hs1 as (Hg & _ & He). destruct (He r E HE) as (E' & HE' & Hgr).
    exists E'. split; [done |]. rewrite Hgr. intros G'. rewrite Hg. apply Hsafe. }
  rewrite (bind_ok _ _ _ _ _ Hrun2).
  assert (HG2 : graphs w2 !! g = Some G).
  { destruct Hs1 as (Hg1 & _). destruct Hs2 as (Hg2 & _). by rewrite Hg2, Hg1. }
  rewrite (bind_ok _ _ _ _ _ (get_graph_ok _ _ _ HG2)).
  eexists. reflexivity.
Qed.

(** In a graph whose registries are in step, [close()] returns. *)
Lemma close_returns_ok (w : World SpecNative) g G :
  registry_ok w g G → ∃ w1, TinkerGraph_close g w = (Ok tt, w1).
Proof.
  intros Hok. apply (close_returns w g G (ok_graph _ _ _ Hok)).
  - intros p r Hp.
    destruct (ok_vertices _ _ _ Hok p r Hp) as (V & ? & HV & _ & _ & _ & Hg & _).
    exists V. split; [done |]. intros G'. rewrite Hg, (ok_graph _ _ _ Hok).
    intros [= <-]. apply (ok_open _ _ _ Hok).
  - intros p r Hp.
    destruct (ok_edges _ _ _ Hok p r Hp) as (E & ? & HE & _ & _ & _ & Hg & _).
    exists E. split; [done |]. intros G'. rewrite Hg, (ok_graph _ _ _ Hok).
    intros [= <-]. apply (ok_open _ _ _ Hok).
Qed.

(** ** The registry invariant along the public operations *)

Lemma world_ok_registry_ok w g G :
  world_ok w → graphs w !! g = Some G → graph_closed G = false → registry_ok w g G.
Proof.
  intros Hw HG Hopen. destruct (wo_graphs _ Hw g G HG) as (Hvs & Hes & _).
  constructor; [done | done | |].
  - intros p r Hp. destruct (Hvs p r Hp) as (V & id & HV & Hptr & Hd & Hg & Hn).
    exists V, id. pose proof (wo_vertex _ Hw r V HV). repeat split; try done. lia.
  - intros p r Hp. destruct (Hes p r Hp) as (E & l & HE & Hptr & Hd & Hg & Hn).
    exists E, l. destruct (wo_edge _ Hw r E HE) as (? & ? & ?).
    repeat split; try done. lia.
Qed.

Lemma initial_world_ok : world_ok initial_world.
Proof.
  constructor; simpl; try (intros; simplify_map_eq; fail).
  - done.
  - intros r [? H]. by rewrite lookup_empty in H.
  - intros r [? H]. by rewrite lookup_empty in H.
  - intros r [? H]. by rewrite lookup_empty in H.
Qed.

(** The truth value of an open graph: the native count, never negative. *)
Lemma py_bool_open (w : World SpecNative) g G :
  graphs w !! g = Some G → graph_closed G = false →
  ∃ b, py_bool (Some g) w
       = (Ok b, after_calls (native w) [tinkergraph_vertex_count (graph_native G)] w).
Proof.
  intros HG Hopen.
  assert (Hlen : py_len g w
                 = (Ok (count_in (graph_native G) (sn_vertices (native w))),
                    after_calls (native w) [tinkergraph_vertex_count (graph_native G)] w)).
  { unfold py_len, TinkerGraph___len__.
    rewrite (bind_ok _ _ _ _ _ (vertex_count_spec _ _ _ HG Hopen)).
    rewrite bool_decide_eq_false_2; [done |]. unfold count_in. lia. }
  simpl. rewrite (bind_ok _ _ _ _ _ Hlen). eexists. reflexivity.
Qed.

(** What [_cleanup] does to a registered wrapper of an open graph: the
    wrapper is disposed, and its handle is destroyed natively if the graph is
    truthy. *)
Lemma Edge__cleanup_effect (w : World SpecNative) g G e E :
  graphs w !! g = Some G → graph_closed G = false →
  edge_objs w !! e = Some E → edge_disposed E = false → edge_ptr E ≠ 0 →
  edge_graph_ref E = g →
  ∃ n' cs,
    Edge__cleanup e w
    = (Ok tt, mkWorld (graphs w) (vertex_objs w) (<[e := dispose_edge E]> (edge_objs w))
                      (next_ref w) n' (trace w ++ cs))
    ∧ (n' = native w ∨ n' = sn_without_edge (edge_ptr E) (native w)).
Proof.
  intros HG Hopen HE Hd Hp Hg. unfold Edge__cleanup.
  rewrite (bind_ok _ _ _ _ _ (get_edge_ok _ _ _ HE)).
  rewrite Hd, (bool_decide_eq_false_2 _ Hp). simpl.
  assert (Hgr : Edge__graph e w = (Ok (Some g), w)).
  { unfold Edge__graph. rewrite (bind_ok _ _ _ _ _ (get_edge_ok _ _ _ HE)).
    unfold bind, get_world, ret. by rewrite Hg, HG. }
  rewrite (bind_ok _ _ _ _ _ Hgr).
  destruct (py_bool_open w g G HG Hopen) as [b Hb].
  rewrite (bind_ok _ _ _ _ _ Hb).
  destruct b.
  - unfold try_except, NativeGraphHandle_destroy_edge.
    rewrite (bool_decide_eq_false_2 _ Hp).
    unfold bind, invoke, get_edge, put_edge, ret. simpl. rewrite HE.
    eexists _, _. split; [by rewrite <- app_assoc |]. by right.
  - unfold bind, get_edge, put_edge, ret. simpl. rewrite HE.
    eexists _, _. split; [reflexivity |]. by left.
Qed.

Lemma Vertex__cleanup_effect (w : World SpecNative) g G v V :
  graphs w !! g = Some G → graph_closed G = false →
  vertex_objs w !! v = Some V → vertex_disposed V = false → vertex_ptr V ≠ 0 →
  vertex_graph_ref V = g →
  ∃ n' cs,
    Vertex__cleanup v w
    = (Ok tt, mkWorld (graphs w) (<[v := dispose_vertex V]> (vertex_objs w)) (edge_objs w)
                      (next_ref w) n' (trace w ++ cs))
    ∧ (n' = native w ∨ n' = sn_without_vertex (vertex_ptr V) (native w)).
Proof.
  intros HG Hopen HV Hd Hp Hg. unfold Vertex__cleanup.
  rewrite (bind_ok _ _ _ _ _ (get_vertex_ok _ _ _ HV)).
  rewrite Hd, (bool_decide_eq_false_2 _ Hp). simpl.
  assert (Hgr : Vertex__graph v w = (Ok (Some g), w)).
  { rewrite (Vertex__graph_eq _ _ _ HV). unfold graph_of. by rewrite Hg, HG. }
  rewrite (bind_ok _ _ _ _ _ Hgr).
  destruct (py_bool_open w g G HG Hopen) as [b Hb].
  rewrite (bind_ok _ _ _ _ _ Hb).
  destruct b.
  - unfold try_except, NativeGraphHandle_destroy_vertex.
    rewrite (bool_decide_eq_false_2 _ Hp).
    unfold bind, invoke, get_vertex, put_vertex, ret. simpl. rewrite HV.
    eexists _, _. split; [by rewrite <- app_assoc |]. by right.
  - unfold bind, get_vertex, put_vertex, ret. simpl. rewrite HV.
    eexists _, _. split; [reflexivity |]. by left.
Qed.

(** The invariant after an edge was disposed and unregistered. *)
Lemma world_ok_without_edge (w : World SpecNative) g G e E n' tr :
  world_ok w → graphs w !! g = Some G →
  graph_edges G !! edge_ptr E = Some e → edge_objs w !! e = Some E →
  n' = native w ∨ n' = sn_without_edge (edge_ptr E) (native w) →
  world_ok (mkWorld (<[g := set_edges G (delete (edge_ptr E) (graph_edges G))]> (graphs w))
                    (vertex_objs w) (<[e := dispose_edge E]> (edge_objs w))
                    (next_ref w) n' tr).
Proof.
  intros Hw HG Hreg HE Hn.
  assert (Hnext : sn_next n' = sn_next (native w)) by (by destruct Hn as [-> | ->]).
  assert (Hnv : sn_vertices n' = sn_vertices (native w)) by (by destruct Hn as [-> | ->]).
  assert (Hne : ∀ p, p ≠ edge_ptr E → sn_edges n' !! p = sn_edges (native w) !! p).
  { intros p Hp. destruct Hn as [-> | ->]; [done |]. simpl. by rewrite lookup_delete_ne. }
  destruct (wo_graphs _ Hw g G HG) as (Hvs & Hes & Hcl).
  destruct (Hes _ _ Hreg) as (E0 & l0 & HE0 & _ & _ & HgE & _).
  rewrite HE in HE0. injection HE0 as <-.
  assert (Hother : ∀ r E', edge_objs w !! r = Some E' → edge_ptr E' ≠ edge_ptr E → e ≠ r).
  { intros r E' HE' Hptr ->. rewrite HE in HE'. by injection HE' as <-. }
  constructor; simpl.
  - intros g' G' HG'. destruct (decide (g = g')) as [<- | Hgg].
    + rewrite lookup_insert_eq in HG'. injection HG' as <-.
      split; [| split].
      * intros p r Hp. simpl in Hp |- *. rewrite Hnv. apply (Hvs p r Hp).
      * intros p r Hp. simpl in Hp |- *. apply lookup_delete_Some in Hp as [Hpe Hp].
        destruct (Hes p r Hp) as (E' & l' & HE' & Hptr' & Hrest).
        exists E', l'. rewrite lookup_insert_ne by (eapply Hother; [done | congruence]).
        rewrite Hne by done. done.
      * simpl. intros Hc. destruct (Hcl Hc) as [_ He0].
        rewrite He0, lookup_empty in Hreg. done.
    + rewrite lookup_insert_ne in HG' by done.
      destruct (wo_graphs _ Hw g' G' HG') as (Hvs' & Hes' & Hcl').
      split; [| split; [| done]].
      * intros p r Hp. simpl. rewrite Hnv. apply (Hvs' p r Hp).
      * intros p r Hp.
        destruct (Hes' p r Hp) as (E' & l' & HE' & Hptr' & Hd' & Hg' & Hn').
        assert (Her : e ≠ r).
        { intros ->. rewrite HE in HE'. injection HE' as <-. congruence. }
        exists E', l'. simpl. rewrite lookup_insert_ne by done.
        rewrite Hne; [done |].
        intros Heq. apply Her. eapply (wo_edge_inj _ Hw); [done | done | congruence].
  - rewrite Hnext. apply (wo_next _ Hw).
  - intros r V HV. rewrite Hnext. by apply (wo_vertex _ Hw r).
  - intros r E' HE'. rewrite Hnext. destruct (decide (e = r)) as [<- | Her].
    + rewrite lookup_insert_eq in HE'. injection HE' as <-. simpl.
      by apply (wo_edge _ Hw e).
    + rewrite lookup_insert_ne in HE' by done. by apply (wo_edge _ Hw r).
  - apply (wo_vertex_inj _ Hw).
  - intros r1 r2 E1 E2 H1 H2 Hptr.
    assert (Hlk : ∀ r E', <[e:=dispose_edge E]> (edge_objs w) !! r = Some E' →
                          ∃ E'', edge_objs w !! r = Some E'' ∧ edge_ptr E'' = edge_ptr E').
    { intros r E' H. destruct (decide (e = r)) as [<- | Her].
      - rewrite lookup_insert_eq in H. injection H as <-. eauto.
      - rewrite lookup_insert_ne in H by done. eauto. }
    destruct (Hlk _ _ H1) as (E1' & H1' & Hp1).
    destruct (Hlk _ _ H2) as (E2' & H2' & Hp2).
    eapply (wo_edge_inj _ Hw); [done | done | congruence].
  - apply (wo_fresh_v _ Hw).
  - intros r Hr. apply lookup_insert_is_Some in Hr as [<- | [_ Hr]].
    + apply (wo_fresh_e _ Hw). eauto.
    + by apply (wo_fresh_e _ Hw).
  - intros r Hr. apply lookup_insert_is_Some in Hr as [<- | [_ Hr]].
    + apply (wo_fresh_g _ Hw). eauto.
    + by apply (wo_fresh_g _ Hw).
Qed.

Lemma check_not_closed_cases {NS} (w : World NS) g :
  (∃ G, graphs w !! g = Some G ∧ graph_closed G = false
        ∧ TinkerGraph__check_not_closed g w = (Ok tt, w))
  ∨ (∃ e, TinkerGraph__check_not_closed g w = (Raise e, w)).
Proof.
  unfold TinkerGraph__check_not_closed, bind, get_graph.
  destruct (graphs w !! g) as [G|] eqn:HG; [| right; eauto].
  destruct (graph_closed G) eqn:Hc; [right; eauto |].
  left. exists G. done.
Qed.

Lemma exec_bind_raise {NS A B} (m : StateExc NS A) (k : A → StateExc NS B) w e w' :
  m w = (Raise e, w') → exec (bind m k) w = w'.
Proof. intros H. unfold exec. by rewrite (bind_raise _ _ _ _ _ H). Qed.

Lemma exec_bind_ok {NS A B} (m : StateExc NS A) (k : A → StateExc NS B) w a w' :
  m w = (Ok a, w') → exec (bind m k) w = exec (k a) w'.
Proof. intros H. unfold exec. by rewrite (bind_ok _ _ _ _ _ H). Qed.

Lemma get_edge_cases {NS} (w : World NS) e :
  (∃ E, edge_objs w !! e = Some E ∧ get_edge e w = (Ok E, w))
  ∨ (∃ x, get_edge e w = (Raise x, w)).
Proof. unfold get_edge. destruct (edge_objs w !! e); eauto. Qed.

Lemma get_vertex_cases {NS} (w : World NS) v :
  (∃ V, vertex_objs w !! v = Some V ∧ get_vertex v w = (Ok V, w))
  ∨ (∃ x, get_vertex v w = (Raise x, w)).
Proof. unfold get_vertex. destruct (vertex_objs w !! v); eauto. Qed.

Lemma vertices_kept_refl g w : vertices_kept g w w.
Proof. split; [done |]. intros G HG. exists G. done. Qed.

Lemma vertices_kept_trans g w1 w2 w3 :
  vertices_kept g w1 w2 → vertices_kept g w2 w3 → vertices_kept g w1 w3.
Proof.
  intros [Hv1 Hg1] [Hv2 Hg2]. split; [congruence |].
  intros G HG. destruct (Hg1 G HG) as (G' & HG' & Hvs & Hc).
  destruct (Hg2 G' HG') as (G'' & HG'' & Hvs' & Hc').
  exists G''. split; [done |]. split; congruence.
Qed.

(** [remove_edge] keeps the invariant, whatever edge it is given. *)
Lemma remove_edge_preserves (w : World SpecNative) g e :
  world_ok w →
  world_ok (exec (TinkerGraph_remove_edge g e) w)
  ∧ vertices_kept g w (exec (TinkerGraph_remove_edge g e) w).
Proof.
  intros Hw. unfold TinkerGraph_remove_edge.
  pose proof (vertices_kept_refl g w) as Hrefl.
  destruct (check_not_closed_cases w g) as [(G & HG & Hopen & Hck) | (x & Hck)];
    [| by rewrite (exec_bind_raise _ _ _ _ _ Hck)].
  rewrite (exec_bind_ok _ _ _ _ _ Hck).
  destruct (get_edge_cases w e) as [(E & HE & Hge) | (x & Hge)];
    [| by rewrite (exec_bind_raise _ _ _ _ _ Hge)].
  rewrite (exec_bind_ok _ _ _ _ _ Hge).
  rewrite (exec_bind_ok _ _ _ _ _ (get_graph_ok _ _ _ HG)).
  destruct (bool_decide (is_Some (graph_edges G !! edge_ptr E))) eqn:Hin; [| done].
  apply bool_decide_eq_true in Hin as [e' Hreg].
  destruct (wo_graphs _ Hw g G HG) as (_ & Hes & _).
  destruct (Hes _ _ Hreg) as (E' & l & HE' & Hptr & Hd & Hg & _).
  assert (e' = e) as -> by (eapply (wo_edge_inj _ Hw); done).
  rewrite HE in HE'. injection HE' as <-.
  destruct (wo_edge _ Hw e E HE) as (Hpos & _).
  destruct (Edge__cleanup_effect w g G e E HG Hopen HE Hd) as (n' & cs & Hrun & Hn);
    [lia | done |].
  rewrite (exec_bind_ok _ _ _ _ _ Hrun).
  unfold exec, bind, get_graph, put_graph. simpl. rewrite HG. simpl.
  split; [by apply world_ok_without_edge |].
  split; [done |]. simpl. intros G0 HG0. rewrite HG in HG0. injection HG0 as <-.
  rewrite lookup_insert_eq. eexists. split; [reflexivity |]. done.
Qed.

(** A loop of steps that each keep a property of the store keeps it, also
    when a step raises. *)
Lemma for_each_preserves {NS A} (P : World NS → Prop) (f : A → StateExc NS unit) l :
  (∀ x w, P w → P (exec (f x) w)) →
  ∀ w, P w → P (exec (for_each l f) w).
Proof.
  intros Hf. induction l as [|x l IH]; intros w Hw; [done |].
  simpl. unfold exec, bind. specialize (Hf x w Hw). unfold exec in Hf.
  destruct (f x w) as [[[]|e] w1]; simpl in *; [| done].
  by apply IH.
Qed.

(** The invariant after a vertex was disposed and unregistered. *)
Lemma world_ok_without_vertex (w : World SpecNative) g G v V n' tr :
  world_ok w → graphs w !! g = Some G →
  graph_vertices G !! vertex_ptr V = Some v → vertex_objs w !! v = Some V →
  n' = native w ∨ n' = sn_without_vertex (vertex_ptr V) (native w) →
  world_ok (mkWorld (<[g := set_vertices G (delete (vertex_ptr V) (graph_vertices G))]>
                       (graphs w))
                    (<[v := dispose_vertex V]> (vertex_objs w)) (edge_objs w)
                    (next_ref w) n' tr).
Proof.
  intros Hw HG Hreg HV Hn.
  assert (Hnext : sn_next n' = sn_next (native w)) by (by destruct Hn as [-> | ->]).
  assert (Hne : sn_edges n' = sn_edges (native w)) by (by destruct Hn as [-> | ->]).
  assert (Hnv : ∀ p, p ≠ vertex_ptr V → sn_vertices n' !! p = sn_vertices (native w) !! p).
  { intros p Hp. destruct Hn as [-> | ->]; [done |]. simpl. by rewrite lookup_delete_ne. }
  destruct (wo_graphs _ Hw g G HG) as (Hvs & Hes & Hcl).
  destruct (Hvs _ _ Hreg) as (V0 & id0 & HV0 & _ & _ & HgV & _).
  rewrite HV in HV0. injection HV0 as <-.
  assert (Hlk : ∀ r V', <[v:=dispose_vertex V]> (vertex_objs w) !! r = Some V' →
                        ∃ V'', vertex_objs w !! r = Some V''
                               ∧ vertex_ptr V'' = vertex_ptr V').
  { intros r V' H. destruct (decide (v = r)) as [<- | Hvr].
    - rewrite lookup_insert_eq in H. injection H as <-. eauto.
    - rewrite lookup_insert_ne in H by done. eauto. }
  constructor; simpl.
  - intros g' G' HG'. destruct (decide (g = g')) as [<- | Hgg].
    + rewrite lookup_insert_eq in HG'. injection HG' as <-.
      split; [| split].
      * intros p r Hp. simpl in Hp |- *. apply lookup_delete_Some in Hp as [Hpe Hp].
        destruct (Hvs p r Hp) as (V' & id' & HV' & Hptr' & Hrest).
        assert (Hvr : v ≠ r).
        { intros ->. rewrite HV in HV'. injection HV' as <-. congruence. }
        exists V', id'. rewrite lookup_insert_ne by done. rewrite Hnv by done. done.
      * intros p r Hp. simpl in Hp |- *. rewrite Hne. apply (Hes p r Hp).
      * simpl. intros Hc. destruct (Hcl Hc) as [Hv0 _].
        rewrite Hv0, lookup_empty in Hreg. done.
    + rewrite lookup_insert_ne in HG' by done.
      destruct (wo_graphs _ Hw g' G' HG') as (Hvs' & Hes' & Hcl').
      split; [| split; [| done]].
      * intros p r Hp.
        destruct (Hvs' p r Hp) as (V' & id' & HV' & Hptr' & Hd' & Hg' & Hn').
        assert (Hvr : v ≠ r).
        { intros ->. rewrite HV in HV'. injection HV' as <-. congruence. }
        exists V', id'. simpl. rewrite lookup_insert_ne by done.
        rewrite Hnv; [done |].
        intros Heq. apply Hvr. eapply (wo_vertex_inj _ Hw); [done | done | congruence].
      * intros p r Hp. simpl. rewrite Hne. apply (Hes' p r Hp).
  - rewrite Hnext. apply (wo_next _ Hw).
  - intros r V' HV'. rewrite Hnext. destruct (Hlk _ _ HV') as (V'' & HV'' & <-).
    by apply (wo_vertex _ Hw r).
  - intros r E HE. rewrite Hnext. destruct (wo_edge _ Hw r E HE) as (? & Ho & Hi).
    split; [done |]. split; apply lookup_insert_is_Some'; by right.
  - intros r1 r2 V1 V2 H1 H2 Hptr.
    destruct (Hlk _ _ H1) as (V1' & H1' & Hp1).
    destruct (Hlk _ _ H2) as (V2' & H2' & Hp2).
    eapply (wo_vertex_inj _ Hw); [done | done | congruence].
  - apply (wo_edge_inj _ Hw).
  - intros r Hr. apply lookup_insert_is_Some in Hr as [<- | [_ Hr]].
    + apply (wo_fresh_v _ Hw). eauto.
    + by apply (wo_fresh_v _ Hw).
  - apply (wo_fresh_e _ Hw).
  - intros r Hr. apply lookup_insert_is_Some in Hr as [<- | [_ Hr]].
    + apply (wo_fresh_g _ Hw). eauto.
    + by apply (wo_fresh_g _ Hw).
Qed.

(** [remove_vertex] keeps the invariant, whatever vertex it is given. *)
Lemma remove_vertex_preserves (w : World SpecNative) g v :
  world_ok w → world_ok (exec (TinkerGraph_remove_vertex g v) w).
Proof.
  intros Hw. unfold TinkerGraph_remove_vertex.
  destruct (check_not_closed_cases w g) as [(G & HG & Hopen & Hck) | (x & Hck)];
    [| by rewrite (exec_bind_raise _ _ _ _ _ Hck)].
  rewrite (exec_bind_ok _ _ _ _ _ Hck).
  destruct (get_vertex_cases w v) as [(V & HV & Hgv) | (x & Hgv)];
    [| by rewrite (exec_bind_raise _ _ _ _ _ Hgv)].
  rewrite (exec_bind_ok _ _ _ _ _ Hgv).
  rewrite (exec_bind_ok _ _ _ _ _ (get_graph_ok _ _ _ HG)).
  destruct (bool_decide (is_Some (graph_vertices G !! vertex_ptr V))) eqn:Hin; [| done].
  apply bool_decide_eq_true in Hin as [v' Hreg].
  destruct (wo_graphs _ Hw g G HG) as (Hvs & _ & _).
  destruct (Hvs _ _ Hreg) as (V' & id & HV' & Hptr & Hd & Hg & _).
  assert (v' = v) as -> by (eapply (wo_vertex_inj _ Hw); done).
  rewrite HV in HV'. injection HV' as <-.
  pose proof (world_ok_registry_ok w g G Hw HG Hopen) as Hok.
  rewrite (exec_bind_ok _ _ _ _ _
             (edges_to_remove_spec _ _ _ _ Hok (mk_is_Some _ _ HV))).
  set (es := incident_edges w G v).
  assert (Hloop : world_ok (exec (for_each es (TinkerGraph_remove_edge g)) w)
                  ∧ vertices_kept g w (exec (for_each es (TinkerGraph_remove_edge g)) w)).
  { apply (for_each_preserves (λ w', world_ok w' ∧ vertices_kept g w w')).
    - intros e w0 [Hw0 Hk0]. destruct (remove_edge_preserves w0 g e Hw0) as [Hw1 Hk1].
      split; [done |]. by eapply vertices_kept_trans.
    - split; [done | apply vertices_kept_refl]. }
  unfold exec in *. unfold bind at 1.
  destruct (for_each es (TinkerGraph_remove_edge g) w) as [[[]|x] w1]; simpl in *;
    [| by destruct Hloop].
  destruct Hloop as [Hw1 [Hvo1 Hk1]].
  destruct (Hk1 G HG) as (G1 & HG1 & Hvs1 & Hc1).
  assert (HV1 : vertex_objs w1 !! v = Some V) by (by rewrite Hvo1).
  assert (Hopen1 : graph_closed G1 = false) by congruence.
  destruct (wo_vertex _ Hw v V HV) as [Hpos _].
  destruct (Vertex__cleanup_effect w1 g G1 v V HG1 Hopen1 HV1 Hd) as (n' & cs & Hrun & Hn);
    [lia | done |].
  rewrite (bind_ok _ _ _ _ _ Hrun).
  unfold bind, get_graph, put_graph. simpl. rewrite HG1. simpl.
  apply world_ok_without_vertex; try done. by rewrite Hvs1.
Qed.

Lemma for_each_preserves_in {NS A} (P : World NS → Prop) (f : A → StateExc NS unit) l :
  (∀ x w, x ∈ l → P w → P (exec (f x) w)) →
  ∀ w, P w → P (exec (for_each l f) w).
Proof.
  induction l as [|x l IH]; intros Hf w Hw; [done |].
  simpl. unfold exec, bind.
  pose proof (Hf x w (list_elem_of_here _ _) Hw) as Hx. unfold exec in Hx.
  destruct (f x w) as [[[]|e] w1]; simpl in *; [| done].
  apply IH; [| done]. intros y w0 Hy. apply Hf. by apply list_elem_of_further.
Qed.

(** [clear] keeps the invariant. *)
Lemma clear_preserves (w : World SpecNative) g :
  world_ok w → world_ok (exec (TinkerGraph_clear g) w).
Proof.
  intros Hw. unfold TinkerGraph_clear.
  destruct (check_not_closed_cases w g) as [(G & HG & Hopen & Hck) | (x & Hck)];
    [| by rewrite (exec_bind_raise _ _ _ _ _ Hck)].
  rewrite (exec_bind_ok _ _ _ _ _ Hck).
  rewrite (exec_bind_ok _ _ _ _ _ (get_graph_ok _ _ _ HG)).
  assert (Hloop : world_ok (exec (for_each (values (graph_edges G))
                                    (TinkerGraph_remove_edge g)) w)).
  { apply (for_each_preserves world_ok); [| done].
    intros e w0 Hw0. by apply remove_edge_preserves. }
  unfold exec in *. unfold bind at 1.
  destruct (for_each (values (graph_edges G)) (TinkerGraph_remove_edge g) w)
    as [[[]|x] w1]; simpl in *; [| done].
  unfold bind, get_graph. destruct (graphs w1 !! g) as [G1|]; [| done].
  apply (for_each_preserves world_ok); [| done].
  intros v w0 Hw0. by apply remove_vertex_preserves.
Qed.

Lemma world_ok_close_mark w g G :
  world_ok w → graphs w !! g = Some G → world_ok (close_mark g G w).
Proof.
  intros Hw HG. constructor; simpl; try apply Hw.
  - intros g' G' HG'. destruct (decide (g = g')) as [<- | Hgg].
    + rewrite lookup_insert_eq in HG'. injection HG' as <-.
      split; [| split]; simpl; [intros p r Hp | intros p r Hp | done];
        by rewrite lookup_empty in Hp.
    + rewrite lookup_insert_ne in HG' by done. apply (wo_graphs _ Hw g' G' HG').
  - intros r Hr. apply (wo_fresh_g _ Hw).
    apply lookup_insert_is_Some in Hr as [<- | [_ Hr]]; eauto.
Qed.

(** Disposing a wrapper that no registry holds keeps the invariant, whether
    or not its handle is destroyed natively. *)
Lemma world_ok_dispose_vertex (w : World SpecNative) v V n' tr :
  world_ok w → vertex_objs w !! v = Some V →
  (∀ g G p, graphs w !! g = Some G → graph_vertices G !! p ≠ Some v) →
  n' = native w ∨ n' = sn_without_vertex (vertex_ptr V) (native w) →
  world_ok (mkWorld (graphs w) (<[v := dispose_vertex V]> (vertex_objs w)) (edge_objs w)
                    (next_ref w) n' tr).
Proof.
  intros Hw HV Hfree Hn.
  assert (Hnext : sn_next n' = sn_next (native w)) by (by destruct Hn as [-> | ->]).
  assert (Hne : sn_edges n' = sn_edges (native w)) by (by destruct Hn as [-> | ->]).
  assert (Hnv : ∀ p, p ≠ vertex_ptr V → sn_vertices n' !! p = sn_vertices (native w) !! p).
  { intros p Hp. destruct Hn as [-> | ->]; [done |]. simpl. by rewrite lookup_delete_ne. }
  assert (Hlk : ∀ r V', <[v:=dispose_vertex V]> (vertex_objs w) !! r = Some V' →
                        ∃ V'', vertex_objs w !! r = Some V''
                               ∧ vertex_ptr V'' = vertex_ptr V').
  { intros r V' H. destruct (decide (v = r)) as [<- | Hvr].
    - rewrite lookup_insert_eq in H. injection H as <-. eauto.
    - rewrite lookup_insert_ne in H by done. eauto. }
  constructor; simpl.
  - intros g G HG. destruct (wo_graphs _ Hw g G HG) as (Hvs & Hes & Hcl).
    split; [| split; [| done]].
    + intros p r Hp.
      destruct (Hvs p r Hp) as (V' & id' & HV' & Hptr' & Hd' & Hg' & Hn').
      assert (Hvr : v ≠ r) by (intros ->; by apply (Hfree g G p HG)).
      exists V', id'. simpl. rewrite lookup_insert_ne by done.
      rewrite Hnv; [done |].
      intros Heq. apply Hvr. eapply (wo_vertex_inj _ Hw); [done | done | congruence].
    + intros p r Hp. simpl. rewrite Hne. apply (Hes p r Hp).
  - rewrite Hnext. apply (wo_next _ Hw).
  - intros r V' HV'. rewrite Hnext. destruct (Hlk _ _ HV') as (V'' & HV'' & <-).
    by apply (wo_vertex _ Hw r).
  - intros r E HE. rewrite Hnext. destruct (wo_edge _ Hw r E HE) as (? & Ho & Hi).
    split; [done |]. split; apply lookup_insert_is_Some'; by right.
  - intros r1 r2 V1 V2 H1 H2 Hptr.
    destruct (Hlk _ _ H1) as (V1' & H1' & Hp1).
    destruct (Hlk _ _ H2) as (V2' & H2' & Hp2).
    eapply (wo_vertex_inj _ Hw); [done | done | congruence].
  - apply (wo_edge_inj _ Hw).
  - intros r Hr. apply lookup_insert_is_Some in Hr as [<- | [_ Hr]].
    + apply (wo_fresh_v _ Hw). eauto.
    + by apply (wo_fresh_v _ Hw).
  - apply (wo_fresh_e _ Hw).
  - apply (wo_fresh_g _ Hw).
Qed.

Lemma world_ok_dispose_edge (w : World SpecNative) e E n' tr :
  world_ok w → edge_objs w !! e = Some E →
  (∀ g G p, graphs w !! g = Some G → graph_edges G !! p ≠ Some e) →
  n' = native w ∨ n' = sn_without_edge (edge_ptr E) (native w) →
  world_ok (mkWorld (graphs w) (vertex_objs w) (<[e := dispose_edge E]> (edge_objs w))
                    (next_ref w) n' tr).
Proof.
  intros Hw HE Hfree Hn.
  assert (Hnext : sn_next n' = sn_next (native w)) by (by destruct Hn as [-> | ->]).
  assert (Hnv : sn_vertices n' = sn_vertices (native w)) by (by destruct Hn as [-> | ->]).
  assert (Hne : ∀ p, p ≠ edge_ptr E → sn_edges n' !! p = sn_edges (native w) !! p).
  { intros p Hp. destruct Hn as [-> | ->]; [done |]. simpl. by rewrite lookup_delete_ne. }
  assert (Hlk : ∀ r E', <[e:=dispose_edge E]> (edge_objs w) !! r = Some E' →
                        ∃ E'', edge_objs w !! r = Some E''
                               ∧ edge_ptr E'' = edge_ptr E'
                               ∧ edge_out_vertex E'' = edge_out_vertex E'
                               ∧ edge_in_vertex E'' = edge_in_vertex E').
  { intros r E' H. destruct (decide (e = r)) as [<- | Her].
    - rewrite lookup_insert_eq in H. injection H as <-. eauto.
    - rewrite lookup_insert_ne in H by done. eauto. }
  constructor; simpl.
  - intros g G HG. destruct (wo_graphs _ Hw g G HG) as (Hvs & Hes & Hcl).
    split; [| split; [| done]].
    + intros p r Hp. simpl. rewrite Hnv. apply (Hvs p r Hp).
    + intros p r Hp.
      destruct (Hes p r Hp) as (E' & l' & HE' & Hptr' & Hd' & Hg' & Hn').
      assert (Her : e ≠ r) by (intros ->; by apply (Hfree g G p HG)).
      exists E', l'. simpl. rewrite lookup_insert_ne by done.
      rewrite Hne; [done |].
      intros Heq. apply Her. eapply (wo_edge_inj _ Hw); [done | done | congruence].
  - rewrite Hnext. apply (wo_next _ Hw).
  - intros r V HV. rewrite Hnext. by apply (wo_vertex _ Hw r).
  - intros r E' HE'. rewrite Hnext.
    destruct (Hlk _ _ HE') as (E'' & HE'' & <- & <- & <-).
    by apply (wo_edge _ Hw r).
  - apply (wo_vertex_inj _ Hw).
  - intros r1 r2 E1 E2 H1 H2 Hptr.
    destruct (Hlk _ _ H1) as (E1' & H1' & Hp1 & _).
    destruct (Hlk _ _ H2) as (E2' & H2' & Hp2 & _).
    eapply (wo_edge_inj _ Hw); [done | done | congruence].
  - apply (wo_fresh_v _ Hw).
  - intros r Hr. apply lookup_insert_is_Some in Hr as [<- | [_ Hr]].
    + apply (wo_fresh_e _ Hw). eauto.
    + by apply (wo_fresh_e _ Hw).
  - apply (wo_fresh_g _ Hw).
Qed.

(** A cleanup inside [close], seen with the graph already marked closed. *)
Lemma close_step_vertex (w : World SpecNative) g G v V :
  graphs w !! g = Some G → graph_closed G = false →
  world_ok (close_mark g G w) →
  vertex_objs w !! v = Some V → vertex_graph_ref V = g →
  world_ok (close_mark g G (exec (Vertex__cleanup v) w))
  ∧ same_shape w (exec (Vertex__cleanup v) w).
Proof.
  intros HG Hopen Hw HV Hg.
  destruct (vertex_disposed V) eqn:Hd.
  { unfold exec, Vertex__cleanup. rewrite (bind_ok _ _ _ _ _ (get_vertex_ok _ _ _ HV)).
    rewrite Hd. simpl. split; [done | apply same_shape_refl]. }
  pose proof (wo_vertex _ Hw v V HV) as [Hpos _].
  destruct (Vertex__cleanup_effect w g G v V HG Hopen HV Hd) as (n' & cs & Hrun & Hn);
    [lia | done |].
  unfold exec. rewrite Hrun. simpl. split.
  - apply (world_ok_dispose_vertex (close_mark g G w) v V n' _ Hw HV); [| done].
    intros g' G' p HG' Hp. simpl in HG'.
    destruct (decide (g = g')) as [<- | Hgg].
    + rewrite lookup_insert_eq in HG'. injection HG' as <-. simpl in Hp.
      by rewrite lookup_empty in Hp.
    + destruct (wo_graphs _ Hw g' G' HG') as (Hvs & _).
      destruct (Hvs p v Hp) as (V' & ? & HV' & _ & _ & Hg' & _).
      simpl in HV'. rewrite HV in HV'. injection HV' as <-. congruence.
  - split; [done |]. split; simpl; [| eauto].
    intros r V0 HV0. destruct (decide (v = r)) as [<- | Hne].
    + rewrite lookup_insert_eq. rewrite HV in HV0. injection HV0 as <-. eauto.
    + rewrite lookup_insert_ne by done. eauto.
Qed.

Lemma close_step_edge (w : World SpecNative) g G e E :
  graphs w !! g = Some G → graph_closed G = false →
  world_ok (close_mark g G w) →
  edge_objs w !! e = Some E → edge_graph_ref E = g →
  world_ok (close_mark g G (exec (Edge__cleanup e) w))
  ∧ same_shape w (exec (Edge__cleanup e) w).
Proof.
  intros HG Hopen Hw HE Hg.
  destruct (edge_disposed E) eqn:Hd.
  { unfold exec, Edge__cleanup. rewrite (bind_ok _ _ _ _ _ (get_edge_ok _ _ _ HE)).
    rewrite Hd. simpl. split; [done | apply same_shape_refl]. }
  pose proof (wo_edge _ Hw e E HE) as [Hpos _].
  destruct (Edge__cleanup_effect w g G e E HG Hopen HE Hd) as (n' & cs & Hrun & Hn);
    [lia | done |].
  unfold exec. rewrite Hrun. simpl. split.
  - apply (world_ok_dispose_edge (close_mark g G w) e E n' _ Hw HE); [| done].
    intros g' G' p HG' Hp. simpl in HG'.
    destruct (decide (g = g')) as [<- | Hgg].
    + rewrite lookup_insert_eq in HG'. injection HG' as <-. simpl in Hp.
      by rewrite lookup_empty in Hp.
    + destruct (wo_graphs _ Hw g' G' HG') as (_ & Hes & _).
      destruct (Hes p e Hp) as (E' & ? & HE' & _ & _ & Hg' & _).
      simpl in HE'. rewrite HE in HE'. injection HE' as <-. congruence.
  - split; [done |]. split; simpl; [eauto |].
    intros r E0 HE0. destruct (decide (e = r)) as [<- | Hne].
    + rewrite lookup_insert_eq. rewrite HE in HE0. injection HE0 as <-. eauto.
    + rewrite lookup_insert_ne by done. eauto.
Qed.

(** [close] keeps the invariant. *)
Lemma close_preserves (w : World SpecNative) g :
  world_ok w → world_ok (exec (TinkerGraph_close g) w).
Proof.
  intros Hw. unfold TinkerGraph_close.
  destruct (graphs w !! g) as [G|] eqn:HG.
  2:{ unfold exec, bind, get_graph. by rewrite HG. }
  rewrite (exec_bind_ok _ _ _ _ _ (get_graph_ok _ _ _ HG)).
  destruct (graph_closed G) eqn:Hopen; [done |]. simpl.
  destruct (wo_graphs _ Hw g G HG) as (Hvs & Hes & _).
  set (P := λ w', world_ok (close_mark g G w') ∧ same_shape w w').
  assert (HP0 : P w) by (split; [by apply world_ok_close_mark | apply same_shape_refl]).
  assert (HP1 : P (exec (for_each (values (graph_vertices G)) Vertex__cleanup) w)).
  { apply (for_each_preserves_in P); [| done].
    intros v w0 Hv [Hw0 Hs0]. apply elem_of_values in Hv as [p Hp].
    destruct (Hvs p v Hp) as (V & ? & HV & _ & _ & Hg & _).
    destruct Hs0 as (Hg0 & Hv0 & He0).
    destruct (Hv0 v V HV) as (V' & HV' & Hg').
    assert (HG0 : graphs w0 !! g = Some G) by (by rewrite Hg0).
    destruct (close_step_vertex w0 g G v V' HG0 Hopen Hw0 HV') as [Hw1 Hs1];
      [congruence |].
    split; [done |]. eapply same_shape_trans; [| done]. done. }
  assert (Hsafe : cleanup_safe w g).
  { intros G0 HG0. rewrite HG in HG0. by injection HG0 as <-. }
  destruct (cleanup_vertices_returns (values (graph_vertices G)) w) as (w1 & Hrun1 & _).
  { intros v Hv. apply elem_of_values in Hv as [p Hp].
    destruct (Hvs p v Hp) as (V & ? & HV & _ & _ & Hg & _).
    exists V. split; [done |]. by rewrite Hg. }
  unfold exec in HP1. rewrite Hrun1 in HP1. simpl in HP1.
  rewrite (exec_bind_ok _ _ _ _ _ Hrun1).
  destruct HP1 as [Hw1 Hs1]. pose proof Hs1 as (Hg1 & Hv1 & He1).
  assert (HG1 : graphs w1 !! g = Some G) by (by rewrite Hg1).
  assert (HP2 : P (exec (for_each (values (graph_edges G)) Edge__cleanup) w1)).
  { apply (for_each_preserves_in P); [| done].
    intros e w0 He [Hw0 Hs0]. apply elem_of_values in He as [p Hp].
    destruct (Hes p e Hp) as (E & ? & HE & _ & _ & Hg & _).
    destruct Hs0 as (Hg0 & Hv0 & He0).
    destruct (He0 e E HE) as (E' & HE' & Hg').
    assert (HG0 : graphs w0 !! g = Some G) by (by rewrite Hg0).
    destruct (close_step_edge w0 g G e E' HG0 Hopen Hw0 HE') as [Hw2 Hs2];
      [congruence |].
    split; [done |]. eapply same_shape_trans; [| done]. done. }
  destruct (cleanup_edges_returns (values (graph_edges G)) w1) as (w2 & Hrun2 & _).
  { intros e He. apply elem_of_values in He as [p Hp].
    destruct (Hes p e Hp) as (E & ? & HE & _ & _ & Hg & _).
    destruct (He1 e E HE) as (E' & HE' & Hg').
    exists E'. split; [done |]. rewrite Hg', Hg.
    intros G0 HG0. rewrite HG1 in HG0. by injection HG0 as <-. }
  unfold exec in HP2. rewrite Hrun2 in HP2. simpl in HP2.
  rewrite (exec_bind_ok _ _ _ _ _ Hrun2).
  destruct HP2 as [Hw2 (Hg2 & _)].
  assert (HG2 : graphs w2 !! g = Some G) by (by rewrite Hg2).
  rewrite (exec_bind_ok _ _ _ _ _ (get_graph_ok _ _ _ HG2)).
  exact Hw2.
Qed.

(** The invariant after a vertex with a fresh handle and a fresh wrapper was
    registered. *)
Lemma world_ok_add_vertex (w w' : World SpecNative) g G G' V id' err :
  world_ok w → graphs w !! g = Some G →
  vertex_ptr V = sn_next (native w) → vertex_disposed V = false →
  vertex_graph_ref V = g →
  graph_vertices G' = <[sn_next (native w) := next_ref w]> (graph_vertices G) →
  graph_edges G' = graph_edges G → graph_closed G' = false →
  graph_native G' = graph_native G →
  graphs w' = <[g := G']> (graphs w) →
  vertex_objs w' = <[next_ref w := V]> (vertex_objs w) →
  edge_objs w' = edge_objs w →
  next_ref w' = S (next_ref w) →
  native w' = mkSpecNative (sn_next (native w) + 1) (sn_graphs (native w))
                (<[sn_next (native w) := (graph_native G, id')]> (sn_vertices (native w)))
                (sn_edges (native w)) err →
  world_ok w'.
Proof.
  intros Hw HG Hptr Hd Hg Hvs' Hes' Hc' Hn' Hgr Hvo Heo Hnr Hnat.
  pose proof (wo_next _ Hw) as Hnext.
  assert (Hold : ∀ r V0, vertex_objs w !! r = Some V0 →
                         next_ref w ≠ r ∧ vertex_ptr V0 ≠ sn_next (native w)).
  { intros r V0 HV0. pose proof (wo_fresh_v _ Hw r (mk_is_Some _ _ HV0)).
    pose proof (wo_vertex _ Hw r V0 HV0). split; lia. }
  assert (Hvs_old : ∀ g0 G0 p r,
            graphs w !! g0 = Some G0 → graph_vertices G0 !! p = Some r →
            ∃ V0 id0, vertex_objs w' !! r = Some V0 ∧ vertex_ptr V0 = p
                      ∧ vertex_disposed V0 = false ∧ vertex_graph_ref V0 = g0
                      ∧ sn_vertices (native w') !! p = Some (graph_native G0, id0)).
  { intros g0 G0 p r HG0 Hp. destruct (wo_graphs _ Hw g0 G0 HG0) as (Hvs & _).
    destruct (Hvs p r Hp) as (V0 & id0 & HV0 & Hp0 & Hrest).
    destruct (Hold r V0 HV0) as [Hr Hq].
    exists V0, id0. rewrite Hvo, Hnat. simpl.
    rewrite lookup_insert_ne by done. rewrite lookup_insert_ne by congruence. done. }
  assert (Hes_old : ∀ g0 G0 p r,
            graphs w !! g0 = Some G0 → graph_edges G0 !! p = Some r →
            ∃ E l, edge_objs w' !! r = Some E ∧ edge_ptr E = p
                   ∧ edge_disposed E = false ∧ edge_graph_ref E = g0
                   ∧ sn_edges (native w') !! p = Some (graph_native G0, l)).
  { intros g0 G0 p r HG0 Hp. destruct (wo_graphs _ Hw g0 G0 HG0) as (_ & Hes & _).
    rewrite Heo, Hnat. simpl. apply (Hes p r Hp). }
  assert (Hlk : ∀ r V0, vertex_objs w' !! r = Some V0 →
                        (r = next_ref w ∧ V0 = V) ∨ (vertex_objs w !! r = Some V0)).
  { intros r V0. rewrite Hvo. intros H.
    apply lookup_insert_Some in H as [[<- <-] | [_ H]]; eauto. }
  constructor.
  - intros g0 G0. rewrite Hgr. intros HG0.
    destruct (decide (g = g0)) as [<- | Hgg].
    + rewrite lookup_insert_eq in HG0. injection HG0 as <-.
      split; [| split].
      * intros p r. rewrite Hvs'. intros Hp.
        apply lookup_insert_Some in Hp as [[<- <-] | [Hne Hp]].
        -- exists V, id'. rewrite Hvo, Hnat, Hn'. simpl. rewrite !lookup_insert_eq. done.
        -- rewrite Hn'. by apply (Hvs_old g G).
      * intros p r. rewrite Hes', Hn'. by apply (Hes_old g G).
      * rewrite Hc'. done.
    + rewrite lookup_insert_ne in HG0 by done.
      split; [| split].
      * intros p r. by apply (Hvs_old g0 G0).
      * intros p r. by apply (Hes_old g0 G0).
      * apply (wo_graphs _ Hw g0 G0 HG0).
  - rewrite Hnat. simpl. lia.
  - intros r V0 HV0. rewrite Hnat. simpl.
    destruct (Hlk r V0 HV0) as [[-> ->] | H0].
    + rewrite Hptr. lia.
    + pose proof (wo_vertex _ Hw r V0 H0). lia.
  - intros r E. rewrite Heo, Hnat, Hvo. simpl. intros HE.
    destruct (wo_edge _ Hw r E HE) as (? & Ho & Hi).
    split; [lia |]. split; apply lookup_insert_is_Some'; by right.
  - intros r1 r2 V1 V2 H1 H2 Hpp.
    destruct (Hlk r1 V1 H1) as [[-> ->] | H1'];
      destruct (Hlk r2 V2 H2) as [[-> ->] | H2']; [done | | |].
    + destruct (Hold r2 V2 H2'). congruence.
    + destruct (Hold r1 V1 H1'). congruence.
    + by eapply (wo_vertex_inj _ Hw).
  - rewrite Heo. apply (wo_edge_inj _ Hw).
  - intros r. rewrite Hvo, Hnr. intros Hr.
    apply lookup_insert_is_Some in Hr as [<- | [_ Hr]]; [lia |].
    pose proof (wo_fresh_v _ Hw r Hr). lia.
  - intros r. rewrite Heo, Hnr. intros Hr. pose proof (wo_fresh_e _ Hw r Hr). lia.
  - intros r. rewrite Hgr, Hnr. intros Hr.
    apply lookup_insert_is_Some in Hr as [<- | [_ Hr]].
    + pose proof (wo_fresh_g _ Hw g (mk_is_Some _ _ HG)). lia.
    + pose proof (wo_fresh_g _ Hw r Hr). lia.
Qed.

(** The invariant does not read the trace, the last error or the id counter. *)
Lemma world_ok_same (w w' : World SpecNative) :
  world_ok w →
  graphs w' = graphs w → vertex_objs w' = vertex_objs w → edge_objs w' = edge_objs w →
  next_ref w' = next_ref w →
  sn_next (native w') = sn_next (native w) →
  sn_vertices (native w') = sn_vertices (native w) →
  sn_edges (native w') = sn_edges (native w) →
  world_ok w'.
Proof.
  intros Hw Hg Hvo Heo Hnr Hn Hnv Hne.
  constructor; rewrite ?Hg, ?Hvo, ?Heo, ?Hnr, ?Hn; try apply Hw.
  intros g G HG. destruct (wo_graphs _ Hw g G HG) as (Hvs & Hes & Hc).
  split; [| split; [| done]].
  - intros p r Hp. rewrite Hvo, Hnv. by apply Hvs.
  - intros p r Hp. rewrite Heo, Hne. by apply Hes.
Qed.

Lemma spec_add_vertex_call G L vid props (n : SpecNative) :
  native_call (add_vertex_call G L vid props) n
  = sn_new_vertex (graph_native G) (id_bytes vid) n.
Proof. unfold add_vertex_call. by destruct (bool_decide _). Qed.

Lemma add_vertex_valid_preserves (w : World SpecNative) g L vid props :
  world_ok w →
  world_ok (exec (TinkerGraph_add_vertex g (VStr L) (opt_value vid) props) w).
Proof.
  intros Hw.
  destruct (check_not_closed_cases w g) as [(G & HG & Hopen & Hck) | (x & Hck)].
  2:{ unfold TinkerGraph_add_vertex. by rewrite (exec_bind_raise _ _ _ _ _ Hck). }
  destruct (add_vertex_encodable L vid props) eqn:Henc;
    [| unfold exec; by rewrite (add_vertex_unencodable w g G L vid props HG Hopen Henc)].
  pose proof (add_vertex_spec w g G L vid props HG Hopen Henc) as Hspec. simpl in Hspec.
  rewrite spec_add_vertex_call in Hspec.
  pose proof (wo_next _ Hw) as Hnext.
  unfold sn_new_vertex in Hspec.
  destruct (bool_decide (graph_native G ∈ sn_graphs (native w))) eqn:Hin;
    simpl in Hspec.
  - destruct Hspec as [(e & _ & _ & Hz) | (w' & G' & id & rest & Hm & Hgr & Hvs & Hes
                                           & Hc & Hn & Hvo & Heo & _ & _ & Hnr & Hnat)];
      [lia |].
    unfold exec. rewrite Hm. simpl.
    apply (world_ok_add_vertex w w' g G G'
             (mkVertex g (sn_next (native w)) id L props false)
             (default (pretty (sn_next (native w))) (id_bytes vid))
             (sn_last_error (native w))
             Hw HG eq_refl eq_refl eq_refl Hvs Hes Hc Hn Hgr Hvo Heo Hnr).
    by destruct Hnat.
  - destruct Hspec as [(e & Hm & _) | (w' & G' & id & rest & _ & _ & _ & _
                                       & _ & _ & _ & _ & _ & Hz & _)]; [| done].
    unfold exec. rewrite Hm. simpl.
    apply (world_ok_same w); try done;
      unfold called; simpl; rewrite spec_add_vertex_call; unfold sn_new_vertex;
      by rewrite Hin.
Qed.

(** [add_vertex] keeps the invariant, whatever its arguments. *)
Lemma add_vertex_preserves (w : World SpecNative) g label vertex_id props :
  world_ok w → world_ok (exec (TinkerGraph_add_vertex g label vertex_id props) w).
Proof.
  intros Hw.
  assert (Hbad : ∀ l i, (match l with VNone | VStr _ => False | _ => True end
                         ∨ match i with VNone | VStr _ => False | _ => True end) →
                        exec (TinkerGraph_add_vertex g l i props) w = w).
  { intros l i Hli. unfold TinkerGraph_add_vertex.
    destruct (check_not_closed_cases w g) as [(G & HG & Hopen & Hck) | (x & Hck)];
      [| by rewrite (exec_bind_raise _ _ _ _ _ Hck)].
    rewrite (exec_bind_ok _ _ _ _ _ Hck).
    destruct l; destruct i; destruct Hli as [[] | []]; reflexivity. }
  destruct label as [| b | z | L]; try (rewrite Hbad; [done | by left]);
    destruct vertex_id as [| b | z | s]; try (rewrite Hbad; [done | by right]).
  - apply (add_vertex_valid_preserves w g "vertex" None props Hw).
  - apply (add_vertex_valid_preserves w g "vertex" (Some s) props Hw).
  - apply (add_vertex_valid_preserves w g L None props Hw).
  - apply (add_vertex_valid_preserves w g L (Some s) props Hw).
Qed.

(** The invariant after an edge with a fresh handle and a fresh wrapper was
    registered. *)
Lemma world_ok_add_edge (w : World SpecNative) g G E l err tr :
  world_ok w → graphs w !! g = Some G → graph_closed G = false →
  edge_ptr E = sn_next (native w) → edge_disposed E = false → edge_graph_ref E = g →
  is_Some (vertex_objs w !! edge_out_vertex E) →
  is_Some (vertex_objs w !! edge_in_vertex E) →
  world_ok
    (mkWorld (<[g := set_edges G (<[sn_next (native w) := next_ref w]> (graph_edges G))]>
                (graphs w))
             (vertex_objs w) (<[next_ref w := E]> (edge_objs w)) (S (next_ref w))
             (mkSpecNative (sn_next (native w) + 1) (sn_graphs (native w))
                (sn_vertices (native w))
                (<[sn_next (native w) := (graph_native G, l)]> (sn_edges (native w))) err)
             tr).
Proof.
  intros Hw HG Hopen Hptr Hd Hg Ho Hi.
  pose proof (wo_next _ Hw) as Hnext.
  assert (Hold : ∀ r E0, edge_objs w !! r = Some E0 →
                         next_ref w ≠ r ∧ edge_ptr E0 ≠ sn_next (native w)).
  { intros r E0 HE0. pose proof (wo_fresh_e _ Hw r (mk_is_Some _ _ HE0)).
    destruct (wo_edge _ Hw r E0 HE0) as [? _]. split; lia. }
  assert (Hes_old : ∀ g0 G0 p r,
            graphs w !! g0 = Some G0 → graph_edges G0 !! p = Some r →
            ∃ E0 l0, <[next_ref w := E]> (edge_objs w) !! r = Some E0 ∧ edge_ptr E0 = p
                     ∧ edge_disposed E0 = false ∧ edge_graph_ref E0 = g0
                     ∧ <[sn_next (native w) := (graph_native G, l)]> (sn_edges (native w))
                         !! p = Some (graph_native G0, l0)).
  { intros g0 G0 p r HG0 Hp. destruct (wo_graphs _ Hw g0 G0 HG0) as (_ & Hes & _).
    destruct (Hes p r Hp) as (E0 & l0 & HE0 & Hp0 & Hrest).
    destruct (Hold r E0 HE0) as [Hr Hq].
    exists E0, l0. rewrite lookup_insert_ne by done.
    rewrite lookup_insert_ne by congruence. done. }
  assert (Hlk : ∀ r E0, <[next_ref w := E]> (edge_objs w) !! r = Some E0 →
                        (r = next_ref w ∧ E0 = E) ∨ (edge_objs w !! r = Some E0)).
  { intros r E0 H. apply lookup_insert_Some in H as [[<- <-] | [_ H]]; eauto. }
  constructor; simpl.
  - intros g0 G0 HG0. destruct (decide (g = g0)) as [<- | Hgg].
    + rewrite lookup_insert_eq in HG0. injection HG0 as <-.
      destruct (wo_graphs _ Hw g G HG) as (Hvs & _ & _).
      split; [| split]; simpl.
      * intros p r Hp. apply (Hvs p r Hp).
      * intros p r Hp. apply lookup_insert_Some in Hp as [[<- <-] | [Hne Hp]].
        -- exists E, l. rewrite !lookup_insert_eq. done.
        -- by apply (Hes_old g G).
      * rewrite Hopen. done.
    + rewrite lookup_insert_ne in HG0 by done.
      destruct (wo_graphs _ Hw g0 G0 HG0) as (Hvs & _ & Hc).
      split; [| split; [| done]]; simpl.
      * intros p r Hp. apply (Hvs p r Hp).
      * intros p r. by apply (Hes_old g0 G0).
  - lia.
  - intros r V HV. pose proof (wo_vertex _ Hw r V HV). lia.
  - intros r E0 HE0. destruct (Hlk r E0 HE0) as [[-> ->] | H0].
    + rewrite Hptr. split; [lia | done].
    + destruct (wo_edge _ Hw r E0 H0) as (? & ? & ?). split; [lia | done].
  - apply (wo_vertex_inj _ Hw).
  - intros r1 r2 E1 E2 H1 H2 Hpp.
    destruct (Hlk r1 E1 H1) as [[-> ->] | H1'];
      destruct (Hlk r2 E2 H2) as [[-> ->] | H2']; [done | | |].
    + destruct (Hold r2 E2 H2'). congruence.
    + destruct (Hold r1 E1 H1'). congruence.
    + by eapply (wo_edge_inj _ Hw).
  - intros r Hr. pose proof (wo_fresh_v _ Hw r Hr). lia.
  - intros r Hr. apply lookup_insert_is_Some in Hr as [<- | [_ Hr]]; [lia |].
    pose proof (wo_fresh_e _ Hw r Hr). lia.
  - intros r Hr. apply lookup_insert_is_Some in Hr as [<- | [_ Hr]].
    + pose proof (wo_fresh_g _ Hw g (mk_is_Some _ _ HG)). lia.
    + pose proof (wo_fresh_g _ Hw r Hr). lia.
Qed.

Lemma Vertex__graph_cases {NS} (w : World NS) v :
  (∃ V, vertex_objs w !! v = Some V
        ∧ Vertex__graph v w = (Ok (graph_of w (vertex_graph_ref V)), w))
  ∨ (∃ x, Vertex__graph v w = (Raise x, w)).
Proof.
  destruct (vertex_objs w !! v) as [V|] eqn:HV.
  - left. exists V. split; [done |]. by apply Vertex__graph_eq.
  - right. unfold Vertex__graph, bind, get_vertex. rewrite HV. eauto.
Qed.

(** [add_edge] keeps the invariant, whatever its arguments. *)
Lemma add_edge_preserves (w : World SpecNative) g label o i edge_id props :
  world_ok w → world_ok (exec (TinkerGraph_add_edge g label o i edge_id props) w).
Proof.
  intros Hw. unfold TinkerGraph_add_edge.
  destruct (check_not_closed_cases w g) as [(G & HG & Hopen & Hck) | (x & Hck)];
    [| by rewrite (exec_bind_raise _ _ _ _ _ Hck)].
  rewrite (exec_bind_ok _ _ _ _ _ Hck).
  destruct label as [| b | z | L]; try done.
  rewrite (exec_bind_ok _ _ _ _ _ (eq_refl : ret L w = (Ok L, w))).
  destruct o as [a | x]; [| done].
  rewrite (exec_bind_ok _ _ _ _ _ (eq_refl : ret a w = (Ok a, w))).
  destruct i as [b | x]; [| done].
  rewrite (exec_bind_ok _ _ _ _ _ (eq_refl : ret b w = (Ok b, w))).
  destruct (Vertex__graph_cases w a) as [(A & HA & HgA) | (x & HgA)];
    [| by rewrite (exec_bind_raise _ _ _ _ _ HgA)].
  rewrite (exec_bind_ok _ _ _ _ _ HgA).
  destruct (Vertex__graph_cases w b) as [(B & HB & HgB) | (x & HgB)];
    [| by rewrite (exec_bind_raise _ _ _ _ _ HgB)].
  rewrite (exec_bind_ok _ _ _ _ _ HgB).
  destruct (negb _ || negb _); [done |].
  unfold exec, try_except_as.
  rewrite (bind_ok _ _ _ _ _ (get_graph_ok _ _ _ HG)).
  rewrite (bind_ok _ _ _ _ _ (get_vertex_ok _ _ _ HA)).
  rewrite (bind_ok _ _ _ _ _ (get_vertex_ok _ _ _ HB)).
  unfold bind at 1.
  destruct (add_edge_encodable L props) eqn:Henc;
    [| by rewrite add_edge_native_step, Henc].
  assert (Hcall : ∃ c,
    (if bool_decide (props = ∅)
     then NativeGraphHandle_add_edge (graph_native G) L (vertex_ptr A) (vertex_ptr B)
     else NativeGraphHandle_add_edge_with_properties (graph_native G) L
            (vertex_ptr A) (vertex_ptr B) props) w
    = (let r := (sn_new_edge (graph_native G) L (vertex_ptr A) (vertex_ptr B)
                   (native w)).1.1 in
       if bool_decide (r = 0)
       then Raise (mkExc TinkerGraphNativeError
                     (if bool_decide (props = ∅)
                      then "Native operation 'add_edge' failed: "
                           ++ "Failed to add edge with label '" ++ L ++ "'"
                      else "Native operation 'add_edge_with_properties' failed: "
                           ++ "Failed to add edge with label '" ++ L
                           ++ "' and properties " ++ py_repr_dict props))
       else Ok r,
       mkWorld (graphs w) (vertex_objs w) (edge_objs w) (next_ref w)
               (sn_new_edge (graph_native G) L (vertex_ptr A) (vertex_ptr B) (native w)).2
               (trace w ++ [c]))).
  { exists (add_edge_call G L (vertex_ptr A) (vertex_ptr B) props).
    rewrite add_edge_native_step, Henc.
    unfold add_edge_call, add_edge_native_message.
    destruct (bool_decide (props = ∅)); reflexivity. }
  destruct Hcall as [c Hcall]. rewrite Hcall. clear Hcall.
  pose proof (wo_next _ Hw) as Hnext.
  unfold sn_new_edge.
  destruct (bool_decide (graph_native G ∈ sn_graphs (native w))
            && sn_vertex_of (graph_native G) (vertex_ptr A) (native w)
            && sn_vertex_of (graph_native G) (vertex_ptr B) (native w)); simpl.
  - rewrite bool_decide_eq_false_2 by lia. simpl.
    unfold bind, new_ref, put_edge, get_graph, put_graph, ret. simpl. rewrite HG. simpl.
    apply world_ok_add_edge; simpl; eauto.
  - apply (world_ok_same w); done.
Qed.

(** [TinkerGraph()] keeps the invariant. *)
Lemma init_preserves (w : World SpecNative) :
  world_ok w → world_ok (exec TinkerGraph_init w).
Proof.
  intros Hw. pose proof (wo_next _ Hw) as Hnext.
  unfold exec, TinkerGraph_init, try_except_as, NativeGraphHandle_init,
    raise_native_error.
  unfold bind at 1. rewrite null_checked_call. simpl.
  rewrite bool_decide_eq_false_2 by lia. simpl.
  unfold bind, new_ref, put_graph, ret. simpl.
  constructor; simpl.
  - intros g G HG. apply lookup_insert_Some in HG as [[<- <-] | [Hne HG]].
    + split; [| split]; simpl; [intros p r Hp | intros p r Hp | done];
        by rewrite lookup_empty in Hp.
    + apply (wo_graphs _ Hw g G HG).
  - lia.
  - intros r V HV. pose proof (wo_vertex _ Hw r V HV). lia.
  - intros r E HE. destruct (wo_edge _ Hw r E HE) as (? & ? & ?). split; [lia | done].
  - apply (wo_vertex_inj _ Hw).
  - apply (wo_edge_inj _ Hw).
  - intros r Hr. pose proof (wo_fresh_v _ Hw r Hr). lia.
  - intros r Hr. pose proof (wo_fresh_e _ Hw r Hr). lia.
  - intros r Hr. apply lookup_insert_is_Some in Hr as [<- | [_ Hr]]; [lia |].
    pose proof (wo_fresh_g _ Hw r Hr). lia.
Qed.

(** Replacing the overlay of a wrapper keeps the invariant. *)
Lemma world_ok_set_properties (w : World SpecNative) v V d tr :
  world_ok w → vertex_objs w !! v = Some V →
  world_ok (mkWorld (graphs w) (<[v := set_properties V d]> (vertex_objs w)) (edge_objs w)
                    (next_ref w) (native w) tr).
Proof.
  intros Hw HV.
  assert (Hlk : ∀ r V', <[v := set_properties V d]> (vertex_objs w) !! r = Some V' →
                        ∃ V'', vertex_objs w !! r = Some V''
                               ∧ vertex_ptr V'' = vertex_ptr V'
                               ∧ vertex_disposed V'' = vertex_disposed V'
                               ∧ vertex_graph_ref V'' = vertex_graph_ref V').
  { intros r V' H. destruct (decide (v = r)) as [<- | Hvr].
    - rewrite lookup_insert_eq in H. injection H as <-. eauto.
    - rewrite lookup_insert_ne in H by done. eauto. }
  constructor; simpl; try apply Hw.
  - intros g G HG. destruct (wo_graphs _ Hw g G HG) as (Hvs & Hes & Hcl).
    split; [| split; [done | done]].
    intros p r Hp. destruct (Hvs p r Hp) as (V' & id' & HV' & Hptr' & Hd' & Hg' & Hn').
    destruct (decide (v = r)) as [<- | Hvr].
    + rewrite HV in HV'. injection HV' as <-.
      exists (set_properties V d), id'. simpl. by rewrite lookup_insert_eq.
    + exists V', id'. simpl. by rewrite lookup_insert_ne.
  - intros r V' HV'. destruct (Hlk _ _ HV') as (V'' & HV'' & <- & _).
    by apply (wo_vertex _ Hw r).
  - intros r E HE. destruct (wo_edge _ Hw r E HE) as (? & Ho & Hi).
    split; [done |]. split; apply lookup_insert_is_Some'; by right.
  - intros r1 r2 V1 V2 H1 H2 Hptr.
    destruct (Hlk _ _ H1) as (V1' & H1' & Hp1 & _).
    destruct (Hlk _ _ H2) as (V2' & H2' & Hp2 & _).
    eapply (wo_vertex_inj _ Hw); [done | done | congruence].
  - intros r Hr. apply lookup_insert_is_Some in Hr as [<- | [_ Hr]].
    + apply (wo_fresh_v _ Hw). eauto.
    + by apply (wo_fresh_v _ Hw).
Qed.

Lemma set_property_preserves (w : World SpecNative) v key val :
  world_ok w → world_ok (exec (Vertex_set_property v key val) w).
Proof.
  intros Hw. destruct key as [| b | z | k]; try done.
  unfold Vertex_set_property.
  destruct (get_vertex_cases w v) as [(V & HV & Hgv) | (x & Hgv)];
    [| by rewrite (exec_bind_raise _ _ _ _ _ Hgv)].
  rewrite (exec_bind_ok _ _ _ _ _ Hgv).
  by apply world_ok_set_properties.
Qed.

Lemma remove_property_preserves (w : World SpecNative) v key :
  world_ok w → world_ok (exec (Vertex_remove_property v key) w).
Proof.
  intros Hw. unfold Vertex_remove_property.
  destruct (get_vertex_cases w v) as [(V & HV & Hgv) | (x & Hgv)];
    [| by rewrite (exec_bind_raise _ _ _ _ _ Hgv)].
  rewrite (exec_bind_ok _ _ _ _ _ Hgv).
  destruct key as [| b | z | k]; try done.
  unfold exec, bind, put_vertex, ret. simpl.
  by apply world_ok_set_properties.
Qed.

Lemma world_ok_set_edge_properties (w : World SpecNative) e E d tr :
  world_ok w → edge_objs w !! e = Some E →
  world_ok (mkWorld (graphs w) (vertex_objs w) (<[e := set_edge_properties E d]> (edge_objs w))
                    (next_ref w) (native w) tr).
Proof.
  intros Hw HE.
  assert (Hlk : ∀ r E', <[e := set_edge_properties E d]> (edge_objs w) !! r = Some E' →
                        ∃ E'', edge_objs w !! r = Some E''
                               ∧ edge_ptr E'' = edge_ptr E'
                               ∧ edge_out_vertex E'' = edge_out_vertex E'
                               ∧ edge_in_vertex E'' = edge_in_vertex E').
  { intros r E' H. destruct (decide (e = r)) as [<- | Her].
    - rewrite lookup_insert_eq in H. injection H as <-. eauto.
    - rewrite lookup_insert_ne in H by done. eauto. }
  constructor; simpl; try apply Hw.
  - intros g G HG. destruct (wo_graphs _ Hw g G HG) as (Hvs & Hes & Hcl).
    split; [done | split; [| done]].
    intros p r Hp. destruct (Hes p r Hp) as (E' & l & HE' & Hptr' & Hd' & Hg' & Hn').
    destruct (decide (e = r)) as [<- | Her].
    + rewrite HE in HE'. injection HE' as <-.
      exists (set_edge_properties E d), l. simpl. by rewrite lookup_insert_eq.
    + exists E', l. simpl. by rewrite lookup_insert_ne.
  - intros r E' HE'. destruct (Hlk _ _ HE') as (E'' & HE'' & <- & <- & <-).
    by apply (wo_edge _ Hw r).
  - intros r1 r2 E1 E2 H1 H2 Hptr.
    destruct (Hlk _ _ H1) as (E1' & H1' & Hp1 & _).
    destruct (Hlk _ _ H2) as (E2' & H2' & Hp2 & _).
    eapply (wo_edge_inj _ Hw); [done | done | congruence].
  - intros r Hr. apply lookup_insert_is_Some in Hr as [<- | [_ Hr]].
    + apply (wo_fresh_e _ Hw). eauto.
    + by apply (wo_fresh_e _ Hw).
Qed.

Lemma edge_set_property_preserves (w : World SpecNative) e key val :
  world_ok w → world_ok (exec (Edge_set_property e key val) w).
Proof.
  intros Hw. destruct key as [| b | z | k]; try done.
  unfold Edge_set_property.
  destruct (get_edge_cases w e) as [(E & HE & Hge) | (x & Hge)];
    [| by rewrite (exec_bind_raise _ _ _ _ _ Hge)].
  rewrite (exec_bind_ok _ _ _ _ _ Hge).
  by apply world_ok_set_edge_properties.
Qed.

Lemma edge_remove_property_preserves (w : World SpecNative) e key :
  world_ok w → world_ok (exec (Edge_remove_property e key) w).
Proof.
  intros Hw. unfold Edge_remove_property.
  destruct (get_edge_cases w e) as [(E & HE & Hge) | (x & Hge)];
    [| by rewrite (exec_bind_raise _ _ _ _ _ Hge)].
  rewrite (exec_bind_ok _ _ _ _ _ Hge).
  destruct key as [| b | z | k]; try done.
  unfold exec, bind, put_edge, ret. simpl.
  by apply world_ok_set_edge_properties.
Qed.

(** ** Methods that only read *)

Lemma after_calls_nil (w : World SpecNative) : after_calls (native w) [] w = w.
Proof. destruct w. unfold after_calls. simpl. by rewrite app_nil_r. Qed.

Lemma observes_pure {A} (m : StateExc SpecNative A) :
  (∀ w, exec m w = w) → observes m.
Proof. intros H w. exists []. by rewrite after_calls_nil. Qed.

Lemma observes_bind {A B} (m : StateExc SpecNative A) (k : A → StateExc SpecNative B) :
  observes m → (∀ a, observes (k a)) → observes (bind m k).
Proof.
  intros Hm Hk w. destruct (Hm w) as [cs Hcs]. unfold exec, bind in *.
  destruct (m w) as [[a | x] w1]; simpl in Hcs; subst w1.
  - destruct (Hk a (after_calls (native w) cs w)) as [cs' Hcs'].
    exists (cs ++ cs')%list. unfold exec in Hcs'. rewrite Hcs'.
    unfold after_calls. simpl. by rewrite app_assoc.
  - by exists cs.
Qed.

Lemma observes_ret {A} (a : A) : observes (ret a).
Proof. by apply observes_pure. Qed.

Lemma observes_raise {A} c msg : observes (raise (A := A) c msg).
Proof. by apply observes_pure. Qed.

Lemma observes_lift_res {A} (r : Res A) : observes (lift_res r).
Proof. by apply observes_pure. Qed.

Lemma observes_get_world : observes get_world.
Proof. by apply observes_pure. Qed.

Lemma observes_get_graph g : observes (get_graph g).
Proof. apply observes_pure. intros w. unfold exec, get_graph. by destruct (graphs w !! g). Qed.

Lemma observes_get_vertex v : observes (get_vertex v).
Proof.
  apply observes_pure. intros w. unfold exec, get_vertex. by destruct (vertex_objs w !! v).
Qed.

Lemma observes_get_edge e : observes (get_edge e).
Proof. apply observes_pure. intros w. unfold exec, get_edge. by destruct (edge_objs w !! e). Qed.

(** The native counts do not change the native state. *)
Lemma observes_invoke_vertex_count p : observes (invoke (tinkergraph_vertex_count p)).
Proof. intros w. by exists [tinkergraph_vertex_count p]. Qed.

Lemma observes_invoke_edge_count p : observes (invoke (tinkergraph_edge_count p)).
Proof. intros w. by exists [tinkergraph_edge_count p]. Qed.

Lemma observes_comprehension_if {A} (l : list A) (p : A → StateExc SpecNative bool) :
  (∀ x, observes (p x)) → observes (comprehension_if l p).
Proof.
  intros Hp. induction l as [| x l IH]; simpl; [apply observes_ret |].
  apply observes_bind; [done |]. intros b.
  apply observes_bind; [done |]. intros r. apply observes_ret.
Qed.

Lemma observes_comprehension_map {A B} (l : list A) (f : A → StateExc SpecNative B) :
  (∀ x, observes (f x)) → observes (comprehension_map l f).
Proof.
  intros Hf. induction l as [| x l IH]; simpl; [apply observes_ret |].
  apply observes_bind; [done |]. intros b.
  apply observes_bind; [done |]. intros r. apply observes_ret.
Qed.

Create HintDb observes.
#[local] Hint Resolve observes_ret observes_raise observes_lift_res observes_get_world
  observes_get_graph observes_get_vertex observes_get_edge
  observes_invoke_vertex_count observes_invoke_edge_count : observes.

Ltac observe :=
  repeat first
    [ solve [auto with observes]
    | apply observes_bind; [| intros ?]
    | apply observes_comprehension_if; intros ?
    | apply observes_comprehension_map; intros ?
    | match goal with
      | |- observes (if ?b then _ else _) => destruct b
      | |- observes (match ?x with _ => _ end) => destruct x
      end ].

Lemma observes_check_not_closed g : observes (TinkerGraph__check_not_closed g).
Proof. unfold TinkerGraph__check_not_closed. observe. Qed.
#[local] Hint Resolve observes_check_not_closed : observes.

Lemma observes_vertex_count g : observes (TinkerGraph_vertex_count g).
Proof. unfold TinkerGraph_vertex_count, NativeGraphHandle_vertex_count. observe. Qed.

Lemma observes_edge_count g : observes (TinkerGraph_edge_count g).
Proof. unfold TinkerGraph_edge_count, NativeGraphHandle_edge_count. observe. Qed.
#[local] Hint Resolve observes_vertex_count observes_edge_count : observes.

Lemma observes_len g : observes (py_len g).
Proof. unfold py_len, TinkerGraph___len__. observe. Qed.
#[local] Hint Resolve observes_len : observes.

Lemma observes_str g : observes (TinkerGraph___str__ g).
Proof. unfold TinkerGraph___str__. observe. Qed.

Lemma observes_bool graph : observes (py_bool graph).
Proof. unfold py_bool. observe. Qed.

Lemma observes_Vertex__graph v : observes (Vertex__graph v).
Proof. unfold Vertex__graph. observe. Qed.

Lemma observes_Edge__graph e : observes (Edge__graph e).
Proof. unfold Edge__graph. observe. Qed.
#[local] Hint Resolve observes_bool observes_Vertex__graph observes_Edge__graph : observes.

Lemma observes_Vertex___eq__ a b : observes (Vertex___eq__ a b).
Proof. unfold Vertex___eq__. observe. Qed.
#[local] Hint Resolve observes_Vertex___eq__ : observes.

Lemma observes_Vertex_get_property v key dflt : observes (Vertex_get_property v key dflt).
Proof. unfold Vertex_get_property. observe. Qed.

Lemma observes_Edge_get_property e key dflt : observes (Edge_get_property e key dflt).
Proof. unfold Edge_get_property. observe. Qed.

Lemma observes_Vertex__matches_properties v filters :
  observes (Vertex__matches_properties v filters).
Proof. unfold Vertex__matches_properties. observe. Qed.

Lemma observes_Edge__matches_properties e filters :
  observes (Edge__matches_properties e filters).
Proof. unfold Edge__matches_properties. observe. Qed.
#[local] Hint Resolve observes_Vertex__matches_properties
  observes_Edge__matches_properties : observes.

Lemma observes_vertices g properties : observes (TinkerGraph_vertices g properties).
Proof. unfold TinkerGraph_vertices. observe. Qed.

Lemma observes_edges g properties : observes (TinkerGraph_edges g properties).
Proof. unfold TinkerGraph_edges. observe. Qed.

Lemma observes_filter_labels labels edges : observes (filter_labels labels edges).
Proof. unfold filter_labels. observe. Qed.
#[local] Hint Resolve observes_filter_labels : observes.

Lemma observes_out_edges v labels : observes (Vertex_out_edges v labels).
Proof. unfold Vertex_out_edges. observe. Qed.

Lemma observes_in_edges v labels : observes (Vertex_in_edges v labels).
Proof. unfold Vertex_in_edges. observe. Qed.
#[local] Hint Resolve observes_out_edges observes_in_edges : observes.

Lemma observes_both_edges v labels : observes (Vertex_both_edges v labels).
Proof. unfold Vertex_both_edges. observe. Qed.

Lemma observes_out_vertices v labels : observes (Vertex_out_vertices v labels).
Proof. unfold Vertex_out_vertices. observe. Qed.

Lemma observes_in_vertices v labels : observes (Vertex_in_vertices v labels).
Proof. unfold Vertex_in_vertices. observe. Qed.
#[local] Hint Resolve observes_out_vertices observes_in_vertices : observes.

Lemma observes_both_vertices v labels : observes (Vertex_both_vertices v labels).
Proof. unfold Vertex_both_vertices. observe. Qed.

Lemma observes_other_vertex e v : observes (Edge_other_vertex e v).
Proof. unfold Edge_other_vertex. observe. Qed.

(** ** Every reachable store satisfies the invariant *)

Lemma world_ok_after_calls (w : World SpecNative) cs :
  world_ok w → world_ok (after_calls (native w) cs w).
Proof. intros Hw. by apply (world_ok_same w). Qed.

Lemma reachable_world_ok (w : World SpecNative) : reachable w → world_ok w.
Proof.
  induction 1 as [| w _ IH | w g l i p _ IH | w g l o i ei p _ IH | w g v _ IH
                  | w g e _ IH | w g _ IH | w g _ IH | w v k x _ IH | w v k _ IH
                  | w e k x _ IH | w e k _ IH | A m w Hm _ IH].
  - apply initial_world_ok.
  - by apply init_preserves.
  - by apply add_vertex_preserves.
  - by apply add_edge_preserves.
  - by apply remove_vertex_preserves.
  - by apply remove_edge_preserves.
  - by apply clear_preserves.
  - by apply close_preserves.
  - by apply set_property_preserves.
  - by apply remove_property_preserves.
  - by apply edge_set_property_preserves.
  - by apply edge_remove_property_preserves.
  - destruct (Hm w) as [cs ->]. by apply world_ok_after_calls.
Qed.


(** ** The cascade of [remove_vertex] *)






(** * Further properties of the code *)

(** ** Looking a vertex up by id *)

Lemma py_eq_of_str s x : py_eq (VStr s) x = true ↔ x = VStr s.
Proof.
  destruct x as [| b | z | t]; simpl; try (split; [discriminate | discriminate]).
  rewrite bool_decide_eq_true. split; [by intros -> | by intros [= ->]].
Qed.

Lemma first_match_pure {NS A} (l : list A) (p : A → StateExc NS bool) q w :
  (∀ x, x ∈ l → p x w = (Ok (q x), w)) →
  first_match l p w = (Ok (List.find q l), w).
Proof.
  induction l as [| x l IH]; intros H; simpl; [done |].
  rewrite (bind_ok _ _ _ _ _ (H x (list_elem_of_here _ _))).
  destruct (q x); [done |].
  apply IH. intros y Hy. apply H. by apply list_elem_of_further.
Qed.

Section GetVertex.

Context {NS : Type} `{!NativeFunctionTable NS}.

Lemma get_vertex_run (w : World NS) g G x :
  graphs w !! g = Some G → graph_closed G = false →
  (∀ p r, graph_vertices G !! p = Some r → is_Some (vertex_objs w !! r)) →
  TinkerGraph_get_vertex g x w
  = (Ok (List.find (λ r, match vertex_objs w !! r with
                         | Some V => py_eq (VStr (vertex_id V)) x
                         | None => false
                         end) (values (graph_vertices G))), w).
Proof.
  intros HG Hopen Hres. unfold TinkerGraph_get_vertex.
  rewrite (bind_ok _ _ _ _ _ (check_open _ _ _ HG Hopen)).
  rewrite (bind_ok _ _ _ _ _ (get_graph_ok _ _ _ HG)).
  apply first_match_pure. intros r Hr.
  apply elem_of_values in Hr as [p Hp]. destruct (Hres p r Hp) as [V HV].
  rewrite (bind_ok _ _ _ _ _ (get_vertex_ok _ _ _ HV)). by rewrite HV.
Qed.

(** [get_vertex(x)] on an open graph makes no native call and changes nothing;
    it returns a registered vertex whose id is [x], and [None] exactly when no
    registered vertex has the id [x] (in particular when [x] is not a
    string). *)
Theorem get_vertex_finds_registered_id (w : World NS) g G x :
  graphs w !! g = Some G → graph_closed G = false →
  (∀ p r, graph_vertices G !! p = Some r → is_Some (vertex_objs w !! r)) →
  ∃ o, TinkerGraph_get_vertex g x w = (Ok o, w)
       ∧ (∀ r, o = Some r →
               (∃ p, graph_vertices G !! p = Some r)
               ∧ ∃ V, vertex_objs w !! r = Some V ∧ x = VStr (vertex_id V))
       ∧ (o = None ↔
          ∀ p r V, graph_vertices G !! p = Some r → vertex_objs w !! r = Some V →
                   x ≠ VStr (vertex_id V)).
Proof.
  intros HG Hopen Hres. rewrite (get_vertex_run w g G x HG Hopen Hres).
  eexists. split; [reflexivity |]. split.
  - intros r Hr. apply List.find_some in Hr as [Hin Hq].
    apply list_elem_of_In, elem_of_values in Hin. split; [done |].
    destruct (vertex_objs w !! r) as [V|]; [| done].
    exists V. split; [done |]. by apply py_eq_of_str.
  - split.
    + intros Hnone p r V Hp HV Hx.
      pose proof (List.find_none _ _ Hnone r) as Hq. simpl in Hq.
      rewrite HV in Hq.
      assert (Hin : In r (values (graph_vertices G))).
      { apply list_elem_of_In, elem_of_values. eauto. }
      specialize (Hq Hin). subst x. simpl in Hq.
      by rewrite bool_decide_eq_true_2 in Hq.
    + intros Hno.
      destruct (List.find _ _) as [r|] eqn:Hf; [| done].
      apply List.find_some in Hf as [Hin Hq].
      apply list_elem_of_In, elem_of_values in Hin as [p Hp].
      destruct (vertex_objs w !! r) as [V|] eqn:HV; [| done].
      apply py_eq_of_str in Hq. by destruct (Hno p r V Hp HV).
Qed.

End GetVertex.

Lemma get_vertex_finds_registered_id_witness :
  ∃ o, TinkerGraph_get_vertex 0%nat (VStr "bob") scenario_A = (Ok o, scenario_A)
       ∧ (∀ r, o = Some r →
               (∃ p, graph_vertices scenario_A_G !! p = Some r)
               ∧ ∃ V, vertex_objs scenario_A !! r = Some V ∧ VStr "bob" = VStr (vertex_id V))
       ∧ (o = None ↔
          ∀ p r V, graph_vertices scenario_A_G !! p = Some r →
                   vertex_objs scenario_A !! r = Some V →
                   VStr "bob" ≠ VStr (vertex_id V)).
Proof.
  exact (get_vertex_finds_registered_id scenario_A 0%nat scenario_A_G (VStr "bob")
           scenario_A_graph eq_refl scenario_A_resolves).
Defined.

(** ** The id and the label of a new vertex *)

Section NewVertex.

Context {NS : Type} `{!NativeFunctionTable NS}.

(** [label=None] is the label "vertex". *)
Lemma add_vertex_default_label g vid props (w : World NS) :
  TinkerGraph_add_vertex g VNone vid props w
  = TinkerGraph_add_vertex g (VStr "vertex") vid props w.
Proof. reflexivity. Qed.

Lemma add_vertex_invalid_label g label vid props (w : World NS) :
  (∀ L, label ≠ VStr L) → label ≠ VNone →
  ∃ e w', TinkerGraph_add_vertex g label vid props w = (Raise e, w').
Proof.
  intros HL HN. unfold TinkerGraph_add_vertex.
  destruct (TinkerGraph__check_not_closed g w) as [[[]|e] w1] eqn:Hc.
  - rewrite (bind_ok _ _ _ _ _ Hc).
    destruct label as [| b | z | L]; [done | | | by destruct (HL L)];
      eexists _, _; reflexivity.
  - rewrite (bind_raise _ _ _ _ _ Hc). eauto.
Qed.

(** The store after [add_vertex] has registered the wrapper. *)
Lemma add_vertex_run (w : World NS) g G L vid props :
  graphs w !! g = Some G → graph_closed G = false →
  add_vertex_encodable L vid props = true →
  let c := add_vertex_call G L vid props in
  let ptr := (native_call c (native w)).1.1 in
  ptr ≠ 0 →
  ∃ id w2 G2,
    settle_id g ptr vid (called c w) = (Ok id, w2)
    ∧ graphs w2 !! g = Some G2
    ∧ TinkerGraph_add_vertex g (VStr L) (opt_value vid) props w
      = (Ok (next_ref w2),
         mkWorld (<[g := set_vertices G2 (<[ptr := next_ref w2]> (graph_vertices G2))]>
                    (graphs w2))
                 (<[next_ref w2 := mkVertex g ptr id L props false]> (vertex_objs w2))
                 (edge_objs w2) (S (next_ref w2)) (native w2) (trace w2)).
Proof.
  intros HG Hopen Henc c ptr Hptr.
  assert (HG1 : graphs (called c w) !! g = Some G) by done.
  destruct (settle_id_spec (called c w) g G ptr vid HG1)
    as (id & w2 & G2 & rest & Hid & Hgr & _).
  assert (HG2 : graphs w2 !! g = Some G2) by (rewrite Hgr; apply lookup_insert_eq).
  exists id, w2, G2. split; [exact Hid |]. split; [exact HG2 |].
  unfold TinkerGraph_add_vertex.
  rewrite (bind_ok _ _ _ _ _ (check_open _ _ _ HG Hopen)).
  rewrite (bind_ok _ _ _ _ _ (eq_refl : ret tt w = (Ok tt, w))).
  rewrite (bind_ok
             (match opt_value vid with
              | VBool _ | VInt _ =>
                  raise_validation_error "vertex_id" "str or None" (opt_value vid)
              | _ => ret tt
              end) _ w tt w) by (by destruct vid).
  replace (match opt_value vid with VStr s => Some s | _ => None end)
    with vid by (by destruct vid).
  fold (all_properties L props).
  unfold try_except_as.
  rewrite (bind_ok _ _ _ _ _ (get_graph_ok _ _ _ HG)).
  assert (Hcall :
    (if bool_decide (all_properties L props = ∅)
     then NativeGraphHandle_add_vertex (graph_native G) vid
     else NativeGraphHandle_add_vertex_with_properties (graph_native G) vid
            (all_properties L props)) w
    = (Ok ptr, called c w)).
  { subst ptr c. rewrite add_vertex_native_step, Henc.
    by rewrite bool_decide_eq_false_2. }
  rewrite (bind_ok _ _ _ _ _ Hcall).
  fold (settle_id g ptr vid).
  rewrite (bind_ok _ _ _ _ _ Hid).
  unfold bind, new_ref, put_vertex, get_graph, put_graph, ret. simpl.
  by rewrite HG2.
Qed.

(** How [add_vertex] settles the id. *)
Lemma settle_id_cases (w : World NS) g G ptr vid :
  graphs w !! g = Some G →
  let c := tinkergraph_vertex_id ptr 256 in
  let r := (native_call c (native w)).1 in
  settle_id g ptr vid w
  = match vid with
    | Some s => (Ok s, w)
    | None =>
        match (if bool_decide (r.1 < 0) then None
               else match from_buffer 256 r.2 "" with Ok s => Some s | Raise _ => None end)
        with
        | Some s => (Ok s, called c w)
        | None =>
            (Ok (pretty (graph_vertex_id_counter G)),
             mkWorld (<[g := mkGraph (graph_native G) (graph_vertices G) (graph_edges G)
                                     (S (graph_vertex_id_counter G)) (graph_closed G)]>
                        (graphs w))
                     (vertex_objs w) (edge_objs w) (next_ref w)
                     (native_call c (native w)).2 (trace w ++ [c]))
        end
    end.
Proof.
  intros HG c r. destruct vid as [s|]; [done |]. simpl.
  unfold try_except, NativeGraphHandle_get_vertex_id.
  rewrite (bind_ok _ _ _ _ _ (invoke_eq _ _)). fold c. fold r.
  assert (HG' : graphs (called c w) !! g = Some G) by done.
  assert (Hf :
    (G <- get_graph g ;;
     put_graph g
       (mkGraph (graph_native G) (graph_vertices G) (graph_edges G)
                (S (graph_vertex_id_counter G)) (graph_closed G)) ;;
     ret (pretty (graph_vertex_id_counter G))) (called c w)
    = (Ok (pretty (graph_vertex_id_counter G)),
       mkWorld (<[g := mkGraph (graph_native G) (graph_vertices G) (graph_edges G)
                               (S (graph_vertex_id_counter G)) (graph_closed G)]>
                  (graphs w))
               (vertex_objs w) (edge_objs w) (next_ref w)
               (native_call c (native w)).2 (trace w ++ [c]))).
  { by rewrite (bind_ok _ _ _ _ _ (get_graph_ok _ _ _ HG')). }
  destruct (bool_decide (r.1 < 0)).
  - simpl. by rewrite Hf.
  - rewrite decode_buffer_eq. destruct (from_buffer 256 r.2 "") as [s'|e]; [done |].
    by rewrite Hf.
Qed.

End NewVertex.

Lemma find_some_if {A} (q : A → bool) (l : list A) x :
  x ∈ l → q x = true → ∃ y, List.find q l = Some y ∧ y ∈ l ∧ q y = true.
Proof.
  intros Hin Hq. destruct (List.find q l) as [y|] eqn:Hf.
  - apply List.find_some in Hf as [Hy Hqy]. exists y. by rewrite list_elem_of_In.
  - apply list_elem_of_In in Hin. pose proof (List.find_none _ _ Hf x Hin). congruence.
Qed.

Section NewVertexProperties.

Context {NS : Type} `{!NativeFunctionTable NS}.

(** After [add_vertex(label, vertex_id=s, ...)] has returned, [get_vertex(s)]
    returns a registered vertex with the id [s]: the caller's id is kept as
    given and can be looked up. *)
Theorem get_vertex_after_add_vertex (w w' : World NS) g G label s props r :
  graphs w !! g = Some G → graph_closed G = false →
  (∀ p r, graph_vertices G !! p = Some r → is_Some (vertex_objs w !! r)) →
  TinkerGraph_add_vertex g label (VStr s) props w = (Ok r, w') →
  (∃ V, vertex_objs w' !! r = Some V ∧ vertex_id V = s)
  ∧ ∃ r' V' G', TinkerGraph_get_vertex g (VStr s) w' = (Ok (Some r'), w')
                ∧ graphs w' !! g = Some G'
                ∧ (∃ p, graph_vertices G' !! p = Some r')
                ∧ vertex_objs w' !! r' = Some V' ∧ vertex_id V' = s.
Proof.
  intros HG Hopen Hres Hadd.
  assert (HL : ∃ L, TinkerGraph_add_vertex g (VStr L) (VStr s) props w = (Ok r, w')).
  { destruct label as [| b | z | L].
    - exists "vertex". by rewrite <- add_vertex_default_label.
    - destruct (add_vertex_invalid_label g (VBool b) (VStr s) props w)
        as (e & w1 & He); [done | done | congruence].
    - destruct (add_vertex_invalid_label g (VInt z) (VStr s) props w)
        as (e & w1 & He); [done | done | congruence].
    - by exists L. }
  destruct HL as [L HaddL]. clear Hadd.
  destruct (add_vertex_encodable L (Some s) props) eqn:Henc.
  2:{ pose proof (add_vertex_unencodable w g G L (Some s) props HG Hopen Henc) as Hu.
      simpl in Hu. congruence. }
  set (c := add_vertex_call G L (Some s) props).
  set (ptr := (native_call c (native w)).1.1).
  destruct (decide (ptr = 0)) as [Hz | Hnz].
  { destruct (add_vertex_spec w g G L (Some s) props HG Hopen Henc)
      as [(e & He & _) | (w1 & G1 & id & rest & Hok & _ & _ & _ & _ & _ & _ & _ & _ & Hp & _)].
    - simpl in He. congruence.
    - by destruct Hp. }
  destruct (add_vertex_run w g G L (Some s) props HG Hopen Henc Hnz)
    as (id & w2 & G2 & Hid & HG2 & Hrun).
  simpl in Hid. injection Hid as <- <-.
  change (opt_value (Some s)) with (VStr s) in Hrun.
  rewrite Hrun in HaddL. injection HaddL as <- <-.
  assert (HG2' : G2 = G) by (simpl in HG2; congruence). subst G2.
  fold c ptr. simpl.
  set (r := next_ref w).
  set (V := mkVertex g ptr s L props false).
  set (G' := set_vertices G (<[ptr := r]> (graph_vertices G))).
  set (w' := mkWorld (<[g := G']> (graphs w)) (<[r := V]> (vertex_objs w)) (edge_objs w)
                     (S r) (native_call c (native w)).2 (trace w ++ [c])).
  assert (HV : vertex_objs w' !! r = Some V) by apply lookup_insert_eq.
  split; [by exists V |].
  assert (HG' : graphs w' !! g = Some G') by apply lookup_insert_eq.
  assert (Hres' : ∀ p x, graph_vertices G' !! p = Some x → is_Some (vertex_objs w' !! x)).
  { intros p x Hp. simpl in Hp. simpl.
    apply lookup_insert_is_Some'.
    apply lookup_insert_Some in Hp as [[_ <-] | [_ Hp]]; [by left | right; eauto]. }
  rewrite (get_vertex_run w' g G' (VStr s) HG' Hopen Hres').
  set (q := λ x, match vertex_objs w' !! x with
                 | Some V0 => py_eq (VStr (vertex_id V0)) (VStr s)
                 | None => false
                 end).
  assert (Hin : r ∈ values (graph_vertices G')).
  { apply elem_of_values. exists ptr. apply lookup_insert_eq. }
  assert (Hq : q r = true).
  { unfold q. rewrite HV. simpl. by rewrite bool_decide_eq_true_2. }
  destruct (find_some_if q _ r Hin Hq) as (y & Hf & Hy & Hqy).
  fold q. rewrite Hf. unfold q in Hqy.
  destruct (vertex_objs w' !! y) as [Vy|] eqn:HVy; [| done].
  apply py_eq_of_str in Hqy. injection Hqy as Hqy.
  exists y, Vy, G'. apply elem_of_values in Hy. done.
Qed.

(** A vertex added without an id, once its label and properties have been
    encoded and the native call has returned a handle, takes the id that the
    native side reports for it (the empty string if the buffer comes back
    empty); when the retrieval signals failure or the bytes are not UTF-8, it
    takes the graph's counter as a decimal string and the counter goes up by
    one. *)
Theorem add_vertex_without_id (w : World NS) g G L props :
  graphs w !! g = Some G → graph_closed G = false →
  add_vertex_encodable L None props = true →
  let c := add_vertex_call G L None props in
  let ptr := (native_call c (native w)).1.1 in
  let rid := (native_call (tinkergraph_vertex_id ptr 256) (native (called c w))).1 in
  ptr ≠ 0 →
  ∃ w' V G',
    TinkerGraph_add_vertex g (VStr L) VNone props w = (Ok (next_ref w), w')
    ∧ vertex_objs w' !! next_ref w = Some V
    ∧ graphs w' !! g = Some G'
    ∧ graph_vertices G' !! ptr = Some (next_ref w)
    ∧ match from_buffer 256 rid.2 "" with
      | Ok s =>
          if bool_decide (rid.1 < 0)
          then vertex_id V = pretty (graph_vertex_id_counter G)
               ∧ graph_vertex_id_counter G' = S (graph_vertex_id_counter G)
          else vertex_id V = s
               ∧ graph_vertex_id_counter G' = graph_vertex_id_counter G
      | Raise _ =>
          vertex_id V = pretty (graph_vertex_id_counter G)
          ∧ graph_vertex_id_counter G' = S (graph_vertex_id_counter G)
      end.
Proof.
  intros HG Hopen Henc c ptr rid Hnz.
  destruct (add_vertex_run w g G L None props HG Hopen Henc Hnz)
    as (id & w2 & G2 & Hid & HG2 & Hrun).
  fold c ptr in Hid, Hrun.
  assert (HG1 : graphs (called c w) !! g = Some G) by done.
  rewrite (settle_id_cases (called c w) g G ptr None HG1) in Hid.
  change (opt_value None) with VNone in Hrun.
  rewrite Hrun. clear Hrun. unfold rid. clear rid.
  match type of Hid with
  | context [from_buffer 256 ?x ""] => destruct (from_buffer 256 x "") as [s|e]
  end;
    match type of Hid with
    | context [bool_decide ?P] => destruct (bool_decide P)
    end;
    injection Hid as <- <-; simpl in HG2;
    try (rewrite lookup_insert_eq in HG2); try (rewrite HG in HG2);
    injection HG2 as <-;
    eexists _, _, _; (split; [reflexivity |]); simpl;
    rewrite !lookup_insert_eq; (split; [reflexivity |]); (split; [reflexivity |]);
    simpl; rewrite lookup_insert_eq; done.
Qed.

End NewVertexProperties.

Lemma get_vertex_after_add_vertex_witness :
  let m := TinkerGraph_add_vertex 0%nat (VStr "person") (VStr "carol") ∅ in
  (∃ V, vertex_objs (exec m scenario_A) !! 4%nat = Some V ∧ vertex_id V = "carol")
  ∧ ∃ r' V' G', TinkerGraph_get_vertex 0%nat (VStr "carol") (exec m scenario_A)
                = (Ok (Some r'), exec m scenario_A)
                ∧ graphs (exec m scenario_A) !! 0%nat = Some G'
                ∧ (∃ p, graph_vertices G' !! p = Some r')
                ∧ vertex_objs (exec m scenario_A) !! r' = Some V'
                ∧ vertex_id V' = "carol".
Proof.
  intros m.
  apply (get_vertex_after_add_vertex scenario_A (exec m scenario_A) 0%nat scenario_A_G
           (VStr "person") "carol" ∅ 4%nat scenario_A_graph eq_refl scenario_A_resolves).
  vm_compute. reflexivity.
Defined.

Lemma add_vertex_without_id_witness :
  let c := add_vertex_call scenario_A_G "person" None ∅ in
  let ptr := (native_call c (native scenario_A)).1.1 in
  let rid := (native_call (tinkergraph_vertex_id ptr 256) (native (called c scenario_A))).1 in
  ptr ≠ 0
  ∧ ∃ w' V G',
      TinkerGraph_add_vertex 0%nat (VStr "person") VNone ∅ scenario_A
      = (Ok (next_ref scenario_A), w')
      ∧ vertex_objs w' !! next_ref scenario_A = Some V
      ∧ graphs w' !! 0%nat = Some G'
      ∧ graph_vertices G' !! ptr = Some (next_ref scenario_A)
      ∧ match from_buffer 256 rid.2 "" with
        | Ok s =>
            if bool_decide (rid.1 < 0)
            then vertex_id V = pretty (graph_vertex_id_counter scenario_A_G)
                 ∧ graph_vertex_id_counter G' = S (graph_vertex_id_counter scenario_A_G)
            else vertex_id V = s
                 ∧ graph_vertex_id_counter G' = graph_vertex_id_counter scenario_A_G
        | Raise _ =>
            vertex_id V = pretty (graph_vertex_id_counter scenario_A_G)
            ∧ graph_vertex_id_counter G' = S (graph_vertex_id_counter scenario_A_G)
        end.
Proof.
  intros c ptr rid.
  assert (Hnz : ptr ≠ 0) by (vm_compute; discriminate).
  split; [exact Hnz |].
  refine (add_vertex_without_id scenario_A 0%nat scenario_A_G "person" ∅
            scenario_A_graph eq_refl _ Hnz).
  vm_compute. reflexivity.
Defined.

(** ** Creating a graph and adding edges *)

Section NewGraphAndEdge.

Context {NS : Type} `{!NativeFunctionTable NS}.

Lemma init_creates_open_empty_graph_eq (w : World NS) :
  let c := tinkergraph_create in
  let ptr := (native_call c (native w)).1.1 in
  TinkerGraph_init w
  = if bool_decide (ptr = 0)
    then (Raise (mkExc TinkerGraphError
                   ("Failed to create TinkerGraph: Native operation 'create_graph' failed: "
                    ++ "Native graph creation returned null")),
          called c w)
    else (Ok (next_ref w),
          mkWorld (<[next_ref w := mkGraph ptr ∅ ∅ 0 false]> (graphs w))
                  (vertex_objs w) (edge_objs w) (S (next_ref w))
                  (native_call c (native w)).2 (trace w ++ [c])).
Proof.
  intros c ptr. unfold TinkerGraph_init, try_except_as, NativeGraphHandle_init,
    raise_native_error.
  unfold bind at 1. rewrite null_checked_call. fold c. fold ptr.
  destruct (bool_decide (ptr = 0)); reflexivity.
Qed.



Lemma Edge__graph_eq (w : World NS) e E :
  edge_objs w !! e = Some E →
  Edge__graph e w = (Ok (graph_of w (edge_graph_ref E)), w).
Proof.
  intros HE. unfold Edge__graph.
  rewrite (bind_ok _ _ _ _ _ (get_edge_ok _ _ _ HE)). unfold bind, get_world, ret.
  unfold graph_of. by destruct (graphs w !! edge_graph_ref E).
Qed.

Lemma Edge___eq___pure (w : World NS) a b :
  is_Some (edge_objs w !! a) → is_Some (edge_objs w !! b) →
  Edge___eq__ a b w = (Ok (edge_eqb w a b), w).
Proof.
  intros [A HA] [B HB]. unfold Edge___eq__, edge_eqb. rewrite HA, HB.
  rewrite (bind_ok _ _ _ _ _ (get_edge_ok _ _ _ HA)).
  rewrite (bind_ok _ _ _ _ _ (get_edge_ok _ _ _ HB)).
  destruct (bool_decide (edge_id A = edge_id B)); [| done].
  rewrite (bind_ok _ _ _ _ _ (Edge__graph_eq _ _ _ HA)).
  by rewrite (bind_ok _ _ _ _ _ (Edge__graph_eq _ _ _ HB)).
Qed.

Lemma add_edge_ok_inv (w w1 : World NS) g G a b A B L eid props e :
  graphs w !! g = Some G → graph_closed G = false →
  vertex_objs w !! a = Some A → vertex_graph_ref A = g →
  vertex_objs w !! b = Some B → vertex_graph_ref B = g →
  TinkerGraph_add_edge g (VStr L) (AVertex a) (AVertex b) eid props w = (Ok e, w1) →
  e = next_ref w ∧ next_ref w1 = S (next_ref w)
  ∧ vertex_objs w1 = vertex_objs w
  ∧ (∃ G1, graphs w1 = <[g := G1]> (graphs w) ∧ graph_closed G1 = false
           ∧ graph_vertices G1 = graph_vertices G
           ∧ ∃ p, graph_edges G1 = <[p := e]> (graph_edges G))
  ∧ ∃ E, edge_objs w1 = <[e := E]> (edge_objs w)
         ∧ edge_id E = new_edge_id eid A B L
         ∧ edge_graph_ref E = g ∧ edge_label E = L
         ∧ edge_out_vertex E = a ∧ edge_in_vertex E = b ∧ edge_properties E = props.
Proof.
  intros HG Hopen HA HgA HB HgB H1.
  rewrite (add_edge_run w g G a b A B L eid props HG Hopen HA HgA HB HgB) in H1.
  destruct (add_edge_encodable L props) in H1; [| discriminate].
  destruct (bool_decide _) in H1; [discriminate |].
  injection H1 as <- <-. simpl.
  split; [done |]. split; [done |]. split; [done |]. split.
  - eexists. split; [reflexivity |]. split; [done |]. split; [done |]. by eexists.
  - eexists. split; [reflexivity |]. done.
Qed.

(** Two edges added with the same label between the same two vertices and
    without explicit ids are different objects with the same generated id, so
    they compare equal ([Edge.__eq__]), whatever their properties. *)
Theorem parallel_edges_compare_equal
    (w w1 w2 : World NS) g G a b A B L props1 props2 e1 e2 :
  graphs w !! g = Some G → graph_closed G = false →
  vertex_objs w !! a = Some A → vertex_graph_ref A = g →
  vertex_objs w !! b = Some B → vertex_graph_ref B = g →
  TinkerGraph_add_edge g (VStr L) (AVertex a) (AVertex b) None props1 w = (Ok e1, w1) →
  TinkerGraph_add_edge g (VStr L) (AVertex a) (AVertex b) None props2 w1 = (Ok e2, w2) →
  e1 ≠ e2
  ∧ (∃ E1 E2, edge_objs w2 !! e1 = Some E1 ∧ edge_objs w2 !! e2 = Some E2
              ∧ edge_id E1 = edge_id E2
              ∧ edge_properties E1 = props1 ∧ edge_properties E2 = props2)
  ∧ Edge___eq__ e1 e2 w2 = (Ok true, w2).
Proof.
  intros HG Hopen HA HgA HB HgB H1 H2.
  destruct (add_edge_ok_inv _ _ _ _ _ _ _ _ _ _ _ _ HG Hopen HA HgA HB HgB H1)
    as (-> & Hn1 & Hvo1 & (G1 & Hg1 & Hc1 & _) & (E1 & Heo1 & Hid1 & Hgr1 & _ & _ & _ & Hp1)).
  assert (HG1 : graphs w1 !! g = Some G1) by (rewrite Hg1; apply lookup_insert_eq).
  assert (HA1 : vertex_objs w1 !! a = Some A) by (by rewrite Hvo1).
  assert (HB1 : vertex_objs w1 !! b = Some B) by (by rewrite Hvo1).
  destruct (add_edge_ok_inv _ _ _ _ _ _ _ _ _ _ _ _ HG1 Hc1 HA1 HgA HB1 HgB H2)
    as (-> & Hn2 & Hvo2 & (G2 & Hg2 & Hc2 & _) & (E2 & Heo2 & Hid2 & Hgr2 & _ & _ & _ & Hp2)).
  assert (Hne : next_ref w ≠ next_ref w1) by lia.
  assert (HE1 : edge_objs w2 !! next_ref w = Some E1).
  { rewrite Heo2, Heo1, lookup_insert_ne by lia. apply lookup_insert_eq. }
  assert (HE2 : edge_objs w2 !! next_ref w1 = Some E2).
  { rewrite Heo2. apply lookup_insert_eq. }
  split; [exact Hne |].
  split; [exists E1, E2; rewrite Hid1, Hid2; done |].
  rewrite Edge___eq___pure by eauto.
  unfold edge_eqb. rewrite HE1, HE2, Hid1, Hid2, Hgr1, Hgr2.
  by rewrite !bool_decide_eq_true_2.
Qed.

End NewGraphAndEdge.

Lemma two_vertices_graph : graphs two_vertices !! 0%nat = Some two_vertices_G.
Proof. vm_compute. reflexivity. Qed.

Lemma two_vertices_alice : vertex_objs two_vertices !! 1%nat = Some two_vertices_A.
Proof. vm_compute. reflexivity. Qed.

Lemma two_vertices_bob : vertex_objs two_vertices !! 2%nat = Some two_vertices_B.
Proof. vm_compute. reflexivity. Qed.


Lemma parallel_edges_compare_equal_witness :
  let m1 := TinkerGraph_add_edge 0%nat (VStr "knows") (AVertex 1%nat) (AVertex 2%nat)
              None ∅ in
  let m2 := TinkerGraph_add_edge 0%nat (VStr "knows") (AVertex 1%nat) (AVertex 2%nat)
              None {["since" := VInt 2020]} in
  let w1 := exec m1 two_vertices in
  let w2 := exec m2 w1 in
  3%nat ≠ 4%nat
  ∧ (∃ E1 E2, edge_objs w2 !! 3%nat = Some E1 ∧ edge_objs w2 !! 4%nat = Some E2
              ∧ edge_id E1 = edge_id E2
              ∧ edge_properties E1 = ∅
              ∧ edge_properties E2 = {["since" := VInt 2020]})
  ∧ Edge___eq__ 3%nat 4%nat w2 = (Ok true, w2).
Proof.
  intros m1 m2 w1 w2.
  refine (parallel_edges_compare_equal two_vertices w1 w2 0%nat two_vertices_G 1%nat 2%nat
            two_vertices_A two_vertices_B "knows" ∅ {["since" := VInt 2020]} 3%nat 4%nat
            two_vertices_graph eq_refl two_vertices_alice eq_refl two_vertices_bob eq_refl
            _ _); vm_compute; reflexivity.
Defined.

(** ** Equality and hashing of the wrappers *)




Section Equality.

Context {NS : Type} `{!NativeFunctionTable NS}.




End Equality.




(** ** Filtering edges and the overlays *)

Section Overlays.

Context {NS : Type} `{!NativeFunctionTable NS}.

(** On an open graph, [edges] with the filter set [F] returns the registered
    edges whose overlay maps every key of [F] to an equal value, each registry
    entry once and nothing else, without a native call; with the empty filter
    set it returns all registered edges. *)
Theorem edges_filter_exact (w : World NS) g G F :
  graphs w !! g = Some G → graph_closed G = false →
  (∀ p r, graph_edges G !! p = Some r → is_Some (edge_objs w !! r)) →
  ∃ l, TinkerGraph_edges g F w = (Ok l, w)
       ∧ l = List.filter (edge_matches w F) (values (graph_edges G))
       ∧ (∀ r, r ∈ l ↔
               (∃ p, graph_edges G !! p = Some r)
               ∧ ∃ E, edge_objs w !! r = Some E
                      ∧ overlay_matches (edge_properties E) F)
       ∧ (F = ∅ → l = values (graph_edges G)).
Proof.
  intros HG Hopen Hres.
  set (l := List.filter (edge_matches w F) (values (graph_edges G))).
  assert (Hmem : ∀ r, r ∈ l ↔
            (∃ p, graph_edges G !! p = Some r)
            ∧ ∃ E, edge_objs w !! r = Some E
                   ∧ overlay_matches (edge_properties E) F).
  { intros r. subst l. rewrite list_elem_of_In, filter_In, <- list_elem_of_In.
    rewrite elem_of_values. unfold edge_matches. split.
    - intros [Hp Hm]. split; [done |].
      destruct (edge_objs w !! r) as [E|]; [| discriminate].
      exists E. split; [done |]. by apply matches_properties_spec.
    - intros [Hp (E & HE & Hm)]. split; [done |]. rewrite HE.
      by apply matches_properties_spec. }
  assert (Hall : F = ∅ → l = values (graph_edges G)).
  { intros ->. subst l. apply filter_all_true. intros r Hr.
    apply elem_of_values in Hr as [p Hp].
    destruct (Hres p r Hp) as [E HE]. unfold edge_matches. by rewrite HE. }
  exists l. split; [| split; [done | split; [done | done]]].
  unfold TinkerGraph_edges.
  rewrite (bind_ok _ _ _ _ _ (check_open _ _ _ HG Hopen)).
  rewrite (bind_ok _ _ _ _ _ (get_graph_ok _ _ _ HG)).
  destruct (bool_decide (F = ∅)) eqn:HF.
  - apply bool_decide_eq_true in HF. by rewrite (Hall HF).
  - apply comprehension_if_pure. intros r Hr.
    apply elem_of_values in Hr as [p Hp].
    destruct (Hres p r Hp) as [E HE].
    unfold Edge__matches_properties, edge_matches.
    rewrite (bind_ok _ _ _ _ _ (get_edge_ok _ _ _ HE)). by rewrite HE.
Qed.


(** The filters of [vertices] read the overlays as they are now: after
    [v.set_property(k, s)] on a registered vertex, [vertices(k=s)] contains
    [v]; after [v.remove_property(k)] it does not.  Neither change reaches
    the native side. *)
Theorem vertices_filter_follows_overlay (w : World NS) g G v V p k s :
  graphs w !! g = Some G → graph_closed G = false →
  (∀ p r, graph_vertices G !! p = Some r → is_Some (vertex_objs w !! r)) →
  vertex_objs w !! v = Some V → graph_vertices G !! p = Some v →
  ∃ w1 l1 w2 l2,
    Vertex_set_property v (VStr k) (VStr s) w = (Ok tt, w1)
    ∧ TinkerGraph_vertices g {[k := VStr s]} w1 = (Ok l1, w1) ∧ v ∈ l1
    ∧ Vertex_remove_property v (VStr k) w1 = (Ok (VStr s), w2)
    ∧ TinkerGraph_vertices g {[k := VStr s]} w2 = (Ok l2, w2) ∧ (v ∉ l2)
    ∧ native w2 = native w ∧ trace w2 = trace w.
Proof.
  intros HG Hopen Hres HV Hreg.
  set (V1 := set_properties V (<[k := VStr s]> (vertex_properties V))).
  set (w1 := mkWorld (graphs w) (<[v := V1]> (vertex_objs w)) (edge_objs w)
                     (next_ref w) (native w) (trace w)).
  set (V2 := set_properties V1 (delete k (vertex_properties V1))).
  set (w2 := mkWorld (graphs w1) (<[v := V2]> (vertex_objs w1)) (edge_objs w1)
                     (next_ref w1) (native w1) (trace w1)).
  assert (H1 : Vertex_set_property v (VStr k) (VStr s) w = (Ok tt, w1)).
  { unfold Vertex_set_property.
    by rewrite (bind_ok _ _ _ _ _ (get_vertex_ok _ _ _ HV)). }
  assert (HV1 : vertex_objs w1 !! v = Some V1) by apply lookup_insert_eq.
  assert (H2 : Vertex_remove_property v (VStr k) w1 = (Ok (VStr s), w2)).
  { unfold Vertex_remove_property.
    rewrite (bind_ok _ _ _ _ _ (get_vertex_ok _ _ _ HV1)).
    unfold bind, put_vertex, ret. simpl. by rewrite lookup_insert_eq. }
  assert (HV2 : vertex_objs w2 !! v = Some V2) by apply lookup_insert_eq.
  assert (Hres1 : ∀ p r, graph_vertices G !! p = Some r → is_Some (vertex_objs w1 !! r)).
  { intros q r Hq. simpl. apply lookup_insert_is_Some'. right. eauto. }
  assert (Hres2 : ∀ p r, graph_vertices G !! p = Some r → is_Some (vertex_objs w2 !! r)).
  { intros q r Hq. simpl. apply lookup_insert_is_Some'. right. eauto. }
  destruct (TinkerGraph_vertices_spec w1 g G {[k := VStr s]} HG Hopen Hres1)
    as (l1 & Hl1 & _ & Hmem1 & _).
  destruct (TinkerGraph_vertices_spec w2 g G {[k := VStr s]} HG Hopen Hres2)
    as (l2 & Hl2 & _ & Hmem2 & _).
  exists w1, l1, w2, l2.
  split; [exact H1 |]. split; [exact Hl1 |]. split.
  { apply Hmem1. split; [eauto |]. exists V1. split; [done |].
    apply overlay_matches_singleton. simpl. apply lookup_insert_eq. }
  split; [exact H2 |]. split; [exact Hl2 |]. split; [| done].
  intros Hin. apply Hmem2 in Hin as [_ (V' & HV' & Hm)].
  rewrite HV2 in HV'. injection HV' as <-.
  apply overlay_matches_singleton in Hm. simpl in Hm.
  by rewrite lookup_delete_eq in Hm.
Qed.

End Overlays.

(** Scenario A: the graph, its edge registry and the edge [3]. *)
Lemma scenario_A_edges_resolve p r :
  graph_edges scenario_A_G !! p = Some r → is_Some (edge_objs scenario_A !! r).
Proof.
  intros Hp. apply elem_of_map_to_list in Hp.
  vm_compute in Hp. apply list_elem_of_In in Hp. simpl in Hp.
  destruct Hp as [[= <- <-] | []]. vm_compute. eauto.
Qed.

Lemma edges_filter_exact_witness :
  ∃ l, TinkerGraph_edges 0%nat {["since" := VInt 2018]} scenario_A = (Ok l, scenario_A)
       ∧ l = List.filter (edge_matches scenario_A {["since" := VInt 2018]})
               (values (graph_edges scenario_A_G))
       ∧ (∀ r, r ∈ l ↔
               (∃ p, graph_edges scenario_A_G !! p = Some r)
               ∧ ∃ E, edge_objs scenario_A !! r = Some E
                      ∧ overlay_matches (edge_properties E) {["since" := VInt 2018]})
       ∧ (({["since" := VInt 2018]} : gmap string value) = ∅ →
          l = values (graph_edges scenario_A_G)).
Proof.
  exact (edges_filter_exact scenario_A 0%nat scenario_A_G {["since" := VInt 2018]}
           scenario_A_graph eq_refl scenario_A_edges_resolve).
Defined.


Lemma scenario_A_vertex_1 : vertex_objs scenario_A !! 1%nat = Some scenario_A_alice.
Proof. vm_compute. reflexivity. Qed.


Lemma vertices_filter_follows_overlay_witness :
  ∃ w1 l1 w2 l2,
    Vertex_set_property 1%nat (VStr "city") (VStr "Oslo") scenario_A = (Ok tt, w1)
    ∧ TinkerGraph_vertices 0%nat {["city" := VStr "Oslo"]} w1 = (Ok l1, w1) ∧ 1%nat ∈ l1
    ∧ Vertex_remove_property 1%nat (VStr "city") w1 = (Ok (VStr "Oslo"), w2)
    ∧ TinkerGraph_vertices 0%nat {["city" := VStr "Oslo"]} w2 = (Ok l2, w2)
    ∧ (1%nat ∉ l2)
    ∧ native w2 = native scenario_A ∧ trace w2 = trace scenario_A.
Proof.
  refine (vertices_filter_follows_overlay scenario_A 0%nat scenario_A_G 1%nat
            scenario_A_alice 2 "city" "Oslo"
            scenario_A_graph eq_refl scenario_A_resolves scenario_A_vertex_1 _).
  vm_compute. reflexivity.
Defined.

(** ** What the operations leave alone *)

Section Frames.

Context {NS : Type} `{!NativeFunctionTable NS}.

Variable R : World NS → World NS → Prop.

Hypothesis R_refl : ∀ w, R w w.
Hypothesis R_trans : ∀ w1 w2 w3, R w1 w2 → R w2 w3 → R w1 w3.
Hypothesis R_native :
  ∀ w n tr, R w (mkWorld (graphs w) (vertex_objs w) (edge_objs w) (next_ref w) n tr).

Lemma keeps_ret {A} (a : A) : keeps R (ret a).
Proof. intros w. apply R_refl. Qed.

Lemma keeps_raise {A} c msg : keeps R (raise (A := A) c msg).
Proof. intros w. apply R_refl. Qed.

Lemma keeps_lift_res {A} (r : Res A) : keeps R (lift_res r).
Proof. intros w. apply R_refl. Qed.

Lemma keeps_get_world : keeps R get_world.
Proof. intros w. apply R_refl. Qed.

Lemma keeps_get_graph g : keeps R (get_graph g).
Proof. intros w. unfold exec, get_graph. destruct (graphs w !! g); apply R_refl. Qed.

Lemma keeps_get_vertex v : keeps R (get_vertex v).
Proof. intros w. unfold exec, get_vertex. destruct (vertex_objs w !! v); apply R_refl. Qed.

Lemma keeps_get_edge e : keeps R (get_edge e).
Proof. intros w. unfold exec, get_edge. destruct (edge_objs w !! e); apply R_refl. Qed.

Lemma keeps_invoke c : keeps R (invoke c).
Proof.
  intros w. unfold exec, invoke. destruct (native_call c (native w)). apply R_native.
Qed.

Lemma keeps_bind {A B} (m : StateExc NS A) (k : A → StateExc NS B) :
  keeps R m → (∀ a, keeps R (k a)) → keeps R (bind m k).
Proof.
  intros Hm Hk w. specialize (Hm w). unfold exec, bind in *.
  destruct (m w) as [[a | x] w1]; simpl in Hm; [| done].
  eapply R_trans; [exact Hm |]. apply (Hk a w1).
Qed.

Lemma keeps_try_except {A} (m h : StateExc NS A) :
  keeps R m → keeps R h → keeps R (try_except m h).
Proof.
  intros Hm Hh w. specialize (Hm w). unfold exec, try_except in *.
  destruct (m w) as [[a | x] w1]; simpl in Hm; [done |].
  eapply R_trans; [exact Hm |]. apply (Hh w1).
Qed.

Lemma keeps_try_except_as {A} K (m : StateExc NS A) (h : Exc → StateExc NS A) :
  keeps R m → (∀ e, keeps R (h e)) → keeps R (try_except_as K m h).
Proof.
  intros Hm Hh w. specialize (Hm w). unfold exec, try_except_as in *.
  destruct (m w) as [[a | x] w1]; simpl in Hm; [done |].
  destruct (issubclass (exc_class x) K); [| done].
  eapply R_trans; [exact Hm |]. apply (Hh x w1).
Qed.

Lemma keeps_for_each {A} (l : list A) (f : A → StateExc NS unit) :
  (∀ x, keeps R (f x)) → keeps R (for_each l f).
Proof.
  intros Hf. induction l as [| x l IH]; simpl; [apply keeps_ret |].
  apply keeps_bind; [done |]. by intros _.
Qed.

Lemma keeps_comprehension_if {A} (l : list A) (p : A → StateExc NS bool) :
  (∀ x, keeps R (p x)) → keeps R (comprehension_if l p).
Proof.
  intros Hp. induction l as [| x l IH]; simpl; [apply keeps_ret |].
  apply keeps_bind; [done |]. intros b.
  apply keeps_bind; [done |]. intros r. apply keeps_ret.
Qed.

Lemma keeps_comprehension_map {A B} (l : list A) (f : A → StateExc NS B) :
  (∀ x, keeps R (f x)) → keeps R (comprehension_map l f).
Proof.
  intros Hf. induction l as [| x l IH]; simpl; [apply keeps_ret |].
  apply keeps_bind; [done |]. intros b.
  apply keeps_bind; [done |]. intros r. apply keeps_ret.
Qed.

Lemma keeps_first_match {A} (l : list A) (p : A → StateExc NS bool) :
  (∀ x, keeps R (p x)) → keeps R (first_match l p).
Proof.
  intros Hp. induction l as [| x l IH]; simpl; [apply keeps_ret |].
  apply keeps_bind; [done |]. intros b. destruct b; [apply keeps_ret | done].
Qed.

Create HintDb frames.
#[local] Hint Resolve keeps_ret keeps_raise keeps_lift_res keeps_get_world keeps_get_graph
  keeps_get_vertex keeps_get_edge keeps_invoke : frames.

Ltac frame :=
  repeat first
    [ solve [auto with frames]
    | apply keeps_bind; [| intros ?]
    | apply keeps_try_except
    | apply keeps_try_except_as; [| intros ?]
    | apply keeps_for_each; intros ?
    | apply keeps_comprehension_if; intros ?
    | apply keeps_comprehension_map; intros ?
    | apply keeps_first_match; intros ?
    | match goal with
      | |- keeps _ (if ?b then _ else _) => destruct b
      | |- keeps _ (match ?x with _ => _ end) => destruct x
      end ].

(** The broker only talks to the native side. *)
Lemma keeps_decode_buffer n written dflt : keeps R (decode_buffer n written dflt).
Proof. unfold decode_buffer. frame. Qed.
#[local] Hint Resolve keeps_decode_buffer : frames.

Lemma keeps_encode s : keeps R (encode s).
Proof. unfold encode. frame. Qed.
#[local] Hint Resolve keeps_encode : frames.

Lemma keeps_encode_list l : keeps R (encode_list l).
Proof.
  induction l as [| x l IH]; simpl; [apply keeps_ret |].
  apply keeps_bind; [apply keeps_encode |]. intros y.
  apply keeps_bind; [done |]. intros r. apply keeps_ret.
Qed.
#[local] Hint Resolve keeps_encode_list : frames.

Lemma keeps_encode_id vid : keeps R (encode_id vid).
Proof. unfold encode_id. frame. Qed.

Lemma keeps_encode_keys props : keeps R (encode_keys props).
Proof. unfold encode_keys. frame. Qed.

Lemma keeps_encode_values props : keeps R (encode_values props).
Proof. unfold encode_values. frame. Qed.
#[local] Hint Resolve keeps_encode_id keeps_encode_keys keeps_encode_values : frames.

Lemma keeps_NativeGraphHandle_init : keeps R NativeGraphHandle_init.
Proof. unfold NativeGraphHandle_init. frame. Qed.

Lemma keeps_NativeGraphHandle_add_vertex p vid :
  keeps R (NativeGraphHandle_add_vertex p vid).
Proof. unfold NativeGraphHandle_add_vertex. frame. Qed.

Lemma keeps_NativeGraphHandle_add_vertex_with_properties p vid props :
  keeps R (NativeGraphHandle_add_vertex_with_properties p vid props).
Proof. unfold NativeGraphHandle_add_vertex_with_properties. frame. Qed.

Lemma keeps_NativeGraphHandle_add_edge p l o i : keeps R (NativeGraphHandle_add_edge p l o i).
Proof. unfold NativeGraphHandle_add_edge. frame. Qed.

Lemma keeps_NativeGraphHandle_add_edge_with_properties p l o i props :
  keeps R (NativeGraphHandle_add_edge_with_properties p l o i props).
Proof. unfold NativeGraphHandle_add_edge_with_properties. frame. Qed.

Lemma keeps_NativeGraphHandle_vertex_count p : keeps R (NativeGraphHandle_vertex_count p).
Proof. unfold NativeGraphHandle_vertex_count. frame. Qed.

Lemma keeps_NativeGraphHandle_edge_count p : keeps R (NativeGraphHandle_edge_count p).
Proof. unfold NativeGraphHandle_edge_count. frame. Qed.

Lemma keeps_NativeGraphHandle_get_vertex_id p n : keeps R (NativeGraphHandle_get_vertex_id p n).
Proof. unfold NativeGraphHandle_get_vertex_id. frame. Qed.

Lemma keeps_NativeGraphHandle_get_edge_label p n : keeps R (NativeGraphHandle_get_edge_label p n).
Proof. unfold NativeGraphHandle_get_edge_label. frame. Qed.

Lemma keeps_NativeGraphHandle_get_last_error n : keeps R (NativeGraphHandle_get_last_error n).
Proof. unfold NativeGraphHandle_get_last_error. frame. Qed.

Lemma keeps_NativeGraphHandle_destroy_vertex p : keeps R (NativeGraphHandle_destroy_vertex p).
Proof. unfold NativeGraphHandle_destroy_vertex. frame. Qed.

Lemma keeps_NativeGraphHandle_destroy_edge p : keeps R (NativeGraphHandle_destroy_edge p).
Proof. unfold NativeGraphHandle_destroy_edge. frame. Qed.
#[local] Hint Resolve keeps_NativeGraphHandle_init keeps_NativeGraphHandle_add_vertex
  keeps_NativeGraphHandle_add_vertex_with_properties keeps_NativeGraphHandle_add_edge
  keeps_NativeGraphHandle_add_edge_with_properties keeps_NativeGraphHandle_vertex_count
  keeps_NativeGraphHandle_edge_count keeps_NativeGraphHandle_get_vertex_id
  keeps_NativeGraphHandle_get_edge_label keeps_NativeGraphHandle_get_last_error
  keeps_NativeGraphHandle_destroy_vertex keeps_NativeGraphHandle_destroy_edge : frames.

(** The methods that read. *)
Lemma keeps_check_not_closed g : keeps R (TinkerGraph__check_not_closed g).
Proof. unfold TinkerGraph__check_not_closed. frame. Qed.
#[local] Hint Resolve keeps_check_not_closed : frames.

Lemma keeps_vertex_count g : keeps R (TinkerGraph_vertex_count g).
Proof. unfold TinkerGraph_vertex_count. frame. Qed.

Lemma keeps_edge_count g : keeps R (TinkerGraph_edge_count g).
Proof. unfold TinkerGraph_edge_count. frame. Qed.
#[local] Hint Resolve keeps_vertex_count keeps_edge_count : frames.

Lemma keeps_len g : keeps R (TinkerGraph___len__ g).
Proof. unfold TinkerGraph___len__. frame. Qed.
#[local] Hint Resolve keeps_len : frames.

Lemma keeps_py_len g : keeps R (py_len g).
Proof. unfold py_len. frame. Qed.
#[local] Hint Resolve keeps_py_len : frames.

Lemma keeps_str g : keeps R (TinkerGraph___str__ g).
Proof. unfold TinkerGraph___str__. frame. Qed.

Lemma keeps_py_bool graph : keeps R (py_bool graph).
Proof. unfold py_bool. frame. Qed.

Lemma keeps_Vertex__graph v : keeps R (Vertex__graph v).
Proof. unfold Vertex__graph. frame. Qed.

Lemma keeps_Edge__graph e : keeps R (Edge__graph e).
Proof. unfold Edge__graph. frame. Qed.
#[local] Hint Resolve keeps_str keeps_py_bool keeps_Vertex__graph keeps_Edge__graph : frames.

Lemma keeps_Vertex___eq__ a b : keeps R (Vertex___eq__ a b).
Proof. unfold Vertex___eq__. frame. Qed.

Lemma keeps_Edge___eq__ a b : keeps R (Edge___eq__ a b).
Proof. unfold Edge___eq__. frame. Qed.
#[local] Hint Resolve keeps_Vertex___eq__ keeps_Edge___eq__ : frames.

Lemma keeps_Vertex___hash__ h v : keeps R (Vertex___hash__ h v).
Proof. unfold Vertex___hash__. frame. Qed.

Lemma keeps_Edge___hash__ h e : keeps R (Edge___hash__ h e).
Proof. unfold Edge___hash__. frame. Qed.

Lemma keeps_Vertex_get_property v key dflt : keeps R (Vertex_get_property v key dflt).
Proof. unfold Vertex_get_property. frame. Qed.

Lemma keeps_Edge_get_property e key dflt : keeps R (Edge_get_property e key dflt).
Proof. unfold Edge_get_property. frame. Qed.

Lemma keeps_Vertex__matches_properties v F : keeps R (Vertex__matches_properties v F).
Proof. unfold Vertex__matches_properties. frame. Qed.

Lemma keeps_Edge__matches_properties e F : keeps R (Edge__matches_properties e F).
Proof. unfold Edge__matches_properties. frame. Qed.
#[local] Hint Resolve keeps_Vertex___hash__ keeps_Edge___hash__ keeps_Vertex_get_property
  keeps_Edge_get_property keeps_Vertex__matches_properties
  keeps_Edge__matches_properties : frames.

Lemma keeps_vertices g F : keeps R (TinkerGraph_vertices g F).
Proof. unfold TinkerGraph_vertices. frame. Qed.

Lemma keeps_edges g F : keeps R (TinkerGraph_edges g F).
Proof. unfold TinkerGraph_edges. frame. Qed.

Lemma keeps_get_vertex_by_id g x : keeps R (TinkerGraph_get_vertex g x).
Proof. unfold TinkerGraph_get_vertex. frame. Qed.

Lemma keeps_filter_labels labels edges : keeps R (filter_labels labels edges).
Proof. unfold filter_labels. frame. Qed.
#[local] Hint Resolve keeps_vertices keeps_edges keeps_get_vertex_by_id
  keeps_filter_labels : frames.

Lemma keeps_out_edges v labels : keeps R (Vertex_out_edges v labels).
Proof. unfold Vertex_out_edges. frame. Qed.

Lemma keeps_in_edges v labels : keeps R (Vertex_in_edges v labels).
Proof. unfold Vertex_in_edges. frame. Qed.
#[local] Hint Resolve keeps_out_edges keeps_in_edges : frames.

Lemma keeps_both_edges v labels : keeps R (Vertex_both_edges v labels).
Proof. unfold Vertex_both_edges. frame. Qed.

Lemma keeps_out_vertices v labels : keeps R (Vertex_out_vertices v labels).
Proof. unfold Vertex_out_vertices. frame. Qed.

Lemma keeps_in_vertices v labels : keeps R (Vertex_in_vertices v labels).
Proof. unfold Vertex_in_vertices. frame. Qed.
#[local] Hint Resolve keeps_both_edges keeps_out_vertices keeps_in_vertices : frames.

Lemma keeps_both_vertices v labels : keeps R (Vertex_both_vertices v labels).
Proof. unfold Vertex_both_vertices. frame. Qed.

Lemma keeps_other_vertex e v : keeps R (Edge_other_vertex e v).
Proof. unfold Edge_other_vertex. frame. Qed.
#[local] Hint Resolve keeps_both_vertices keeps_other_vertex : frames.

(** The methods that dispose of wrappers and unregister edges, for a relation
    that allows these updates. *)
Hypothesis R_dispose_vertex :
  ∀ w v V, vertex_objs w !! v = Some V →
    R w (mkWorld (graphs w) (<[v := dispose_vertex V]> (vertex_objs w)) (edge_objs w)
                 (next_ref w) (native w) (trace w)).
Hypothesis R_dispose_edge :
  ∀ w e E, edge_objs w !! e = Some E →
    R w (mkWorld (graphs w) (vertex_objs w) (<[e := dispose_edge E]> (edge_objs w))
                 (next_ref w) (native w) (trace w)).
Hypothesis R_set_edges :
  ∀ w g G d, graphs w !! g = Some G →
    R w (mkWorld (<[g := set_edges G d]> (graphs w)) (vertex_objs w) (edge_objs w)
                 (next_ref w) (native w) (trace w)).

Lemma keeps_dispose_vertex_step v :
  keeps R (V' <- get_vertex v ;; put_vertex v (dispose_vertex V')).
Proof.
  intros w. unfold exec, bind, get_vertex, put_vertex.
  destruct (vertex_objs w !! v) eqn:HV; simpl; [by apply R_dispose_vertex | apply R_refl].
Qed.

Lemma keeps_dispose_edge_step e :
  keeps R (E' <- get_edge e ;; put_edge e (dispose_edge E')).
Proof.
  intros w. unfold exec, bind, get_edge, put_edge.
  destruct (edge_objs w !! e) eqn:HE; simpl; [by apply R_dispose_edge | apply R_refl].
Qed.

Lemma keeps_set_edges_step g (f : TinkerGraph → gmap Z ref) :
  keeps R (G' <- get_graph g ;; put_graph g (set_edges G' (f G'))).
Proof.
  intros w. unfold exec, bind, get_graph, put_graph.
  destruct (graphs w !! g) eqn:HG; simpl; [by apply R_set_edges | apply R_refl].
Qed.
#[local] Hint Resolve keeps_dispose_vertex_step keeps_dispose_edge_step : frames.

Lemma keeps_Vertex__cleanup v : keeps R (Vertex__cleanup v).
Proof. unfold Vertex__cleanup. frame. Qed.

Lemma keeps_Edge__cleanup e : keeps R (Edge__cleanup e).
Proof. unfold Edge__cleanup. frame. Qed.
#[local] Hint Resolve keeps_Vertex__cleanup keeps_Edge__cleanup : frames.

Lemma keeps_remove_edge g e : keeps R (TinkerGraph_remove_edge g e).
Proof.
  unfold TinkerGraph_remove_edge.
  apply keeps_bind; [auto with frames |]. intros _.
  apply keeps_bind; [auto with frames |]. intros E.
  apply keeps_bind; [auto with frames |]. intros G.
  destruct (bool_decide _); [| apply keeps_ret].
  apply keeps_bind; [auto with frames |]. intros _.
  apply (keeps_set_edges_step g (λ G', delete (edge_ptr E) (graph_edges G'))).
Qed.
#[local] Hint Resolve keeps_remove_edge : frames.

(** The methods that unregister vertices and write overlays. *)
Hypothesis R_set_vertices :
  ∀ w g G d, graphs w !! g = Some G →
    R w (mkWorld (<[g := set_vertices G d]> (graphs w)) (vertex_objs w) (edge_objs w)
                 (next_ref w) (native w) (trace w)).
Hypothesis R_set_properties :
  ∀ w v V d, vertex_objs w !! v = Some V →
    R w (mkWorld (graphs w) (<[v := set_properties V d]> (vertex_objs w)) (edge_objs w)
                 (next_ref w) (native w) (trace w)).
Hypothesis R_set_edge_properties :
  ∀ w e E d, edge_objs w !! e = Some E →
    R w (mkWorld (graphs w) (vertex_objs w) (<[e := set_edge_properties E d]> (edge_objs w))
                 (next_ref w) (native w) (trace w)).

Lemma keeps_set_vertices_step g (f : TinkerGraph → gmap Z ref) :
  keeps R (G' <- get_graph g ;; put_graph g (set_vertices G' (f G'))).
Proof.
  intros w. unfold exec, bind, get_graph, put_graph.
  destruct (graphs w !! g) eqn:HG; simpl; [by apply R_set_vertices | apply R_refl].
Qed.

Lemma keeps_remove_vertex g v : keeps R (TinkerGraph_remove_vertex g v).
Proof.
  unfold TinkerGraph_remove_vertex.
  apply keeps_bind; [auto with frames |]. intros _.
  apply keeps_bind; [auto with frames |]. intros V.
  apply keeps_bind; [auto with frames |]. intros G.
  destruct (bool_decide _); [| apply keeps_ret].
  apply keeps_bind; [frame |]. intros es.
  apply keeps_bind; [apply keeps_for_each; auto with frames |]. intros _.
  apply keeps_bind; [auto with frames |]. intros _.
  apply (keeps_set_vertices_step g (λ G', delete (vertex_ptr V) (graph_vertices G'))).
Qed.
#[local] Hint Resolve keeps_remove_vertex : frames.

Lemma keeps_clear g : keeps R (TinkerGraph_clear g).
Proof.
  unfold TinkerGraph_clear.
  apply keeps_bind; [auto with frames |]. intros _.
  apply keeps_bind; [auto with frames |]. intros G.
  apply keeps_bind; [apply keeps_for_each; auto with frames |]. intros _.
  apply keeps_bind; [auto with frames |]. intros G'.
  apply keeps_for_each; auto with frames.
Qed.

Lemma keeps_Vertex_set_property v key val : keeps R (Vertex_set_property v key val).
Proof.
  intros w. unfold exec, Vertex_set_property.
  destruct key as [| b | z | k]; try apply R_refl.
  unfold bind, get_vertex, put_vertex.
  destruct (vertex_objs w !! v) eqn:HV; simpl; [by apply R_set_properties | apply R_refl].
Qed.

Lemma keeps_Vertex_remove_property v key : keeps R (Vertex_remove_property v key).
Proof.
  intros w. unfold exec, Vertex_remove_property, bind, get_vertex, put_vertex, ret.
  destruct (vertex_objs w !! v) eqn:HV; simpl; [| apply R_refl].
  destruct key as [| b | z | k]; simpl; try apply R_refl. by apply R_set_properties.
Qed.

Lemma keeps_Edge_set_property e key val : keeps R (Edge_set_property e key val).
Proof.
  intros w. unfold exec, Edge_set_property.
  destruct key as [| b | z | k]; try apply R_refl.
  unfold bind, get_edge, put_edge.
  destruct (edge_objs w !! e) eqn:HE; simpl; [by apply R_set_edge_properties | apply R_refl].
Qed.

Lemma keeps_Edge_remove_property e key : keeps R (Edge_remove_property e key).
Proof.
  intros w. unfold exec, Edge_remove_property, bind, get_edge, put_edge, ret.
  destruct (edge_objs w !! e) eqn:HE; simpl; [| apply R_refl].
  destruct key as [| b | z | k]; simpl; try apply R_refl. by apply R_set_edge_properties.
Qed.

(** [close], for a relation that allows a graph to be emptied and closed. *)
Hypothesis R_close :
  ∀ w g G, graphs w !! g = Some G →
    R w (mkWorld (<[g := mkGraph (graph_native G) ∅ ∅ (graph_vertex_id_counter G) true]>
                    (graphs w))
                 (vertex_objs w) (edge_objs w) (next_ref w) (native w) (trace w)).

Lemma keeps_close g : keeps R (TinkerGraph_close g).
Proof.
  unfold TinkerGraph_close.
  apply keeps_bind; [auto with frames |]. intros G.
  destruct (negb _); [| apply keeps_ret].
  apply keeps_bind; [apply keeps_for_each; auto with frames |]. intros _.
  apply keeps_bind; [apply keeps_for_each; auto with frames |]. intros _.
  intros w. unfold exec, bind, get_graph, put_graph.
  destruct (graphs w !! g) eqn:HG; simpl; [by apply R_close | apply R_refl].
Qed.

End Frames.

(** *** Reading never changes an object *)

Lemma objects_same_refl {NS} (w : World NS) : objects_same w w.
Proof. done. Qed.

Lemma objects_same_trans {NS} (w1 w2 w3 : World NS) :
  objects_same w1 w2 → objects_same w2 w3 → objects_same w1 w3.
Proof.
  intros (? & ? & ? & ?) (? & ? & ? & ?). unfold objects_same. repeat split; congruence.
Qed.

Lemma objects_same_native {NS} (w : World NS) n tr :
  objects_same w (mkWorld (graphs w) (vertex_objs w) (edge_objs w) (next_ref w) n tr).
Proof. done. Qed.

(** Whatever the native side answers, and whether the call returns or raises,
    a reading method leaves every graph and wrapper exactly as it was: only
    the native state and the call trace can differ. *)
Theorem queries_leave_objects_alone {NS} `{!NativeFunctionTable NS}
    (q : Query) (w : World NS) :
  objects_same w (after_query q w).
Proof.
  destruct q; simpl;
    [ apply keeps_vertex_count | apply keeps_edge_count | apply keeps_py_len
    | apply keeps_str | apply keeps_vertices | apply keeps_edges
    | apply keeps_get_vertex_by_id | apply keeps_Vertex_get_property
    | apply keeps_Edge_get_property | apply keeps_out_edges | apply keeps_in_edges
    | apply keeps_both_edges | apply keeps_out_vertices | apply keeps_in_vertices
    | apply keeps_both_vertices | apply keeps_other_vertex | apply keeps_Vertex___eq__
    | apply keeps_Edge___eq__ ];
    first [ exact objects_same_refl | exact objects_same_trans | exact objects_same_native ].
Qed.

(** *** Writing never changes an identity *)

Lemma identities_kept_refl {NS} (w : World NS) : identities_kept w w.
Proof. split; [| split]; intros r X HX; exists X; done. Qed.

Lemma identities_kept_trans {NS} (w1 w2 w3 : World NS) :
  identities_kept w1 w2 → identities_kept w2 w3 → identities_kept w1 w3.
Proof.
  intros (Hv1 & He1 & Hg1) (Hv2 & He2 & Hg2). split; [| split].
  - intros v V HV. destruct (Hv1 v V HV) as (V' & HV' & ? & ? & ? & ?).
    destruct (Hv2 v V' HV') as (V'' & HV'' & ? & ? & ? & ?).
    exists V''. repeat split; congruence.
  - intros e E HE. destruct (He1 e E HE) as (E' & HE' & ? & ? & ? & ? & ? & ?).
    destruct (He2 e E' HE') as (E'' & HE'' & ? & ? & ? & ? & ? & ?).
    exists E''. repeat split; congruence.
  - intros g G HG. destruct (Hg1 g G HG) as (G' & HG' & ? & Hc1).
    destruct (Hg2 g G' HG') as (G'' & HG'' & ? & Hc2).
    exists G''. split; [done |]. split; [congruence | auto].
Qed.

Lemma grows_refl {NS} (w : World NS) : grows w w.
Proof. intros Hf. split; [done | apply identities_kept_refl]. Qed.

Lemma grows_trans {NS} (w1 w2 w3 : World NS) : grows w1 w2 → grows w2 w3 → grows w1 w3.
Proof.
  intros H12 H23 Hf. destruct (H12 Hf) as [Hf2 Hk12]. destruct (H23 Hf2) as [Hf3 Hk23].
  split; [done |]. by eapply identities_kept_trans.
Qed.

Lemma grows_native {NS} (w : World NS) n tr :
  grows w (mkWorld (graphs w) (vertex_objs w) (edge_objs w) (next_ref w) n tr).
Proof.
  intros Hf. split; [done |].
  split; [| split]; intros r X HX; exists X; done.
Qed.

Lemma grows_put_graph {NS} (w : World NS) g G G' :
  graphs w !! g = Some G → graph_native G' = graph_native G →
  (graph_closed G = true → graph_closed G' = true) →
  grows w (mkWorld (<[g := G']> (graphs w)) (vertex_objs w) (edge_objs w)
                   (next_ref w) (native w) (trace w)).
Proof.
  intros HG Hn Hc (Hfg & Hfv & Hfe). split.
  - split; [| done]. simpl. intros r Hr.
    apply lookup_insert_is_Some in Hr as [<- | [_ Hr]]; apply Hfg; eauto.
  - split; [| split]; simpl; [intros r X HX; exists X; done
                               | intros r X HX; exists X; done |].
    intros r X HX. destruct (decide (g = r)) as [<- | Hne].
    + rewrite lookup_insert_eq. exists G'. rewrite HG in HX. injection HX as <-. done.
    + rewrite lookup_insert_ne by done. exists X. done.
Qed.

Lemma grows_put_vertex {NS} (w : World NS) v V V' :
  vertex_objs w !! v = Some V →
  vertex_ptr V' = vertex_ptr V → vertex_id V' = vertex_id V →
  vertex_label V' = vertex_label V → vertex_graph_ref V' = vertex_graph_ref V →
  grows w (mkWorld (graphs w) (<[v := V']> (vertex_objs w)) (edge_objs w)
                   (next_ref w) (native w) (trace w)).
Proof.
  intros HV H1 H2 H3 H4 (Hfg & Hfv & Hfe). split.
  - split; [done |]. split; [| done]. simpl. intros r Hr.
    apply lookup_insert_is_Some in Hr as [<- | [_ Hr]]; apply Hfv; eauto.
  - split; [| split]; simpl; [| intros r X HX; exists X; done
                               | intros r X HX; exists X; done].
    intros r X HX. destruct (decide (v = r)) as [<- | Hne].
    + rewrite lookup_insert_eq. exists V'. rewrite HV in HX. injection HX as <-. done.
    + rewrite lookup_insert_ne by done. exists X. done.
Qed.

Lemma grows_put_edge {NS} (w : World NS) e E E' :
  edge_objs w !! e = Some E →
  edge_ptr E' = edge_ptr E → edge_id E' = edge_id E → edge_label E' = edge_label E →
  edge_out_vertex E' = edge_out_vertex E → edge_in_vertex E' = edge_in_vertex E →
  edge_graph_ref E' = edge_graph_ref E →
  grows w (mkWorld (graphs w) (vertex_objs w) (<[e := E']> (edge_objs w))
                   (next_ref w) (native w) (trace w)).
Proof.
  intros HE H1 H2 H3 H4 H5 H6 (Hfg & Hfv & Hfe). split.
  - split; [done |]. split; [done |]. simpl. intros r Hr.
    apply lookup_insert_is_Some in Hr as [<- | [_ Hr]]; apply Hfe; eauto.
  - split; [| split]; simpl; [intros r X HX; exists X; done |
                               | intros r X HX; exists X; done].
    intros r X HX. destruct (decide (e = r)) as [<- | Hne].
    + rewrite lookup_insert_eq. exists E'. rewrite HE in HX. injection HX as <-. done.
    + rewrite lookup_insert_ne by done. exists X. done.
Qed.

(** A new object takes the next identity, which no object has. *)
Lemma grows_new_graph {NS} (w : World NS) G n tr :
  grows w (mkWorld (<[next_ref w := G]> (graphs w)) (vertex_objs w) (edge_objs w)
                   (S (next_ref w)) n tr).
Proof.
  intros (Hfg & Hfv & Hfe). split.
  - split; [| split]; simpl; intros r Hr.
    + apply lookup_insert_is_Some in Hr as [<- | [_ Hr]]; [lia |].
      pose proof (Hfg r Hr). lia.
    + pose proof (Hfv r Hr). lia.
    + pose proof (Hfe r Hr). lia.
  - split; [| split]; simpl; [intros r X HX; exists X; done
                               | intros r X HX; exists X; done |].
    intros r X HX. assert (r < next_ref w)%nat by (apply Hfg; eauto).
    rewrite lookup_insert_ne by lia. exists X. done.
Qed.

Lemma grows_new_vertex {NS} (w : World NS) V :
  grows w (mkWorld (graphs w) (<[next_ref w := V]> (vertex_objs w)) (edge_objs w)
                   (S (next_ref w)) (native w) (trace w)).
Proof.
  intros (Hfg & Hfv & Hfe). split.
  - split; [| split]; simpl; intros r Hr.
    + pose proof (Hfg r Hr). lia.
    + apply lookup_insert_is_Some in Hr as [<- | [_ Hr]]; [lia |].
      pose proof (Hfv r Hr). lia.
    + pose proof (Hfe r Hr). lia.
  - split; [| split]; simpl; [| intros r X HX; exists X; done
                               | intros r X HX; exists X; done].
    intros r X HX. assert (r < next_ref w)%nat by (apply Hfv; eauto).
    rewrite lookup_insert_ne by lia. exists X. done.
Qed.

Lemma grows_new_edge {NS} (w : World NS) E :
  grows w (mkWorld (graphs w) (vertex_objs w) (<[next_ref w := E]> (edge_objs w))
                   (S (next_ref w)) (native w) (trace w)).
Proof.
  intros (Hfg & Hfv & Hfe). split.
  - split; [| split]; simpl; intros r Hr.
    + pose proof (Hfg r Hr). lia.
    + pose proof (Hfv r Hr). lia.
    + apply lookup_insert_is_Some in Hr as [<- | [_ Hr]]; [lia |].
      pose proof (Hfe r Hr). lia.
  - split; [| split]; simpl; [intros r X HX; exists X; done |
                               | intros r X HX; exists X; done].
    intros r X HX. assert (r < next_ref w)%nat by (apply Hfe; eauto).
    rewrite lookup_insert_ne by lia. exists X. done.
Qed.

Lemma grows_dispose_vertex {NS} (w : World NS) v V :
  vertex_objs w !! v = Some V →
  grows w (mkWorld (graphs w) (<[v := dispose_vertex V]> (vertex_objs w)) (edge_objs w)
                   (next_ref w) (native w) (trace w)).
Proof. intros HV. by apply (grows_put_vertex w v V). Qed.

Lemma grows_dispose_edge {NS} (w : World NS) e E :
  edge_objs w !! e = Some E →
  grows w (mkWorld (graphs w) (vertex_objs w) (<[e := dispose_edge E]> (edge_objs w))
                   (next_ref w) (native w) (trace w)).
Proof. intros HE. by apply (grows_put_edge w e E). Qed.

Lemma grows_set_edges {NS} (w : World NS) g G d :
  graphs w !! g = Some G →
  grows w (mkWorld (<[g := set_edges G d]> (graphs w)) (vertex_objs w) (edge_objs w)
                   (next_ref w) (native w) (trace w)).
Proof. intros HG. by apply (grows_put_graph w g G). Qed.

Lemma grows_set_vertices {NS} (w : World NS) g G d :
  graphs w !! g = Some G →
  grows w (mkWorld (<[g := set_vertices G d]> (graphs w)) (vertex_objs w) (edge_objs w)
                   (next_ref w) (native w) (trace w)).
Proof. intros HG. by apply (grows_put_graph w g G). Qed.

Lemma grows_set_properties {NS} (w : World NS) v V d :
  vertex_objs w !! v = Some V →
  grows w (mkWorld (graphs w) (<[v := set_properties V d]> (vertex_objs w)) (edge_objs w)
                   (next_ref w) (native w) (trace w)).
Proof. intros HV. by apply (grows_put_vertex w v V). Qed.

Lemma grows_set_edge_properties {NS} (w : World NS) e E d :
  edge_objs w !! e = Some E →
  grows w (mkWorld (graphs w) (vertex_objs w) (<[e := set_edge_properties E d]> (edge_objs w))
                   (next_ref w) (native w) (trace w)).
Proof. intros HE. by apply (grows_put_edge w e E). Qed.

Lemma grows_close {NS} (w : World NS) g G :
  graphs w !! g = Some G →
  grows w (mkWorld (<[g := mkGraph (graph_native G) ∅ ∅ (graph_vertex_id_counter G) true]>
                      (graphs w))
                   (vertex_objs w) (edge_objs w) (next_ref w) (native w) (trace w)).
Proof. intros HG. by apply (grows_put_graph w g G). Qed.

Tactic Notation "grows_by" open_constr(lem) :=
  apply lem;
  try first [ exact grows_refl | exact grows_trans | exact grows_native
            | exact grows_dispose_vertex | exact grows_dispose_edge | exact grows_set_edges
            | exact grows_set_vertices | exact grows_set_properties
            | exact grows_set_edge_properties | exact grows_close ].

Section Growth.

Context {NS : Type} `{!NativeFunctionTable NS}.

Lemma grows_init : keeps grows (TinkerGraph_init (NS := NS)).
Proof.
  intros w. unfold exec. rewrite init_creates_open_empty_graph_eq.
  destruct (bool_decide _); simpl; [apply grows_native | apply grows_new_graph].
Qed.

End Growth.

Section GrowthOfAdds.

Context {NS : Type} `{!NativeFunctionTable NS}.

Lemma grows_add_vertex g label vertex_id props :
  keeps grows (TinkerGraph_add_vertex (NS := NS) g label vertex_id props).
Proof.
  unfold TinkerGraph_add_vertex.
  grows_by keeps_bind; [grows_by keeps_check_not_closed |]. intros _.
  grows_by keeps_bind.
  { destruct label; first [grows_by keeps_ret | grows_by keeps_raise]. }
  intros _. grows_by keeps_bind.
  { destruct vertex_id; first [grows_by keeps_ret | grows_by keeps_raise]. }
  intros _. grows_by keeps_try_except_as; [| intros e; grows_by keeps_raise].
  grows_by keeps_bind; [grows_by keeps_get_graph |]. intros G.
  grows_by keeps_bind.
  { destruct (bool_decide _);
      [grows_by keeps_NativeGraphHandle_add_vertex
      | grows_by keeps_NativeGraphHandle_add_vertex_with_properties]. }
  intros ptr. grows_by keeps_bind.
  { destruct (match vertex_id with VStr s => Some s | _ => None end);
      [grows_by keeps_ret |].
    grows_by keeps_try_except; [grows_by keeps_NativeGraphHandle_get_vertex_id |].
    intros w. unfold exec, bind, get_graph, put_graph, ret.
    destruct (graphs w !! g) as [G0|] eqn:HG; simpl; [| apply grows_refl].
    by apply (grows_put_graph w g G0). }
  intros id w. unfold exec, bind, new_ref, put_vertex, get_graph, put_graph, ret. simpl.
  match goal with
  | |- context [<[next_ref w := ?V]> (vertex_objs w)] =>
      pose proof (grows_new_vertex w V) as Hnew
  end.
  destruct (graphs w !! g) as [G0|] eqn:HG; simpl; [| exact Hnew].
  eapply grows_trans; [exact Hnew |].
  match goal with
  | |- grows ?w1 _ => apply (grows_put_graph w1 g G0); [exact HG | done | done]
  end.
Qed.

Lemma grows_add_edge g label o i edge_id props :
  keeps grows (TinkerGraph_add_edge (NS := NS) g label o i edge_id props).
Proof.
  unfold TinkerGraph_add_edge.
  grows_by keeps_bind; [grows_by keeps_check_not_closed |]. intros _.
  grows_by keeps_bind.
  { destruct label; first [grows_by keeps_ret | grows_by keeps_raise]. }
  intros L. grows_by keeps_bind.
  { destruct o; first [grows_by keeps_ret | grows_by keeps_raise]. }
  intros a. grows_by keeps_bind.
  { destruct i; first [grows_by keeps_ret | grows_by keeps_raise]. }
  intros b.
  grows_by keeps_bind; [grows_by keeps_Vertex__graph |]. intros go.
  grows_by keeps_bind; [grows_by keeps_Vertex__graph |]. intros gi.
  destruct (_ || _); [grows_by keeps_raise |].
  grows_by keeps_try_except_as; [| intros e; grows_by keeps_raise].
  grows_by keeps_bind; [grows_by keeps_get_graph |]. intros G.
  grows_by keeps_bind; [grows_by keeps_get_vertex |]. intros O.
  grows_by keeps_bind; [grows_by keeps_get_vertex |]. intros I.
  grows_by keeps_bind.
  { destruct (bool_decide _);
      [grows_by keeps_NativeGraphHandle_add_edge
      | grows_by keeps_NativeGraphHandle_add_edge_with_properties]. }
  intros ptr w. unfold exec, bind, new_ref, put_edge, get_graph, put_graph, ret. simpl.
  match goal with
  | |- context [<[next_ref w := ?E]> (edge_objs w)] =>
      pose proof (grows_new_edge w E) as Hnew
  end.
  destruct (graphs w !! g) as [G0|] eqn:HG; simpl; [| exact Hnew].
  eapply grows_trans; [exact Hnew |].
  match goal with
  | |- grows ?w1 _ => apply (grows_put_graph w1 g G0); [exact HG | done | done]
  end.
Qed.

(** No public method changes the identity of an object.  In a store without
    dangling identities, after any writing method, returning or raising,
    every vertex wrapper has the handle, id, label and graph it had, every
    edge wrapper the handle, id, label, endpoints and graph it had, every
    graph its native handle, and a closed graph is still closed. *)
Theorem identities_never_change (m : Mutation) (w : World NS) :
  fresh_ok w →
  fresh_ok (after_mutation m w) ∧ identities_kept w (after_mutation m w).
Proof.
  change (grows w (after_mutation m w)).
  destruct m; simpl.
  - apply grows_init.
  - apply grows_add_vertex.
  - apply grows_add_edge.
  - grows_by keeps_remove_vertex.
  - grows_by keeps_remove_edge.
  - grows_by keeps_clear.
  - grows_by keeps_close.
  - grows_by keeps_Vertex_set_property.
  - grows_by keeps_Vertex_remove_property.
  - grows_by keeps_Edge_set_property.
  - grows_by keeps_Edge_remove_property.
Qed.

End GrowthOfAdds.

Lemma world_ok_fresh_ok (w : World SpecNative) : world_ok w → fresh_ok w.
Proof.
  intros Hw. split; [apply (wo_fresh_g _ Hw) |].
  split; [apply (wo_fresh_v _ Hw) | apply (wo_fresh_e _ Hw)].
Qed.

Lemma scenario_A_reachable : reachable scenario_A.
Proof.
  assert (H : scenario_A
              = exec (TinkerGraph_add_edge 0%nat (VStr "knows") (AVertex 1%nat)
                        (AVertex 2%nat) None {["since" := VInt 2018]})
                  (exec (TinkerGraph_add_vertex 0%nat (VStr "person") (VStr "bob") ∅)
                     (exec (TinkerGraph_add_vertex 0%nat (VStr "person") (VStr "alice")
                              {["name" := VStr "Alice"]})
                        (exec TinkerGraph_init initial_world))))
    by (vm_compute; reflexivity).
  rewrite H. apply reach_add_edge. do 2 apply reach_add_vertex.
  apply reach_init, reach_initial.
Qed.

Lemma scenario_A_fresh : fresh_ok scenario_A.
Proof. apply world_ok_fresh_ok, reachable_world_ok, scenario_A_reachable. Qed.

Lemma identities_never_change_witness :
  fresh_ok (after_mutation (M_remove_vertex 0%nat 1%nat) scenario_A)
  ∧ identities_kept scenario_A (after_mutation (M_remove_vertex 0%nat 1%nat) scenario_A).
Proof.
  exact (identities_never_change (M_remove_vertex 0%nat 1%nat) scenario_A scenario_A_fresh).
Defined.

(** *** Removing twice *)

Lemma vertex_registries_kept_refl {NS} (w : World NS) : vertex_registries_kept w w.
Proof. split; [| split]; intros r X HX; exists X; done. Qed.

Lemma vertex_registries_kept_trans {NS} (w1 w2 w3 : World NS) :
  vertex_registries_kept w1 w2 → vertex_registries_kept w2 w3 →
  vertex_registries_kept w1 w3.
Proof.
  intros (Hg1 & Hv1 & He1) (Hg2 & Hv2 & He2). split; [| split].
  - intros g G HG. destruct (Hg1 g G HG) as (G' & HG' & ? & ?).
    destruct (Hg2 g G' HG') as (G'' & HG'' & ? & ?).
    exists G''. repeat split; congruence.
  - intros v V HV. destruct (Hv1 v V HV) as (V' & HV' & ?).
    destruct (Hv2 v V' HV') as (V'' & HV'' & ?).
    exists V''. split; congruence.
  - intros e E HE. destruct (He1 e E HE) as (E' & HE' & ?).
    destruct (He2 e E' HE') as (E'' & HE'' & ?).
    exists E''. split; congruence.
Qed.

Lemma vertex_registries_kept_native {NS} (w : World NS) n tr :
  vertex_registries_kept w
    (mkWorld (graphs w) (vertex_objs w) (edge_objs w) (next_ref w) n tr).
Proof. split; [| split]; intros r X HX; exists X; done. Qed.

Lemma vertex_registries_kept_dispose_vertex {NS} (w : World NS) v V :
  vertex_objs w !! v = Some V →
  vertex_registries_kept w
    (mkWorld (graphs w) (<[v := dispose_vertex V]> (vertex_objs w)) (edge_objs w)
             (next_ref w) (native w) (trace w)).
Proof.
  intros HV. split; [| split]; simpl;
    [intros r X HX; exists X; done | | intros r X HX; exists X; done].
  intros r X HX. destruct (decide (v = r)) as [<- | Hne].
  - rewrite lookup_insert_eq. eexists. split; [done |].
    rewrite HV in HX. by injection HX as <-.
  - rewrite lookup_insert_ne by done. exists X. done.
Qed.

Lemma vertex_registries_kept_dispose_edge {NS} (w : World NS) e E :
  edge_objs w !! e = Some E →
  vertex_registries_kept w
    (mkWorld (graphs w) (vertex_objs w) (<[e := dispose_edge E]> (edge_objs w))
             (next_ref w) (native w) (trace w)).
Proof.
  intros HE. split; [| split]; simpl;
    [intros r X HX; exists X; done | intros r X HX; exists X; done |].
  intros r X HX. destruct (decide (e = r)) as [<- | Hne].
  - rewrite lookup_insert_eq. eexists. split; [done |].
    rewrite HE in HX. by injection HX as <-.
  - rewrite lookup_insert_ne by done. exists X. done.
Qed.

Lemma vertex_registries_kept_set_edges {NS} (w : World NS) g G d :
  graphs w !! g = Some G →
  vertex_registries_kept w
    (mkWorld (<[g := set_edges G d]> (graphs w)) (vertex_objs w) (edge_objs w)
             (next_ref w) (native w) (trace w)).
Proof.
  intros HG. split; [| split]; simpl;
    [| intros r X HX; exists X; done | intros r X HX; exists X; done].
  intros r X HX. destruct (decide (g = r)) as [<- | Hne].
  - rewrite lookup_insert_eq. eexists. split; [done |].
    rewrite HG in HX. by injection HX as <-.
  - rewrite lookup_insert_ne by done. exists X. done.
Qed.

Tactic Notation "registries_by" open_constr(lem) :=
  apply lem;
  try first [ exact vertex_registries_kept_refl | exact vertex_registries_kept_trans
            | exact vertex_registries_kept_native
            | exact vertex_registries_kept_dispose_vertex
            | exact vertex_registries_kept_dispose_edge
            | exact vertex_registries_kept_set_edges ].

Lemma exec_of {NS A} (m : StateExc NS A) w r w' : m w = (r, w') → w' = exec m w.
Proof. unfold exec. by intros ->. Qed.

Ltac as_keeps :=
  match goal with
  | |- ?R ?w (exec ?m ?w) => refine ((_ : keeps R m) w)
  end.

Section RemoveTwice.

Context {NS : Type} `{!NativeFunctionTable NS}.

Lemma remove_edge_again (w w1 : World NS) g e :
  TinkerGraph_remove_edge g e w = (Ok tt, w1) →
  TinkerGraph_remove_edge g e w1 = (Ok tt, w1).
Proof.
  intros H. pose proof H as Hrun. unfold TinkerGraph_remove_edge in H.
  destruct (check_not_closed_cases w g) as [(G & HG & Hopen & Hc) | (x & Hc)];
    [| by rewrite (bind_raise _ _ _ _ _ Hc) in H].
  rewrite (bind_ok _ _ _ _ _ Hc) in H.
  destruct (get_edge_cases w e) as [(E & HE & Hge) | (x & Hge)];
    [| by rewrite (bind_raise _ _ _ _ _ Hge) in H].
  rewrite (bind_ok _ _ _ _ _ Hge) in H.
  rewrite (bind_ok _ _ _ _ _ (get_graph_ok _ _ _ HG)) in H.
  destruct (bool_decide (is_Some (graph_edges G !! edge_ptr E))) eqn:Hreg;
    [| injection H as <-; exact Hrun].
  apply bind_inv_ok in H as ([] & wa & Hcl & H).
  assert (Hk : vertex_registries_kept w wa).
  { rewrite (exec_of _ _ _ _ Hcl). as_keeps. registries_by keeps_Edge__cleanup. }
  destruct Hk as (Hkg & _ & Hke).
  destruct (Hkg g G HG) as (G' & HG' & Hc' & _).
  destruct (Hke e E HE) as (E' & HE' & Hp').
  rewrite (bind_ok _ _ _ _ _ (get_graph_ok _ _ _ HG')) in H.
  unfold put_graph in H. injection H as <-.
  set (G1 := set_edges G' (delete (edge_ptr E) (graph_edges G'))).
  set (w1 := mkWorld (<[g := G1]> (graphs wa)) (vertex_objs wa) (edge_objs wa)
                     (next_ref wa) (native wa) (trace wa)).
  assert (HG1 : graphs w1 !! g = Some G1) by apply lookup_insert_eq.
  assert (Hopen1 : graph_closed G1 = false) by (simpl; congruence).
  assert (HE1 : edge_objs w1 !! e = Some E') by done.
  unfold TinkerGraph_remove_edge.
  rewrite (bind_ok _ _ _ _ _ (check_open _ _ _ HG1 Hopen1)).
  rewrite (bind_ok _ _ _ _ _ (get_edge_ok _ _ _ HE1)).
  rewrite (bind_ok _ _ _ _ _ (get_graph_ok _ _ _ HG1)).
  rewrite bool_decide_eq_false_2; [done |].
  simpl. rewrite Hp', lookup_delete_eq. by intros [? ?].
Qed.

Lemma remove_vertex_again (w w1 : World NS) g v :
  TinkerGraph_remove_vertex g v w = (Ok tt, w1) →
  TinkerGraph_remove_vertex g v w1 = (Ok tt, w1).
Proof.
  intros H. pose proof H as Hrun. unfold TinkerGraph_remove_vertex in H.
  destruct (check_not_closed_cases w g) as [(G & HG & Hopen & Hc) | (x & Hc)];
    [| by rewrite (bind_raise _ _ _ _ _ Hc) in H].
  rewrite (bind_ok _ _ _ _ _ Hc) in H.
  destruct (get_vertex_cases w v) as [(V & HV & Hgv) | (x & Hgv)];
    [| by rewrite (bind_raise _ _ _ _ _ Hgv) in H].
  rewrite (bind_ok _ _ _ _ _ Hgv) in H.
  rewrite (bind_ok _ _ _ _ _ (get_graph_ok _ _ _ HG)) in H.
  destruct (bool_decide (is_Some (graph_vertices G !! vertex_ptr V))) eqn:Hreg;
    [| injection H as <-; exact Hrun].
  apply bind_inv_ok in H as (es & wb & Hsel & H).
  apply bind_inv_ok in H as ([] & wc & Hloop & H).
  apply bind_inv_ok in H as ([] & wd & Hcl & H).
  assert (Hk : vertex_registries_kept w wd).
  { apply (vertex_registries_kept_trans w wb wd);
      [| apply (vertex_registries_kept_trans wb wc wd)].
    - rewrite (exec_of _ _ _ _ Hsel). as_keeps.
      registries_by keeps_comprehension_if. intros e0.
      registries_by keeps_bind; [registries_by keeps_get_edge |]. intros E0.
      registries_by keeps_bind; [registries_by keeps_Vertex___eq__ |]. intros o.
      destruct o; [registries_by keeps_ret | registries_by keeps_Vertex___eq__].
    - rewrite (exec_of _ _ _ _ Hloop). as_keeps.
      registries_by keeps_for_each. intros e0. registries_by keeps_remove_edge.
    - rewrite (exec_of _ _ _ _ Hcl). as_keeps. registries_by keeps_Vertex__cleanup. }
  destruct Hk as (Hkg & Hkv & _).
  destruct (Hkg g G HG) as (G' & HG' & Hc' & _).
  destruct (Hkv v V HV) as (V' & HV' & Hp').
  rewrite (bind_ok _ _ _ _ _ (get_graph_ok _ _ _ HG')) in H.
  unfold put_graph in H. injection H as <-.
  set (G1 := set_vertices G' (delete (vertex_ptr V) (graph_vertices G'))).
  set (w1 := mkWorld (<[g := G1]> (graphs wd)) (vertex_objs wd) (edge_objs wd)
                     (next_ref wd) (native wd) (trace wd)).
  assert (HG1 : graphs w1 !! g = Some G1) by apply lookup_insert_eq.
  assert (Hopen1 : graph_closed G1 = false) by (simpl; congruence).
  assert (HV1 : vertex_objs w1 !! v = Some V') by done.
  unfold TinkerGraph_remove_vertex.
  rewrite (bind_ok _ _ _ _ _ (check_open _ _ _ HG1 Hopen1)).
  rewrite (bind_ok _ _ _ _ _ (get_vertex_ok _ _ _ HV1)).
  rewrite (bind_ok _ _ _ _ _ (get_graph_ok _ _ _ HG1)).
  rewrite bool_decide_eq_false_2; [done |].
  simpl. rewrite Hp', lookup_delete_eq. by intros [? ?].
Qed.

(** Removing an element a second time does nothing: once [remove_edge(e)] or
    [remove_vertex(v)] has returned, the same call again returns normally,
    makes no native call and leaves the store exactly as it is. *)
Theorem removing_twice_is_removing_once (w w1 : World NS) g :
  (∀ e, TinkerGraph_remove_edge g e w = (Ok tt, w1) →
        TinkerGraph_remove_edge g e w1 = (Ok tt, w1))
  ∧ (∀ v, TinkerGraph_remove_vertex g v w = (Ok tt, w1) →
          TinkerGraph_remove_vertex g v w1 = (Ok tt, w1)).
Proof.
  split; [intros e; apply remove_edge_again | intros v; apply remove_vertex_again].
Qed.

End RemoveTwice.

Lemma removing_twice_is_removing_once_witness :
  let w1 := exec (TinkerGraph_remove_vertex 0%nat 1%nat) scenario_A in
  TinkerGraph_remove_vertex 0%nat 1%nat w1 = (Ok tt, w1).
Proof.
  intros w1.
  refine (proj2 (removing_twice_is_removing_once scenario_A w1 0%nat) 1%nat _).
  vm_compute. reflexivity.
Defined.
